(** * Batch job orchestration of the image generator

    A shallow embedding of the job store ([lib/jobManager.ts]), the
    submit handler and the dispatcher ([app/api/generate/route.ts]),
    with the properties of the specification stated over it.

    Conventions of the embedding.
    - A JavaScript [Map<string, V>] is a [gmap string V]; the iteration
      order of the map plays no role in any of the operations below.
    - A JavaScript [number] read from the request body is a [number]:
      [Some z] for an integer value, [None] for a field that is missing
      ([undefined]) or not a number; every comparison with [None] is
      false, as it is with [NaN].
    - [randomUUID()] and [Date.now()] are inputs of the operations that
      call them.
    - The asynchronous dispatcher is a transition system.  A transition
      is one loop test of [processJobs] together with the branch it
      takes, the part of one [processJob] after its [await], or one
      [finally] callback.  JavaScript runs [processJobs] without
      interruption from one [await] to the next, so the other two kinds
      of transition happen only while [processJobs] is suspended; among
      themselves they may come in any order.  The store is written by
      this dispatcher alone while it runs. *)

From Stdlib Require Import ZArith Ascii.
From stdpp Require Import gmap strings list fin_maps pretty.

(** ** lib/types.ts *)

Inductive JobStatus := Pending | Generating | Complete | Error.

Inductive GenerationMode := Edit | Reference.

#[global] Instance JobStatus_eq_dec : EqDecision JobStatus.
Proof. solve_decision. Defined.

Definition number := option Z.

(** [a < b] on JavaScript numbers. *)
Definition lt_num (a b : number) : bool :=
  match a, b with
  | Some x, Some y => bool_decide (x < y)%Z
  | _, _ => false
  end.

Record GenerateRequest := {
  prompt : option string;
  imageCount : number;
  concurrency : number;
  temperature : number;
  image : option string;
  mode : option GenerationMode
}.

Record Job := {
  job_id : string;
  job_status : JobStatus;
  job_imageUrl : option string;
  job_error : option string;
  job_createdAt : Z
}.

Record Batch := {
  batch_id : string;
  batch_jobIds : list string;
  batch_concurrency : number;
  batch_createdAt : Z
}.

(** [Partial<Job>]: every field may be left out.  For the two optional
    fields of [Job] a property that is present may still hold
    [undefined], hence the nested option. *)
Record JobUpdates := {
  upd_id : option string;
  upd_status : option JobStatus;
  upd_imageUrl : option (option string);
  upd_error : option (option string);
  upd_createdAt : option Z
}.

Definition terminal (st : JobStatus) : bool :=
  match st with
  | Complete | Error => true
  | Pending | Generating => false
  end.

(** ** lib/jobManager.ts *)

Record JobManager := {
  jobs : gmap string Job;
  batches : gmap string Batch
}.

Definition emptyManager : JobManager := {| jobs := ∅; batches := ∅ |}.

(** One property of [{ ...job, ...updates }]: the value of [updates]
    when it has the property, the value of [job] otherwise. *)
Definition spread {A} (old : A) (new : option A) : A :=
  match new with
  | Some v => v
  | None => old
  end.

Definition mergeJob (job : Job) (updates : JobUpdates) : Job :=
  {| job_id := spread (job_id job) (upd_id updates);
     job_status := spread (job_status job) (upd_status updates);
     job_imageUrl := spread (job_imageUrl job) (upd_imageUrl updates);
     job_error := spread (job_error job) (upd_error updates);
     job_createdAt := spread (job_createdAt job) (upd_createdAt updates) |}.

(** [createJob()], with the identifier drawn by [randomUUID()] and the
    value of [Date.now()]. *)
Definition createJob (uuid : string) (now : Z) (m : JobManager)
  : string * JobManager :=
  let job := {| job_id := uuid; job_status := Pending; job_imageUrl := None;
                job_error := None; job_createdAt := now |} in
  (uuid, {| jobs := <[uuid := job]> (jobs m); batches := batches m |}).

Definition getJob (id : string) (m : JobManager) : option Job :=
  jobs m !! id.

Definition updateJob (id : string) (updates : JobUpdates) (m : JobManager)
  : JobManager :=
  match jobs m !! id with
  | Some job =>
      {| jobs := <[id := mergeJob job updates]> (jobs m);
         batches := batches m |}
  | None => m
  end.

Definition createBatch (uuid : string) (now : Z) (jobIds : list string)
    (conc : number) (m : JobManager) : string * JobManager :=
  let batch := {| batch_id := uuid; batch_jobIds := jobIds;
                  batch_concurrency := conc; batch_createdAt := now |} in
  (uuid, {| jobs := jobs m; batches := <[uuid := batch]> (batches m) |}).

Definition getBatch (id : string) (m : JobManager) : option Batch :=
  batches m !! id.

(** One of the two loops of [cleanup]: visit every entry of the map and
    delete those created before [cutoff]. *)
Definition sweep {V} (createdAt : V → Z) (cutoff : Z) (entries : gmap string V)
  : gmap string V :=
  foldr (λ entry acc,
           if bool_decide (createdAt entry.2 < cutoff)%Z
           then delete entry.1 acc else acc)
        entries (map_to_list entries).

Definition cleanup (now : Z) (olderThanMs : Z) (m : JobManager) : JobManager :=
  let cutoff := (now - olderThanMs)%Z in
  {| jobs := sweep job_createdAt cutoff (jobs m);
     batches := sweep batch_createdAt cutoff (batches m) |}.

(** ** lib/cleanup.ts *)

Definition CLEANUP_INTERVAL : Z := 15 * 60 * 1000.
Definition JOB_LIFETIME : Z := 60 * 60 * 1000.

(** What the timer callback of [startCleanupTask] does when it fires at
    time [now]. *)
Definition cleanupTick (now : Z) (m : JobManager) : JobManager :=
  cleanup now JOB_LIFETIME m.

(** ** app/api/generate/route.ts: requests and responses *)

Inductive ResponseBody :=
  | ErrorBody (error : string)
  | GenerateBody (batchId : string) (jobIds : list string) (status : JobStatus).

Record Response := {
  resp_status : Z;
  resp_body : ResponseBody
}.

(** [!body.prompt || body.prompt.length < 3] *)
Definition promptRejected (p : option string) : bool :=
  match p with
  | None => true
  | Some s => bool_decide (s = "") || bool_decide (String.length s < 3)
  end.

(** [n < lo || n > hi] *)
Definition outOfRange (n : number) (lo hi : Z) : bool :=
  lt_num n (Some lo) || lt_num (Some hi) n.

(** Number of rounds of [for (let i = 0; i < n; i++)]. *)
Definition rounds (n : number) : nat :=
  match n with
  | Some z => Z.to_nat z
  | None => 0
  end.

(** The job-creation loop.  [randomUUID k] and [dateNow k] are the
    results of the [k]-th call of the handler to the respective
    function. *)
Fixpoint createJobs (randomUUID : nat → string) (dateNow : nat → Z)
    (n k : nat) (m : JobManager) : list string * JobManager :=
  match n with
  | O => ([], m)
  | S n' =>
      let '(jobId, m1) := createJob (randomUUID k) (dateNow k) m in
      let '(rest, m2) := createJobs randomUUID dateNow n' (S k) m1 in
      (jobId :: rest, m2)
  end.

(** The invalid requests that the specification names: a prompt that is
    missing or has fewer than 3 characters, a number outside [lo, hi]. *)
Definition prompt_short (p : option string) : Prop :=
  p = None ∨ ∃ s, p = Some s ∧ String.length s < 3.

Definition outside (n : number) (lo hi : Z) : Prop :=
  ∃ z, n = Some z ∧ (z < lo ∨ hi < z)%Z.

(** ** app/api/generate/route.ts: the dispatcher *)

(** What a [catch] clause receives: an [Error] object with its message,
    or any other value. *)
Inductive Thrown :=
  | ThrownError (message : string)
  | ThrownOther.

(** [error instanceof Error ? error.message : 'Unknown error'] *)
Definition caughtMessage (e : Thrown) : string :=
  match e with
  | ThrownError message => message
  | ThrownOther => "Unknown error"
  end.

(** How the promise of [geminiClient.generateImage(..)] settles: with
    the image as a data URL, or with what it throws. *)
Inductive Outcome :=
  | Fulfilled (imageUrl : string)
  | Rejected (e : Thrown).

Definition markGenerating : JobUpdates :=
  {| upd_id := None; upd_status := Some Generating; upd_imageUrl := None;
     upd_error := None; upd_createdAt := None |}.

Definition markComplete (imageUrl : string) : JobUpdates :=
  {| upd_id := None; upd_status := Some Complete;
     upd_imageUrl := Some (Some imageUrl);
     upd_error := None; upd_createdAt := None |}.

Definition markError (e : Thrown) : JobUpdates :=
  {| upd_id := None; upd_status := Some Error; upd_imageUrl := None;
     upd_error := Some (Some (caughtMessage e)); upd_createdAt := None |}.

(** [processJob] from its first line to its first suspension.  The
    request only reaches the provider call, whose result is an input of
    the model.
    [client] is what [getGeminiClient()] does: [None] when it returns
    the client, [Some e] when it throws [e].  The boolean tells whether
    [processJob] has already returned ([true]) or is suspended on the
    provider call ([false]). *)
Definition processJob_start (jobId : string) (client : option Thrown)
    (m : JobManager) : JobManager * bool :=
  let m1 := updateJob jobId markGenerating m in
  match client with
  | Some e => (updateJob jobId (markError e) m1, true)
  | None => (m1, false)
  end.

(** [processJob] from the settlement of the provider call to its end. *)
Definition processJob_resume (jobId : string) (o : Outcome) (m : JobManager)
  : JobManager :=
  match o with
  | Fulfilled imageUrl => updateJob jobId (markComplete imageUrl) m
  | Rejected e => updateJob jobId (markError e) m
  end.

(** A member of [active]: the promise [processJob(jobId, request).finally(..)].
    [unit_returned] tells whether its [processJob] has returned; the
    member stays in [active] until its [finally] callback has run. *)
Record Unit := {
  unit_jobId : string;
  unit_returned : bool
}.

Definition returnedUnit (u : Unit) : Unit :=
  {| unit_jobId := unit_jobId u; unit_returned := true |}.

(** Where [processJobs] stands: at the test of the outer [while], at the
    test of the inner [while], suspended in [await Promise.race(active)]
    (with [true] once one of the raced promises has settled), or past
    the outer loop. *)
Inductive Pc :=
  | AtOuter
  | AtInner
  | AtAwait (woken : bool)
  | Finished.

Record Dispatcher := {
  store : JobManager;
  queue : list string;
  active : list Unit;
  pc : Pc
}.

(** What can happen next.
    - [EvRun client]: [processJobs] runs up to its next loop test or
      suspension; [client] is used if that piece calls [processJob].
    - [EvSettle i o]: the provider call of the [i]-th member of [active]
      settles with [o] and its [processJob] runs to its end.
    - [EvFinally i]: the [finally] callback of the [i]-th member runs. *)
Inductive Event :=
  | EvRun (client : option Thrown)
  | EvSettle (i : nat) (o : Outcome)
  | EvFinally (i : nat).

Definition processJobs_init (jobIds : list string) (m : JobManager) : Dispatcher :=
  {| store := m; queue := jobIds; active := []; pc := AtOuter |}.

Definition with_pc (s : Dispatcher) (p : Pc) : Dispatcher :=
  {| store := store s; queue := queue s; active := active s; pc := p |}.

(** [active.size < concurrency && queue.length > 0] *)
Definition mayAdmit (conc : number) (s : Dispatcher) : bool :=
  lt_num (Some (Z.of_nat (length (active s)))) conc
  && bool_decide (queue s ≠ []).

(** The state after [e], or [None] when [e] cannot happen in [s].
    - At the outer test: [queue.length > 0 || active.size > 0].
    - At the inner test: if it holds, [queue.shift()], the synchronous
      part of [processJob] and [active.add(promise)]; if not,
      [if (active.size > 0) await Promise.race(active)], which suspends
      or falls through to the outer test.
    - Suspended: a provider call settles, a [finally] callback runs
      [active.delete(promise)] and thereby settles the race, or
      [processJobs] resumes after the race has settled. *)
Definition step (conc : number) (s : Dispatcher) (e : Event) : option Dispatcher :=
  match pc s, e with
  | AtOuter, EvRun _ =>
      if bool_decide (queue s ≠ []) || bool_decide (active s ≠ [])
      then Some (with_pc s AtInner)
      else Some (with_pc s Finished)
  | AtInner, EvRun client =>
      match mayAdmit conc s, queue s with
      | true, jobId :: rest =>
          let '(m, returned) := processJob_start jobId client (store s) in
          Some {| store := m; queue := rest;
                  active := active s ++
                            [{| unit_jobId := jobId; unit_returned := returned |}];
                  pc := AtInner |}
      | _, _ =>
          if bool_decide (active s ≠ [])
          then Some (with_pc s (AtAwait false))
          else Some (with_pc s AtOuter)
      end
  | AtAwait true, EvRun _ =>
      Some (with_pc s AtOuter)
  | AtAwait woken, EvSettle i o =>
      match active s !! i with
      | Some u =>
          if unit_returned u then None
          else Some {| store := processJob_resume (unit_jobId u) o (store s);
                       queue := queue s;
                       active := <[i := returnedUnit u]> (active s);
                       pc := AtAwait woken |}
      | None => None
      end
  | AtAwait _, EvFinally i =>
      match active s !! i with
      | Some u =>
          if unit_returned u
          then Some {| store := store s; queue := queue s;
                       active := delete i (active s); pc := AtAwait true |}
          else None
      | None => None
      end
  | _, _ => None
  end.

(** The dispatcher after the events [es], if each of them can happen
    when its turn comes. *)
Fixpoint run (conc : number) (es : list Event) (s : Dispatcher)
  : option Dispatcher :=
  match es with
  | [] => Some s
  | e :: es' =>
      match step conc s e with
      | Some s' => run conc es' s'
      | None => None
      end
  end.

(** ** app/api/generate/route.ts: the handler *)

(** [processJobs] from where it stands to its next suspension or to its
    return, run without interruption.  [client] is what
    [getGeminiClient()] does at each admission of this stretch: the
    environment cannot change while the code runs without suspending,
    so either every call throws the same value or every call returns
    the client.  The result is [None] when neither a suspension nor the
    return is reached within [fuel] loop tests. *)
Fixpoint processJobs_sync (conc : number) (client : option Thrown)
    (fuel : nat) (s : Dispatcher) : option Dispatcher :=
  match pc s with
  | AtAwait _ | Finished => Some s
  | AtOuter | AtInner =>
      match fuel with
      | O => None
      | S fuel' =>
          match step conc s (EvRun client) with
          | Some s' => processJobs_sync conc client fuel' s'
          | None => None
          end
      end
  end.

(** Result of the handler: the response, the store at the moment the
    handler returns, the arguments of the [processJobs] call it made,
    if it made one, and the dispatcher as that call left it, suspended
    or returned. *)
Record Handled := {
  response : Response;
  manager : JobManager;
  dispatched : option (list string * number);
  dispatcher : option Dispatcher
}.

Definition badRequest (msg : string) (m : JobManager) : Handled :=
  {| response := {| resp_status := 400; resp_body := ErrorBody msg |};
     manager := m; dispatched := None; dispatcher := None |}.

(** [body] is [None] when [request.json()] throws.  The call
    [processJobs(jobIds, body, body.concurrency)] is not awaited, but
    it runs up to its first suspension before the handler goes on to
    build its response.  That stretch takes at most one loop test per
    job and two more when it ends at all (see
    [processJobs_sync_fuel]); the handler is [None] when it does not
    end, and then the handler never answers. *)
Definition POST (randomUUID : nat → string) (dateNow : nat → Z)
    (client : option Thrown) (body : option GenerateRequest) (m : JobManager)
  : option Handled :=
  match body with
  | None =>
      Some {| response := {| resp_status := 500;
                             resp_body := ErrorBody "Internal server error" |};
              manager := m; dispatched := None; dispatcher := None |}
  | Some body =>
      if promptRejected (prompt body) then
        Some (badRequest "Prompt must be at least 3 characters" m)
      else if outOfRange (imageCount body) 1 10 then
        Some (badRequest "Image count must be between 1 and 10" m)
      else if outOfRange (concurrency body) 1 5 then
        Some (badRequest "Concurrency must be between 1 and 5" m)
      else
        let n := rounds (imageCount body) in
        let '(jobIds, m1) := createJobs randomUUID dateNow n 0 m in
        let '(batchId, m2) :=
          createBatch (randomUUID n) (dateNow n) jobIds (concurrency body) m1 in
        match processJobs_sync (concurrency body) client (length jobIds + 2)
                (processJobs_init jobIds m2) with
        | Some s =>
            Some {| response := {| resp_status := 200;
                                   resp_body := GenerateBody batchId jobIds Pending |};
                    manager := store s;
                    dispatched := Some (jobIds, concurrency body);
                    dispatcher := Some s |}
        | None => None
        end
  end.

(** The job that [e] admits in state [s], if [e] is an admission. *)
Definition admits (conc : number) (s : Dispatcher) (e : Event) : option string :=
  match pc s, e with
  | AtInner, EvRun _ => if mayAdmit conc s then head (queue s) else None
  | _, _ => None
  end.

(** The jobs admitted along [es], in the order of their admission. *)
Fixpoint admitted (conc : number) (es : list Event) (s : Dispatcher)
  : list string :=
  match es with
  | [] => []
  | e :: es' =>
      match step conc s e with
      | Some s' =>
          match admits conc s e with
          | Some jobId => jobId :: admitted conc es' s'
          | None => admitted conc es' s'
          end
      | None => []
      end
  end.

Definition statusOf (id : string) (m : JobManager) : option JobStatus :=
  job_status <$> getJob id m.

Definition isGenerating (m : JobManager) (id : string) : bool :=
  bool_decide (statusOf id m = Some Generating).

Definition isTerminal (m : JobManager) (id : string) : bool :=
  match statusOf id m with
  | Some st => terminal st
  | None => false
  end.

(** The jobs of the batch that are in status 'generating'. *)
Definition generatingJobs (jobIds : list string) (m : JobManager) : list string :=
  filter (λ id, isGenerating m id = true) (remove_dups jobIds).

(** The jobs of the members of [active] whose provider call has not
    settled. *)
Definition pendingIds (l : list Unit) : list string :=
  unit_jobId <$> filter (λ u, unit_returned u = false) l.

Definition inFlight (s : Dispatcher) : list string :=
  pendingIds (active s).

(** A scheduler that lets [processJobs] run whenever it can and
    otherwise serves the first member of [active], settling its call
    with [o]. *)
Definition nextEvent (o : Outcome) (s : Dispatcher) : option Event :=
  match pc s with
  | AtOuter | AtInner | AtAwait true => Some (EvRun None)
  | AtAwait false =>
      match active s with
      | u :: _ => if unit_returned u then Some (EvFinally 0)
                  else Some (EvSettle 0 o)
      | [] => None
      end
  | Finished => None
  end.

Fixpoint drive (conc : number) (o : Outcome) (fuel : nat) (s : Dispatcher)
  : option Dispatcher :=
  match nextEvent o s with
  | None => Some s
  | Some e =>
      match fuel with
      | O => None
      | S fuel' =>
          match step conc s e with
          | Some s' => drive conc o fuel' s'
          | None => None
          end
      end
  end.

(** Decreases with every step of a dispatcher whose limit is at least 1. *)
Definition weight (s : Dispatcher) : nat :=
  9 * length (queue s) + 7 * length (active s) + length (inFlight s)
  + match pc s with
    | AtAwait true => 6
    | AtOuter => if bool_decide (queue s ≠ []) || bool_decide (active s ≠ [])
                 then 5 else 1
    | AtInner => 4
    | AtAwait false => 0
    | Finished => 0
    end.

(** ** Sample data *)

(** A store with one job created at time 100 and one batch created at
    time 5000. *)
Definition sampleStore : JobManager :=
  (createBatch "b1" 5000 ["j1"] (Some 1%Z) (createJob "j1" 100 emptyManager).2).2.

Definition sampleRequest (n c : number) (p : option string) : GenerateRequest :=
  {| prompt := p; imageCount := n; concurrency := c;
     temperature := Some 1%Z; image := None; mode := None |}.

(** Identifiers "0", "1", ... for the successive calls of [randomUUID]. *)
Definition sampleUUID (k : nat) : string := pretty k.

Definition sampleClock (k : nat) : Z := 1000 + Z.of_nat k.

(** The jobs "0", ..., "n-1" as the handler creates them in an empty
    store. *)
Definition sampleBatch (n : nat) : list string * JobManager :=
  createJobs sampleUUID sampleClock n 0 emptyManager.

(** Three jobs under limit 2: [processJobs] fills both slots and
    suspends. *)
Definition sampleRun : list Event :=
  [EvRun None; EvRun None; EvRun None; EvRun None].

(** Then the second job admitted settles first. *)
Definition sampleRunLaterFirst : list Event :=
  sampleRun ++ [EvSettle 1 (Fulfilled "data:image/png;base64,AA")].

Definition sampleRunEarlierFirst : list Event :=
  sampleRun ++ [EvSettle 0 (Fulfilled "data:image/png;base64,AA")].

(** ** The transitions, case by case *)

Inductive Step (conc : number) (s : Dispatcher) : Event → Dispatcher → Prop :=
  | Step_enter client :
      pc s = AtOuter → queue s ≠ [] ∨ active s ≠ [] →
      Step conc s (EvRun client) (with_pc s AtInner)
  | Step_leave client :
      pc s = AtOuter → queue s = [] → active s = [] →
      Step conc s (EvRun client) (with_pc s Finished)
  | Step_admit client jobId rest m returned :
      pc s = AtInner → mayAdmit conc s = true → queue s = jobId :: rest →
      processJob_start jobId client (store s) = (m, returned) →
      Step conc s (EvRun client)
        {| store := m; queue := rest;
           active := active s ++
                     [{| unit_jobId := jobId; unit_returned := returned |}];
           pc := AtInner |}
  | Step_await client :
      pc s = AtInner → mayAdmit conc s = false → active s ≠ [] →
      Step conc s (EvRun client) (with_pc s (AtAwait false))
  | Step_idle client :
      pc s = AtInner → mayAdmit conc s = false → active s = [] →
      Step conc s (EvRun client) (with_pc s AtOuter)
  | Step_wake client :
      pc s = AtAwait true →
      Step conc s (EvRun client) (with_pc s AtOuter)
  | Step_settle woken i o u :
      pc s = AtAwait woken → active s !! i = Some u → unit_returned u = false →
      Step conc s (EvSettle i o)
        {| store := processJob_resume (unit_jobId u) o (store s);
           queue := queue s;
           active := <[i := returnedUnit u]> (active s);
           pc := AtAwait woken |}
  | Step_finally woken i u :
      pc s = AtAwait woken → active s !! i = Some u → unit_returned u = true →
      Step conc s (EvFinally i)
        {| store := store s; queue := queue s;
           active := delete i (active s); pc := AtAwait true |}.

(** ** Invariants of the dispatcher *)

(** The largest size of [active] that the test of the inner loop lets
    through. *)
Definition limit (conc : number) : nat :=
  match conc with
  | Some k => Z.to_nat k
  | None => 0
  end.

(** A job that has left the queue is in flight, or terminal, or no
    longer in the store. *)
Definition served (s : Dispatcher) (id : string) : Prop :=
  id ∈ inFlight s ∨ isTerminal (store s) id = true ∨ getJob id (store s) = None.

Record Inv (conc : number) (jobIds : list string) (s : Dispatcher) : Prop := {
  inv_cap : length (active s) ≤ limit conc;
  inv_order : ∃ pre, jobIds = pre ++ queue s ∧
                     (∀ id, id ∈ pre → served s id) ∧
                     (∀ u, u ∈ active s → unit_jobId u ∈ pre);
  inv_await : pc s = AtAwait false → active s ≠ [];
  inv_finished : pc s = Finished → queue s = [] ∧ active s = []
}.

(** Only a job in flight is 'generating'. *)
Definition GenInv (jobIds : list string) (s : Dispatcher) : Prop :=
  ∀ id, id ∈ jobIds → isGenerating (store s) id = true → id ∈ inFlight s.

(** With distinct job identifiers, the jobs still to be written (queued
    or in flight) are not terminal. *)
Record Fresh (s : Dispatcher) : Prop := {
  fresh_nodup : NoDup ((unit_jobId <$> active s) ++ queue s);
  fresh_queue : ∀ id, id ∈ queue s → isTerminal (store s) id = false;
  fresh_flight : ∀ id, id ∈ inFlight s → isTerminal (store s) id = false
}.

(** The job whose provider call fails when [e] happens in state [s],
    with what is thrown: [getGeminiClient()] throws as the job is
    admitted, or the promise of [generateImage] is rejected. *)
Definition failureOf (conc : number) (s : Dispatcher) (e : Event)
  : option (string * Thrown) :=
  match e with
  | EvRun (Some t) => (λ jobId, (jobId, t)) <$> admits conc s e
  | EvSettle i (Rejected t) => (λ u, (unit_jobId u, t)) <$> active s !! i
  | _ => None
  end.

(** The job whose [processJob] ends when [e] happens in state [s], with
    the outcome of its provider call: the promise of [generateImage]
    settles, or [getGeminiClient()] throws as the job is admitted (the
    job then ends as after a rejection). *)
Definition settles (conc : number) (s : Dispatcher) (e : Event)
  : option (string * Outcome) :=
  match e with
  | EvRun (Some t) => (λ jobId, (jobId, Rejected t)) <$> admits conc s e
  | EvRun None => None
  | EvSettle i o => (λ u, (unit_jobId u, o)) <$> active s !! i
  | EvFinally _ => None
  end.

(** The outcomes of the provider calls that ended along [es], in the
    order in which they ended, each with its job. *)
Fixpoint verdicts (conc : number) (es : list Event) (s : Dispatcher)
  : list (string * Outcome) :=
  match es with
  | [] => []
  | e :: es' =>
      match step conc s e with
      | Some s' =>
          match settles conc s e with
          | Some v => v :: verdicts conc es' s'
          | None => verdicts conc es' s'
          end
      | None => []
      end
  end.

(** The record of a job shows the outcome [o]. *)
Definition shows (o : Outcome) (job : Job) : Prop :=
  match o with
  | Fulfilled url => job_status job = Complete ∧ job_imageUrl job = Some url
  | Rejected t =>
      job_status job = Error ∧ job_error job = Some (caughtMessage t)
  end.

(** Where the record [job] that the store holds for [id] comes from,
    given the store [m] at the start and the outcomes [log] so far: the
    job is still queued and its record is the one of the start; or its
    provider call is in flight and it is 'generating'; or its provider
    call has ended and the record shows the outcome of that call. *)
Definition accounted (m : JobManager) (log : list (string * Outcome))
    (s : Dispatcher) (id : string) (job : Job) : Prop :=
  (id ∈ queue s ∧ getJob id m = Some job) ∨
  (id ∈ inFlight s ∧ job_status job = Generating) ∨
  (∃ o, (id, o) ∈ log ∧ shows o job).

(** The jobs that have left the queue are the ones written so far:
    the others have the record of the start, and none of the admitted
    ones is 'pending'. *)
Record Marked (m : JobManager) (jobIds : list string) (s : Dispatcher)
  : Prop := {
  marked_order : ∃ pre, jobIds = pre ++ queue s ∧
                   (∀ u, u ∈ active s → unit_jobId u ∈ pre) ∧
                   (∀ id, id ∉ pre → getJob id (store s) = getJob id m) ∧
                   (∀ id job, id ∈ pre → getJob id (store s) = Some job →
                      job_status job ≠ Pending)
}.

(** The store after the synchronous part of [processJob] has run for
    each of [ids], [getGeminiClient()] doing [client] each time. *)
Definition startEach (client : option Thrown) (ids : list string)
    (m : JobManager) : JobManager :=
  foldl (λ acc id, (processJob_start id client acc).1) m ids.

(** The member of [active] that the admission of [jobId] adds. *)
Definition admittedUnit (client : option Thrown) (jobId : string) : Unit :=
  {| unit_jobId := jobId;
     unit_returned := match client with Some _ => true | None => false end |}.

(** A job as the synchronous part of [processJob] leaves a job that
    [createJob] stored under [id]. *)
Definition startedJob (client : option Thrown) (id : string) (job : Job) : Prop :=
  job_id job = id ∧
  job_status job = match client with Some _ => Error | None => Generating end ∧
  job_imageUrl job = None ∧
  job_error job = match client with
                  | Some t => Some (caughtMessage t)
                  | None => None
                  end.

(** A job as [createJob] stores it under [id]. *)
Definition pendingJob (id : string) (job : Job) : Prop :=
  job_id job = id ∧ job_status job = Pending ∧
  job_imageUrl job = None ∧ job_error job = None.

(** ** app/api/status/[jobId]/route.ts *)

Record StatusResponse := {
  sr_jobId : string;
  sr_status : JobStatus;
  sr_imageUrl : option string;
  sr_error : option string
}.

Inductive StatusBody :=
  | StatusFound (r : StatusResponse)
  | StatusFailed (error : string).

Record StatusReply := {
  reply_status : Z;
  reply_body : StatusBody
}.

(** [params] is [None] when awaiting the route parameters throws. *)
Definition GET (params : option string) (m : JobManager) : StatusReply :=
  match params with
  | None =>
      {| reply_status := 500; reply_body := StatusFailed "Internal server error" |}
  | Some jobId =>
      match getJob jobId m with
      | None =>
          {| reply_status := 404; reply_body := StatusFailed "Job not found" |}
      | Some job =>
          {| reply_status := 200;
             reply_body := StatusFound
               {| sr_jobId := job_id job; sr_status := job_status job;
                  sr_imageUrl := job_imageUrl job; sr_error := job_error job |} |}
      end
  end.

(** ** app/page.tsx: one round of [pollJobs] *)

(** [job.status === 'complete' || job.status === 'error'] on a parsed
    reply; the body of a failed reply has no [status]. *)
Definition bodyDone (b : StatusBody) : bool :=
  match b with
  | StatusFound r =>
      bool_decide (sr_status r = Complete) || bool_decide (sr_status r = Error)
  | StatusFailed _ => false
  end.

(** The statuses fetched in one round, whatever the HTTP status of each
    reply, and the value of [allComplete] after the round. *)
Definition pollRound (jobIds : list string) (m : JobManager)
  : list StatusBody * bool :=
  let statuses := (λ jobId, reply_body (GET (Some jobId) m)) <$> jobIds in
  (statuses, forallb bodyDone statuses).

(** ** components/ImageGallery.tsx *)

(** [j.status === 'complete'] *)
Definition bodyComplete (b : StatusBody) : bool :=
  match b with
  | StatusFound r => bool_decide (sr_status r = Complete)
  | StatusFailed _ => false
  end.

(** [jobs.filter(j => j.status === 'complete').length] *)
Definition completedCount (jobs : list StatusBody) : nat :=
  length (filter (λ b, bodyComplete b = true) jobs).

(** Whether the gallery renders the "Download All" button:
    [jobs.length !== 0] and
    [completedCount === totalCount && completedCount > 0]. *)
Definition showsDownloadAll (jobs : list StatusBody) : bool :=
  negb (bool_decide (length jobs = 0))
  && (bool_decide (completedCount jobs = length jobs)
      && bool_decide (0 < completedCount jobs)).

(** ** lib/cleanup.ts: the timer *)

(** The store after the timer of [startCleanupTask] has fired at each
    of the times [nows], in that order. *)
Definition cleanupTicks (nows : list Z) (m : JobManager) : JobManager :=
  foldl (λ acc now, cleanupTick now acc) m nows.

(** The time of the [n]-th firing (counted from 1) of a timer set at
    time [t0]. *)
Definition tickTime (t0 : Z) (n : nat) : Z :=
  (t0 + Z.of_nat n * CLEANUP_INTERVAL)%Z.

(** ** lib/gemini.ts *)

(** The client object; it keeps the key it was built with. *)
Record GeminiClient := {
  client_apiKey : string
}.

(** [new GeminiClient()], with the value of [process.env.GEMINI_API_KEY];
    [!apiKey] holds for a missing and for an empty key. *)
Definition newGeminiClient (apiKey : option string) : Thrown + GeminiClient :=
  match apiKey with
  | None => inl (ThrownError "GEMINI_API_KEY environment variable is required")
  | Some key =>
      if bool_decide (key = "")
      then inl (ThrownError "GEMINI_API_KEY environment variable is required")
      else inr {| client_apiKey := key |}
  end.

(** [getGeminiClient()], with the module variable [_geminiClient] passed
    in and out. *)
Definition getGeminiClient (apiKey : option string) (cached : option GeminiClient)
  : (Thrown + GeminiClient) * option GeminiClient :=
  match cached with
  | Some c => (inr c, Some c)
  | None =>
      match newGeminiClient apiKey with
      | inr c => (inr c, Some c)
      | inl e => (inl e, None)
      end
  end.

(** The results of successive calls of [getGeminiClient()], the
    environment holding [keys] at the time of each call. *)
Fixpoint getGeminiClients (keys : list (option string))
    (cached : option GeminiClient) : list (Thrown + GeminiClient) :=
  match keys with
  | [] => []
  | key :: keys' =>
      let '(r, cached') := getGeminiClient key cached in
      r :: getGeminiClients keys' cached'
  end.

(** [s.split(',')] *)
Fixpoint splitComma (s : string) : list string :=
  match s with
  | EmptyString => [EmptyString]
  | String a rest =>
      if bool_decide (a = ","%char) then EmptyString :: splitComma rest
      else match splitComma rest with
           | piece :: pieces => String a piece :: pieces
           | [] => [String a EmptyString]
           end
  end.

(** [s.includes(',')] *)
Fixpoint includesComma (s : string) : bool :=
  match s with
  | EmptyString => false
  | String a rest => bool_decide (a = ","%char) || includesComma rest
  end.

(** [image.includes(',') ? image.split(',')[1] : image]; a string with
    a comma has a piece at index 1. *)
Definition base64Data (image : string) : string :=
  if includesComma image then default image (splitComma image !! 1)
  else image.

Inductive RequestPart :=
  | InlinePart (mimeType : string) (data : string)
  | TextPart (text : string).

(** The [parts] array of the request: the image, if one is given, then
    the prompt.  [if (image)] fails for the empty string too. *)
Definition requestParts (prompt : string) (image : option string)
  : list RequestPart :=
  match image with
  | Some img =>
      if bool_decide (img = "") then [TextPart prompt]
      else [InlinePart "image/png" (base64Data img); TextPart prompt]
  | None => [TextPart prompt]
  end.

Record GenerateOptions := {
  opt_temperature : number;
  opt_image : option string;
  opt_mode : option GenerationMode;
  opt_aspectRatio : option string
}.

(** The argument of [client.models.generateContent]. *)
Record ContentRequest := {
  req_model : string;
  req_parts : list RequestPart;
  req_aspectRatio : string
}.

(** The part of the upstream response that [generateImage] reads. *)
Record InlineData := {
  inline_bytes : string;
  inline_mimeType : option string
}.

Record ResponsePart := {
  inline_data : option InlineData
}.

Record Candidate := {
  content_parts : option (list ResponsePart)
}.

Record ContentResponse := {
  candidates : option (list Candidate)
}.

(** What the upstream call does: it returns a response, throws an
    [Error] with a message, or throws another value, of which only
    [String(error)] is used. *)
Inductive Upstream :=
  | UpstreamReturns (r : ContentResponse)
  | UpstreamThrowsError (message : string)
  | UpstreamThrowsOther (asString : string).

(** The body of the [try] block after the upstream response arrived:
    the data URL, or the message of the [Error] it throws. *)
Definition extractImage (r : ContentResponse) : string + string :=
  match candidates r ≫= head with
  | None => inr "No candidate generated in response"
  | Some candidate =>
      match content_parts candidate
            ≫= List.find (λ part, bool_decide (is_Some (inline_data part))) with
      | Some {| inline_data := Some d |} =>
          let mime := match inline_mimeType d with
                      | Some t => if bool_decide (t = "") then "image/png" else t
                      | None => "image/png"
                      end in
          inl ("data:" +:+ mime +:+ ";base64," +:+ inline_bytes d)
      | _ => inr "No image data found in response"
      end
  end.

(** [generateImage(prompt, options)] on a client whose upstream call
    behaves as [upstream]. *)
Definition generateImage (upstream : ContentRequest → Upstream)
    (prompt : string) (options : GenerateOptions) : Outcome :=
  let request :=
    {| req_model := "gemini-2.5-flash-image";
       req_parts := requestParts prompt (opt_image options);
       req_aspectRatio := default "1:1" (opt_aspectRatio options) |} in
  match upstream request with
  | UpstreamReturns r =>
      match extractImage r with
      | inl url => Fulfilled url
      | inr message => Rejected (ThrownError ("Gemini API error: " +:+ message))
      end
  | UpstreamThrowsError message =>
      Rejected (ThrownError ("Gemini API error: " +:+ message))
  | UpstreamThrowsOther asString =>
      Rejected (ThrownError ("Gemini API error: " +:+ asString))
  end.

(** The whole of [processJob] for a job whose provider call settles at
    once: the store after it.  The handler has checked that the prompt
    of the request is a string. *)
Definition processJob (apiKey : option string) (cached : option GeminiClient)
    (upstream : ContentRequest → Upstream) (jobId : string)
    (request : GenerateRequest) (m : JobManager) : JobManager :=
  match (getGeminiClient apiKey cached).1 with
  | inl e => (processJob_start jobId (Some e) m).1
  | inr _ =>
      processJob_resume jobId
        (generateImage upstream (default "" (prompt request))
           {| opt_temperature := temperature request;
              opt_image := image request;
              opt_mode := mode request;
              opt_aspectRatio := None |})
        (processJob_start jobId None m).1
  end.

(** ** More invariants of the dispatcher *)

(** The data model of a job: an image only when 'complete', an error
    message only when 'error'. *)
Definition wellFormed (job : Job) : Prop :=
  match job_status job with
  | Pending | Generating => job_imageUrl job = None ∧ job_error job = None
  | Complete => is_Some (job_imageUrl job) ∧ job_error job = None
  | Error => job_imageUrl job = None ∧ is_Some (job_error job)
  end.

(** Every job is stored under its own identifier. *)
Definition keyed (m : JobManager) : Prop :=
  ∀ id job, getJob id m = Some job → job_id job = id.

(** The part of a job that no update of the dispatcher writes. *)
Definition identity (job : Job) : string * Z :=
  (job_id job, job_createdAt job).

(** The store after the synchronous part of [processJob] has run for
    each of [ids] with a client at hand. *)
Definition startAll (ids : list string) (m : JobManager) : JobManager :=
  foldl (λ acc id, (processJob_start id None acc).1) m ids.

Definition flightUnit (jobId : string) : Unit :=
  {| unit_jobId := jobId; unit_returned := false |}.

(** An event of [processJobs] itself during which [getGeminiClient()],
    if called, throws [t]; no other event. *)
Definition clientThrows (t : Thrown) (e : Event) : Prop :=
  match e with
  | EvRun client => client = Some t
  | EvSettle _ _ => True
  | EvFinally _ => True
  end.

(** ** More sample data *)

(** An upstream call that answers with one candidate: a text part, then
    an image part without a type. *)
Definition sampleUpstream (_ : ContentRequest) : Upstream :=
  UpstreamReturns
    {| candidates := Some
         [{| content_parts := Some
               [{| inline_data := None |};
                {| inline_data := Some {| inline_bytes := "AAAA";
                                          inline_mimeType := None |} |}] |}] |}.

Definition sampleOptions : GenerateOptions :=
  {| opt_temperature := Some 1%Z; opt_image := None; opt_mode := None;
     opt_aspectRatio := None |}.

(** * Properties *)

(** ** The job store *)

Section Sweep.
Context {V : Type} (createdAt : V → Z) (cutoff : Z).

Let visit (entry : string * V) (acc : gmap string V) : gmap string V :=
  if bool_decide (createdAt entry.2 < cutoff)%Z
  then delete entry.1 acc else acc.

Lemma sweep_visit_old (l : list (string * V)) (base : gmap string V) k v :
  (k, v) ∈ l → (createdAt v < cutoff)%Z → foldr visit base l !! k = None.
Proof.
  induction l as [|e l IH]; intros Hin Hold.
  - by apply elem_of_nil in Hin.
  - simpl. unfold visit at 1. apply elem_of_cons in Hin as [<-|Hin].
    + simpl. rewrite bool_decide_eq_true_2 by done. apply lookup_delete_eq.
    + case_bool_decide; [|by apply IH].
      destruct (decide (e.1 = k)) as [->|Hne].
      * apply lookup_delete_eq.
      * rewrite lookup_delete_ne by done. by apply IH.
Qed.

Lemma sweep_visit_fresh (l : list (string * V)) (base : gmap string V) k :
  (∀ v, (k, v) ∈ l → ¬ (createdAt v < cutoff)%Z) →
  foldr visit base l !! k = base !! k.
Proof.
  induction l as [|[k' v'] l IH]; intros Hfresh; [done|].
  simpl. unfold visit at 1. simpl.
  assert (foldr visit base l !! k = base !! k) as Htl.
  { apply IH. intros v Hv. apply Hfresh. by right. }
  case_bool_decide as Hold; [|done].
  destruct (decide (k' = k)) as [->|Hne].
  - exfalso. apply (Hfresh v'); [left|done].
  - by rewrite lookup_delete_ne.
Qed.

Lemma sweep_lookup (m : gmap string V) k :
  sweep createdAt cutoff m !! k =
  match m !! k with
  | Some v => if bool_decide (createdAt v < cutoff)%Z then None else Some v
  | None => None
  end.
Proof.
  unfold sweep. fold visit.
  destruct (m !! k) as [v|] eqn:Hk.
  - case_bool_decide as Hold.
    + apply sweep_visit_old with v; [|done]. by apply elem_of_map_to_list.
    + rewrite sweep_visit_fresh, Hk; [done|].
      intros v' Hv'. apply elem_of_map_to_list in Hv'. congruence.
  - rewrite sweep_visit_fresh, Hk; [done|].
    intros v' Hv'. apply elem_of_map_to_list in Hv'. congruence.
Qed.
End Sweep.

Lemma updateJob_other id id' updates m :
  id ≠ id' → getJob id' (updateJob id updates m) = getJob id' m.
Proof.
  intros Hne. unfold updateJob, getJob.
  destruct (jobs m !! id); [simpl|done]. by rewrite lookup_insert_ne.
Qed.

Lemma updateJob_same id updates m :
  getJob id (updateJob id updates m) =
  (λ job, mergeJob job updates) <$> getJob id m.
Proof.
  unfold updateJob, getJob.
  destruct (jobs m !! id) as [job|] eqn:Hid; simpl.
  - by rewrite lookup_insert_eq.
  - by rewrite Hid.
Qed.

Lemma updateJob_batches id updates m :
  batches (updateJob id updates m) = batches m.
Proof. unfold updateJob. by destruct (jobs m !! id). Qed.

(** C6. [cleanup] at time [now] with window [maxAgeMs] deletes every
    job and every batch created before [now - maxAgeMs]: [getJob] and
    [getBatch] no longer find them.  The entries created at the cutoff
    or later are still found, unchanged. *)
Theorem cleanup_reclaims (now maxAgeMs : Z) (m : JobManager) (id : string) :
  (∀ job, getJob id m = Some job →
     (job_createdAt job < now - maxAgeMs)%Z →
     getJob id (cleanup now maxAgeMs m) = None) ∧
  (∀ job, getJob id m = Some job →
     ¬ (job_createdAt job < now - maxAgeMs)%Z →
     getJob id (cleanup now maxAgeMs m) = Some job) ∧
  (∀ batch, getBatch id m = Some batch →
     (batch_createdAt batch < now - maxAgeMs)%Z →
     getBatch id (cleanup now maxAgeMs m) = None) ∧
  (∀ batch, getBatch id m = Some batch →
     ¬ (batch_createdAt batch < now - maxAgeMs)%Z →
     getBatch id (cleanup now maxAgeMs m) = Some batch) ∧
  (getJob id m = None → getJob id (cleanup now maxAgeMs m) = None) ∧
  (getBatch id m = None → getBatch id (cleanup now maxAgeMs m) = None).
Proof.
  unfold getJob, getBatch, cleanup; simpl.
  rewrite !sweep_lookup.
  repeat split; intros; repeat match goal with
    | H : _ !! _ = _ |- _ => rewrite H
    end; try done.
  all: try (by rewrite bool_decide_eq_true_2).
  all: by rewrite bool_decide_eq_false_2.
Qed.

Lemma cleanup_reclaims_witness :
  getJob "j1" (cleanup 4000 1000 sampleStore) = None ∧
  getBatch "b1" (cleanup 4000 1000 sampleStore) = getBatch "b1" sampleStore.
Proof.
  destruct (cleanup_reclaims 4000 1000 sampleStore "j1") as (Hold & _).
  destruct (cleanup_reclaims 4000 1000 sampleStore "b1") as (_ & _ & _ & Hfresh & _).
  split.
  - eapply Hold; [reflexivity|]. simpl. lia.
  - eapply Hfresh; [reflexivity|]. simpl. lia.
Defined.

(** C7 as stated fails: a job created at time [100] survives
    [cleanup 0] run at the same time [100], because the comparison of
    [createdAt] with the cutoff is strict. *)
Lemma cleanup_zero_same_instant_keeps :
  let '(id, m) := createJob "j1" 100 emptyManager in
  getJob id (cleanup 100 0 m) ≠ None.
Proof. vm_compute. discriminate. Qed.

(** C7, amended. A job created at time [t] is gone after [cleanup 0]
    run at a time [now] later than [t]; run at the very time [t], the
    sweep keeps the job. *)
Theorem cleanup_zero_after_creation (uuid : string) (t now : Z) (m : JobManager) :
  let '(id, m1) := createJob uuid t m in
  ((t < now)%Z → getJob id (cleanup now 0 m1) = None) ∧
  getJob id (cleanup t 0 m1) = getJob id m1 ∧
  is_Some (getJob id m1).
Proof.
  unfold createJob, getJob, cleanup; simpl.
  rewrite !sweep_lookup, !lookup_insert_eq; simpl.
  split_and!.
  - intros Hlt. rewrite bool_decide_eq_true_2; [done|lia].
  - rewrite bool_decide_eq_false_2; [done|lia].
  - by eexists.
Qed.

Lemma cleanup_zero_after_creation_witness :
  getJob "j1" (cleanup 101 0 (createJob "j1" 100 emptyManager).2) = None.
Proof.
  pose proof (cleanup_zero_after_creation "j1" 100 101 emptyManager) as H.
  simpl in H. destruct H as (H & _). apply H. lia.
Defined.

(** C8. [updateJob] on an identifier that the store does not hold
    returns the store as it was.  On an identifier that it holds, the
    job becomes the old job with the given fields written over it, all
    other jobs and all batches are as before. *)
Theorem updateJob_merges_or_ignores (id : string) (updates : JobUpdates)
    (m : JobManager) :
  (getJob id m = None → updateJob id updates m = m) ∧
  (∀ job, getJob id m = Some job →
     let job' := mergeJob job updates in
     getJob id (updateJob id updates m) = Some job' ∧
     job_id job' = default (job_id job) (upd_id updates) ∧
     job_status job' = default (job_status job) (upd_status updates) ∧
     job_imageUrl job' = default (job_imageUrl job) (upd_imageUrl updates) ∧
     job_error job' = default (job_error job) (upd_error updates) ∧
     job_createdAt job' = default (job_createdAt job) (upd_createdAt updates)) ∧
  (∀ id', id' ≠ id → getJob id' (updateJob id updates m) = getJob id' m) ∧
  batches (updateJob id updates m) = batches m.
Proof.
  split_and!.
  - unfold getJob, updateJob. by intros ->.
  - intros job Hjob. split.
    + by rewrite updateJob_same, Hjob.
    + destruct updates as [[?|] [?|] [?|] [?|] [?|]]; done.
  - intros id' Hne. by apply updateJob_other.
  - apply updateJob_batches.
Qed.

Lemma updateJob_merges_or_ignores_witness :
  updateJob "ghost" markGenerating sampleStore = sampleStore ∧
  job_status <$> getJob "j1" (updateJob "j1" markGenerating sampleStore)
    = Some Generating.
Proof.
  split.
  - apply (updateJob_merges_or_ignores "ghost" markGenerating sampleStore).
    reflexivity.
  - destruct (updateJob_merges_or_ignores "j1" markGenerating sampleStore)
      as (_ & Hheld & _).
    destruct (Hheld _ eq_refl) as (-> & _). reflexivity.
Defined.

(** C2 as stated fails: [updateJob] has no guard on the status of the
    job it finds; a job that is 'complete' goes back to 'generating'
    when an update says so. *)
Lemma updateJob_overwrites_terminal :
  ¬ (∀ id updates m job,
       getJob id m = Some job → terminal (job_status job) = true →
       getJob id (updateJob id updates m) = Some job).
Proof.
  intros Hfinal.
  pose (m := updateJob "j1" (markComplete "data:image/png;base64,AA") sampleStore).
  destruct (getJob "j1" m) as [job|] eqn:Hjob; [|by vm_compute in Hjob].
  assert (terminal (job_status job) = true) as Hterm.
  { vm_compute in Hjob. by injection Hjob as <-. }
  specialize (Hfinal "j1" markGenerating m job Hjob Hterm).
  rewrite updateJob_same, Hjob in Hfinal. simpl in Hfinal.
  injection Hfinal as Heq. apply (f_equal job_status) in Heq.
  simpl in Heq. rewrite <- Heq in Hterm. discriminate.
Qed.

(** ** The submit handler *)

Lemma promptRejected_short p :
  prompt_short p → promptRejected p = true.
Proof.
  destruct p as [s|]; simpl; [|done].
  intros [|(s' & [= <-] & Hlen)]; [done|].
  rewrite (bool_decide_eq_true_2 (String.length s < 3)) by done.
  apply orb_true_r.
Qed.

Lemma outOfRange_outside n lo hi :
  outside n lo hi → outOfRange n lo hi = true.
Proof.
  intros (z & -> & Hz). unfold outOfRange; simpl.
  destruct Hz.
  - by rewrite bool_decide_eq_true_2.
  - rewrite (bool_decide_eq_true_2 (hi < z)%Z) by done. apply orb_true_r.
Qed.

(** C5. A request whose prompt is missing or shorter than 3
    characters, or whose image count is a number outside [1,10], or
    whose concurrency is a number outside [1,5], is answered with an
    error body and status 400; the store is the one the handler found
    and no dispatch is started. *)
Theorem POST_invalid_leaves_store (randomUUID : nat → string) (dateNow : nat → Z)
    (client : option Thrown) (body : GenerateRequest) (m : JobManager) :
  prompt_short (prompt body) ∨ outside (imageCount body) 1 10
    ∨ outside (concurrency body) 1 5 →
  ∃ r, POST randomUUID dateNow client (Some body) m = Some r ∧
  (∃ msg, resp_body (response r) = ErrorBody msg) ∧
  (400 ≤ resp_status (response r) < 500)%Z ∧
  manager r = m ∧
  dispatched r = None ∧
  dispatcher r = None.
Proof.
  intros Hbad. unfold POST.
  assert (∀ msg, ∃ r, Some (badRequest msg m) = Some r ∧
            (∃ msg', resp_body (response r) = ErrorBody msg') ∧
            (400 ≤ resp_status (response r) < 500)%Z ∧
            manager r = m ∧ dispatched r = None ∧ dispatcher r = None) as Hrej.
  { intros msg. eexists. split; [done|]. simpl.
    split_and!; [by eexists|lia|lia|done|done|done]. }
  destruct (promptRejected (prompt body)) eqn:Hp; [apply Hrej|].
  destruct (outOfRange (imageCount body) 1 10) eqn:Hn; [apply Hrej|].
  destruct (outOfRange (concurrency body) 1 5) eqn:Hc; [apply Hrej|].
  exfalso. destruct Hbad as [H|[H|H]].
  - apply promptRejected_short in H. congruence.
  - apply outOfRange_outside in H. congruence.
  - apply outOfRange_outside in H. congruence.
Qed.

Lemma POST_invalid_leaves_store_witness :
  manager <$> POST sampleUUID sampleClock None
                (Some (sampleRequest (Some 11%Z) (Some 3%Z) (Some "a red fox")))
                sampleStore = Some sampleStore.
Proof.
  destruct (POST_invalid_leaves_store sampleUUID sampleClock None
              (sampleRequest (Some 11%Z) (Some 3%Z) (Some "a red fox"))
              sampleStore) as (r & Hr & _ & _ & Hm & _).
  - right; left. exists 11%Z. split; [reflexivity|lia].
  - rewrite Hr. simpl. by rewrite Hm.
Defined.

(** C10. A request without an image count (or with one that is not a
    number) passes the range check on the image count.  If its prompt
    and its concurrency pass theirs, the handler creates no job,
    creates the batch with an empty job list, starts the dispatcher on
    the empty list, which returns at once, and answers 200 with
    [jobIds = []]. *)
Theorem POST_missing_imageCount_accepted (randomUUID : nat → string)
    (dateNow : nat → Z) (client : option Thrown) (body : GenerateRequest)
    (m : JobManager) :
  imageCount body = None →
  promptRejected (prompt body) = false →
  outOfRange (concurrency body) 1 5 = false →
  ∃ r, POST randomUUID dateNow client (Some body) m = Some r ∧
  outOfRange (imageCount body) 1 10 = false ∧
  response r = {| resp_status := 200;
                  resp_body := GenerateBody (randomUUID 0) [] Pending |} ∧
  jobs (manager r) = jobs m ∧
  is_Some (getBatch (randomUUID 0) (manager r)) ∧
  dispatched r = Some ([], concurrency body) ∧
  (pc <$> dispatcher r) = Some Finished.
Proof.
  intros Hn Hp Hc. unfold POST. rewrite Hp, Hn, Hc. simpl.
  eexists. split; [done|]. simpl.
  split_and!; try done.
  unfold getBatch; simpl. rewrite lookup_insert_eq. by eexists.
Qed.

Lemma POST_missing_imageCount_accepted_witness :
  response <$> POST sampleUUID sampleClock None
                 (Some (sampleRequest None (Some 3%Z) (Some "a red fox")))
                 emptyManager
  = Some {| resp_status := 200; resp_body := GenerateBody "0" [] Pending |}.
Proof.
  destruct (POST_missing_imageCount_accepted sampleUUID sampleClock None
              (sampleRequest None (Some 3%Z) (Some "a red fox")) emptyManager)
    as (r & Hr & _ & Hresp & _); [reflexivity..|].
  rewrite Hr. simpl. by rewrite Hresp.
Defined.

(** ** The dispatcher: transitions *)

Lemma step_Step conc s e s' : step conc s e = Some s' → Step conc s e s'.
Proof.
  unfold step.
  destruct (pc s) as [| |[|]|] eqn:Hpc, e as [client|i o|i]; try done.
  - case_bool_decide as Hq; simpl.
    + intros [= <-]. apply Step_enter; [done|by left].
    + case_bool_decide as Ha; intros [= <-].
      * apply Step_enter; [done|by right].
      * by apply Step_leave.
  - destruct (mayAdmit conc s) eqn:Hadm.
    + destruct (queue s) as [|jobId rest] eqn:Hq.
      { unfold mayAdmit in Hadm. rewrite Hq in Hadm.
        rewrite bool_decide_eq_false_2 in Hadm by (by intros []).
        by rewrite andb_false_r in Hadm. }
      destruct (processJob_start jobId client (store s)) as [m returned] eqn:Hstart.
      intros [= <-]. by eapply Step_admit.
    + assert ((if bool_decide (active s ≠ [])
               then Some (with_pc s (AtAwait false))
               else Some (with_pc s AtOuter)) = Some s' → Step conc s (EvRun client) s')
        as Hgo.
      { case_bool_decide as Ha; intros [= <-].
        - by apply Step_await.
        - by apply Step_idle. }
      by destruct (queue s).
  - intros [= <-]. by apply Step_wake.
  - destruct (active s !! i) as [u|] eqn:Hi; [|done].
    destruct (unit_returned u) eqn:Hu; [done|].
    intros [= <-]. by eapply (Step_settle _ _ true).
  - destruct (active s !! i) as [u|] eqn:Hi; [|done].
    destruct (unit_returned u) eqn:Hu; [|done].
    intros [= <-]. by eapply (Step_finally _ _ true).
  - destruct (active s !! i) as [u|] eqn:Hi; [|done].
    destruct (unit_returned u) eqn:Hu; [done|].
    intros [= <-]. by eapply (Step_settle _ _ false).
  - destruct (active s !! i) as [u|] eqn:Hi; [|done].
    destruct (unit_returned u) eqn:Hu; [|done].
    intros [= <-]. by eapply (Step_finally _ _ false).
Qed.

(** A property that every transition preserves holds after every run. *)
Lemma run_preserves conc (P : Dispatcher → Prop) :
  (∀ s e s', P s → Step conc s e s' → P s') →
  ∀ es s s', P s → run conc es s = Some s' → P s'.
Proof.
  intros Hstep es. induction es as [|e es IH]; intros s s' Hs; simpl.
  - by intros [= <-].
  - destruct (step conc s e) as [s1|] eqn:He; [|done].
    apply IH. eapply Hstep; [done|]. by apply step_Step.
Qed.

Lemma run_app conc es1 es2 s :
  run conc (es1 ++ es2) s = run conc es1 s ≫= run conc es2.
Proof.
  revert s. induction es1 as [|e es1 IH]; intros s; simpl; [done|].
  destruct (step conc s e); simpl; [apply IH|done].
Qed.

(** ** The members of [active] in flight *)

Lemma pendingIds_snoc l u :
  pendingIds (l ++ [u]) =
  pendingIds l ++ (if unit_returned u then [] else [unit_jobId u]).
Proof.
  unfold pendingIds. rewrite filter_app, fmap_app. f_equal.
  rewrite filter_cons, filter_nil. by destruct (unit_returned u); case_decide.
Qed.

Lemma pendingIds_settle l i u :
  l !! i = Some u → unit_returned u = false →
  pendingIds l ≡ₚ unit_jobId u :: pendingIds (<[i := returnedUnit u]> l).
Proof.
  unfold pendingIds. revert i. induction l as [|v l IH]; intros [|i] Hi Hu;
    simpl in *; try done.
  - injection Hi as ->. rewrite filter_cons_True by done.
    by rewrite filter_cons_False by done.
  - rewrite !filter_cons. case_decide; simpl.
    + rewrite (IH i Hi Hu). apply Permutation_swap.
    + by apply IH.
Qed.

Lemma pendingIds_delete l i u :
  l !! i = Some u → unit_returned u = true →
  pendingIds (delete i l) = pendingIds l.
Proof.
  unfold pendingIds. revert i. induction l as [|v l IH]; intros [|i] Hi Hu;
    simpl in *; try done.
  - injection Hi as ->. rewrite filter_cons_False; [done|]. by rewrite Hu.
  - rewrite !filter_cons. case_decide; simpl; [f_equal|]; by eapply IH.
Qed.

Lemma pendingIds_length l : length (pendingIds l) ≤ length l.
Proof. unfold pendingIds. rewrite length_fmap. apply length_filter. Qed.

Lemma pendingIds_sublist l : pendingIds l `sublist_of` unit_jobId <$> l.
Proof. unfold pendingIds. apply fmap_sublist, sublist_filter. Qed.

(** ** What the writes of [processJob] do to the store *)

Lemma statusOf_updateJob_same id updates m st :
  upd_status updates = Some st →
  statusOf id (updateJob id updates m) = (λ _, st) <$> getJob id m.
Proof.
  intros Hst. unfold statusOf. rewrite updateJob_same.
  destruct (getJob id m); simpl; [|done]. by rewrite Hst.
Qed.

Lemma getJob_updateJob_None id id' updates m :
  getJob id' (updateJob id updates m) = None ↔ getJob id' m = None.
Proof.
  destruct (decide (id = id')) as [<-|Hne].
  - rewrite updateJob_same. by destruct (getJob id m).
  - by rewrite updateJob_other.
Qed.

Lemma processJob_start_other jobId client m id :
  jobId ≠ id →
  getJob id (processJob_start jobId client m).1 = getJob id m.
Proof.
  intros Hne. unfold processJob_start.
  destruct client; simpl; by rewrite !updateJob_other.
Qed.

Lemma processJob_start_batches jobId client m :
  batches (processJob_start jobId client m).1 = batches m.
Proof.
  unfold processJob_start. destruct client; simpl; by rewrite !updateJob_batches.
Qed.

Lemma processJob_start_None jobId client m id :
  getJob id (processJob_start jobId client m).1 = None ↔ getJob id m = None.
Proof.
  unfold processJob_start.
  destruct client; simpl; by rewrite !getJob_updateJob_None.
Qed.

(** After the synchronous part of [processJob] the job, if the store
    holds it, is 'generating' when the call is in flight and 'error'
    when the client could not be obtained. *)
Lemma processJob_start_status jobId client m :
  statusOf jobId (processJob_start jobId client m).1 =
  (λ _, match client with Some _ => Error | None => Generating end)
    <$> getJob jobId m.
Proof.
  unfold processJob_start. destruct client as [e|]; simpl.
  - rewrite (statusOf_updateJob_same _ _ _ Error) by done.
    rewrite updateJob_same. by destruct (getJob jobId m).
  - by rewrite (statusOf_updateJob_same _ _ _ Generating).
Qed.

Lemma processJob_start_returned jobId client m :
  (processJob_start jobId client m).2 = bool_decide (client ≠ None).
Proof. unfold processJob_start. by destruct client. Qed.

Lemma processJob_resume_other jobId o m id :
  jobId ≠ id → getJob id (processJob_resume jobId o m) = getJob id m.
Proof. intros Hne. destruct o; simpl; by rewrite updateJob_other. Qed.

Lemma processJob_resume_batches jobId o m :
  batches (processJob_resume jobId o m) = batches m.
Proof. destruct o; simpl; by rewrite updateJob_batches. Qed.

Lemma processJob_resume_None jobId o m id :
  getJob id (processJob_resume jobId o m) = None ↔ getJob id m = None.
Proof. destruct o; simpl; by rewrite getJob_updateJob_None. Qed.

Lemma processJob_resume_status jobId o m :
  statusOf jobId (processJob_resume jobId o m) =
  (λ _, match o with Fulfilled _ => Complete | Rejected _ => Error end)
    <$> getJob jobId m.
Proof.
  destruct o; simpl.
  - by rewrite (statusOf_updateJob_same _ _ _ Complete).
  - by rewrite (statusOf_updateJob_same _ _ _ Error).
Qed.

(** ** The dispatcher: invariants *)

(** From here on the two halves of [processJob] are used through the
    lemmas above. *)
Arguments processJob_start : simpl never.
Arguments processJob_resume : simpl never.
Arguments updateJob : simpl never.

Lemma isTerminal_ext m m' id :
  getJob id m' = getJob id m → isTerminal m' id = isTerminal m id.
Proof. unfold isTerminal, statusOf. by intros ->. Qed.

Lemma mayAdmit_limit conc s :
  mayAdmit conc s = true → S (length (active s)) ≤ limit conc.
Proof.
  unfold mayAdmit, lt_num, limit. intros [Hlt _]%andb_true_iff.
  destruct conc as [k|]; [|done]. apply bool_decide_eq_true_1 in Hlt. lia.
Qed.

Lemma pendingIds_settle_other l i u id :
  l !! i = Some u → unit_returned u = false → id ≠ unit_jobId u →
  id ∈ pendingIds l → id ∈ pendingIds (<[i := returnedUnit u]> l).
Proof.
  intros Hi Hu Hne Hin. rewrite (pendingIds_settle l i u Hi Hu) in Hin.
  apply elem_of_cons in Hin as [?|?]; done.
Qed.

Lemma pendingIds_settle_back l i u id :
  l !! i = Some u → unit_returned u = false →
  id ∈ pendingIds (<[i := returnedUnit u]> l) → id ∈ pendingIds l.
Proof.
  intros Hi Hu Hin. rewrite (pendingIds_settle l i u Hi Hu). by right.
Qed.

Lemma pendingIds_lookup l i u :
  l !! i = Some u → unit_returned u = false → unit_jobId u ∈ pendingIds l.
Proof. intros Hi Hu. rewrite (pendingIds_settle l i u Hi Hu). by left. Qed.

Lemma Inv_with_pc conc jobIds s p :
  Inv conc jobIds s →
  (p = AtAwait false → active s ≠ []) →
  (p = Finished → queue s = [] ∧ active s = []) →
  Inv conc jobIds (with_pc s p).
Proof. intros [] ??. by split. Qed.

Lemma Inv_init conc jobIds m : Inv conc jobIds (processJobs_init jobIds m).
Proof.
  split; simpl; try done.
  - lia.
  - exists []. split_and!; [done|by intros ? ?%elem_of_nil..].
Qed.

(** Replaces the two results of a call of [processJob_start] by their
    projections, and the second one by its value. *)
Ltac name_start H :=
  let Hm := fresh in
  let Hr := fresh in
  pose proof (f_equal fst H) as Hm;
  pose proof (f_equal snd H) as Hr;
  cbn [fst snd] in Hm, Hr; rewrite processJob_start_returned in Hr;
  clear H; destruct Hm, Hr.

Lemma Inv_step conc jobIds s e s' :
  Inv conc jobIds s → Step conc s e s' → Inv conc jobIds s'.
Proof.
  intros HI Hstep.
  destruct Hstep as [c Hpc Hne|c Hpc Hq Ha|c jobId rest m returned Hpc Hadm Hq Hstart
                    |c Hpc Hadm Ha|c Hpc Hadm Ha|c Hpc
                    |woken i o u Hpc Hi Hu|woken i u Hpc Hi Hu];
    try (by apply Inv_with_pc).
  - (* a job is admitted *)
    destruct HI as [Hcap (pre & Hpre & Hserved & Hact) _ _].
    name_start Hstart.
    split; simpl; try done.
    + rewrite length_app; simpl. apply mayAdmit_limit in Hadm. lia.
    + exists (pre ++ [jobId]). split_and!.
      * by rewrite Hpre, Hq, <- app_assoc.
      * intros id Hid. unfold served, inFlight; simpl. rewrite pendingIds_snoc; simpl.
        destruct (decide (id = jobId)) as [->|Hne].
        -- destruct c as [e|].
           ++ right. unfold isTerminal.
              rewrite processJob_start_status, processJob_start_None.
              destruct (getJob jobId (store s)); simpl; auto.
           ++ left. apply elem_of_app. right.
              rewrite bool_decide_eq_false_2 by (intros H; by apply H). by left.
        -- apply elem_of_app in Hid as [Hid|Hid%list_elem_of_singleton]; [|done].
           destruct (Hserved id Hid) as [Hin|[Hterm|Hnone]].
           ++ left. apply elem_of_app. by left.
           ++ right; left.
              by rewrite (isTerminal_ext (store s)) by by apply processJob_start_other.
           ++ right; right. by apply processJob_start_None.
      * intros u [Hu|Hu%list_elem_of_singleton]%elem_of_app.
        -- apply elem_of_app. left. by apply Hact.
        -- subst u. simpl. apply elem_of_app. right. by left.
  - (* a provider call settles *)
    destruct HI as [Hcap (pre & Hpre & Hserved & Hact) _ _].
    split; simpl; try done.
    + by rewrite length_insert.
    + exists pre. split_and!; [done|..].
      * intros id Hid. unfold served, inFlight; simpl.
        destruct (decide (id = unit_jobId u)) as [->|Hne].
        -- right. unfold isTerminal.
           rewrite processJob_resume_status, processJob_resume_None.
           destruct (getJob (unit_jobId u) (store s)); destruct o; simpl; auto.
        -- destruct (Hserved id Hid) as [Hin|[Hterm|Hnone]].
           ++ left. by apply pendingIds_settle_other.
           ++ right; left.
              by rewrite (isTerminal_ext (store s)) by by apply processJob_resume_other.
           ++ right; right. by apply processJob_resume_None.
      * intros v Hv. apply list_elem_of_lookup in Hv as [j Hj].
        destruct (decide (j = i)) as [->|Hji].
        -- rewrite list_lookup_insert_eq in Hj by by eapply lookup_lt_Some.
           injection Hj as <-. simpl. apply Hact. by eapply list_elem_of_lookup_2.
        -- rewrite list_lookup_insert_ne in Hj by done.
           apply Hact. by eapply list_elem_of_lookup_2.
    + intros _ Hnil. apply (f_equal length) in Hnil.
      rewrite length_insert in Hnil. apply lookup_lt_Some in Hi. simpl in Hnil. lia.
  - (* a finally callback runs *)
    destruct HI as [Hcap (pre & Hpre & Hserved & Hact) _ _].
    split; simpl; try done.
    + pose proof (sublist_length _ _ (sublist_delete (active s) i)). lia.
    + exists pre. split_and!; [done|..].
      * intros id Hid. unfold served, inFlight; simpl.
        rewrite (pendingIds_delete _ _ _ Hi Hu). by apply Hserved.
      * intros v Hv. apply Hact.
        eapply elem_of_sublist; [done|apply sublist_delete].
Qed.

Lemma Inv_run conc jobIds m es s :
  run conc es (processJobs_init jobIds m) = Some s → Inv conc jobIds s.
Proof.
  apply (run_preserves conc (Inv conc jobIds)).
  - intros ???. apply Inv_step.
  - apply Inv_init.
Qed.

(** No transition removes a job from the store. *)
Lemma Step_keeps_jobs conc s e s' id :
  Step conc s e s' →
  getJob id (store s') = None ↔ getJob id (store s) = None.
Proof.
  destruct 1 as [| |c jobId rest m returned Hpc Hadm Hq Hstart| | | | |]; simpl;
    try done.
  - name_start Hstart.
    apply processJob_start_None.
  - apply processJob_resume_None.
Qed.

Lemma Step_keeps_batches conc s e s' :
  Step conc s e s' → batches (store s') = batches (store s).
Proof.
  destruct 1 as [| |c jobId rest m returned Hpc Hadm Hq Hstart| | | | |]; simpl;
    try done.
  - name_start Hstart.
    apply processJob_start_batches.
  - apply processJob_resume_batches.
Qed.

Lemma run_keeps_jobs conc (ids : list string) es s s' :
  (∀ id, id ∈ ids → is_Some (getJob id (store s))) →
  run conc es s = Some s' →
  ∀ id, id ∈ ids → is_Some (getJob id (store s')).
Proof.
  apply (run_preserves conc
           (λ s, ∀ id, id ∈ ids → is_Some (getJob id (store s)))).
  clear. intros s e s' Hs Hstep id Hid.
  apply not_eq_None_Some. rewrite (Step_keeps_jobs _ _ _ _ id Hstep).
  apply not_eq_None_Some. by apply Hs.
Qed.

Lemma GenInv_step conc jobIds s e s' :
  GenInv jobIds s → Step conc s e s' → GenInv jobIds s'.
Proof.
  intros HG Hstep.
  destruct Hstep as [| |c jobId rest m returned Hpc Hadm Hq Hstart| | |
                    |woken i o u Hpc Hi Hu|woken i u Hpc Hi Hu];
    try done.
  - name_start Hstart. intros id Hid. unfold inFlight, isGenerating; simpl.
    rewrite pendingIds_snoc; simpl. intros Hgen%bool_decide_eq_true_1.
    apply elem_of_app.
    destruct (decide (id = jobId)) as [->|Hne].
    + right. rewrite processJob_start_status in Hgen.
      destruct c; [by destruct (getJob jobId (store s))|].
      rewrite bool_decide_eq_false_2 by (intros H; by apply H). by left.
    + left. apply HG; [done|]. apply bool_decide_eq_true_2.
      unfold statusOf in *. by rewrite processJob_start_other in Hgen.
  - intros id Hid. unfold inFlight, isGenerating; simpl.
    intros Hgen%bool_decide_eq_true_1.
    destruct (decide (id = unit_jobId u)) as [->|Hne].
    + rewrite processJob_resume_status in Hgen.
      by destruct (getJob (unit_jobId u) (store s)), o.
    + apply pendingIds_settle_other; [done..|].
      apply HG; [done|]. apply bool_decide_eq_true_2.
      unfold statusOf in *. by rewrite processJob_resume_other in Hgen.
  - intros id Hid. unfold inFlight; simpl.
    rewrite (pendingIds_delete _ _ _ Hi Hu). by apply HG.
Qed.

Lemma unit_ids_settle (l : list Unit) i u :
  l !! i = Some u →
  unit_jobId <$> <[i := returnedUnit u]> l = unit_jobId <$> l.
Proof.
  intros Hi. rewrite list_fmap_insert. apply list_insert_id.
  by rewrite list_lookup_fmap, Hi.
Qed.

Lemma Fresh_step conc s e s' : Fresh s → Step conc s e s' → Fresh s'.
Proof.
  intros [Hnd Hqueue Hflight] Hstep.
  destruct Hstep as [| |c jobId rest m returned Hpc Hadm Hq Hstart| | |
                    |woken i o u Hpc Hi Hu|woken i u Hpc Hi Hu];
    try (by split).
  - name_start Hstart. rewrite Hq in Hnd, Hqueue.
    pose proof Hnd as (Hnd1 & Hdisj & [Hhd Hnd2]%NoDup_cons)%NoDup_app.
    split; simpl.
    + by rewrite fmap_app, <- app_assoc.
    + intros id Hid.
      rewrite (isTerminal_ext (store s)).
      * apply Hqueue. by right.
      * apply processJob_start_other. by intros ->.
    + intros id. unfold inFlight; simpl. rewrite pendingIds_snoc; simpl.
      intros [Hid|Hid]%elem_of_app.
      * rewrite (isTerminal_ext (store s)); [by apply Hflight|].
        apply processJob_start_other. intros ->.
        apply (Hdisj id); [|by left].
        apply (elem_of_sublist _ _ _ Hid), pendingIds_sublist.
      * destruct c; [by apply elem_of_nil in Hid|].
        rewrite bool_decide_eq_false_2 in Hid by (intros H; by apply H).
        apply list_elem_of_singleton in Hid as ->.
        unfold isTerminal. rewrite processJob_start_status.
        by destruct (getJob jobId (store s)).
  - assert (unit_jobId u ∈ unit_jobId <$> active s) as Hu_in.
    { apply list_elem_of_fmap_2. by eapply list_elem_of_lookup_2. }
    pose proof Hnd as (Hnd1 & Hdisj & Hnd2)%NoDup_app.
    assert (NoDup (unit_jobId u :: pendingIds (<[i := returnedUnit u]> (active s))))
      as [Hnot _]%NoDup_cons.
    { rewrite <- (pendingIds_settle _ _ _ Hi Hu).
      apply (sublist_NoDup _ _ Hnd1), pendingIds_sublist. }
    split; simpl.
    + by rewrite unit_ids_settle.
    + intros id Hid.
      rewrite (isTerminal_ext (store s)); [by apply Hqueue|].
      apply processJob_resume_other. intros <-. by apply (Hdisj (unit_jobId u)).
    + intros id. unfold inFlight; simpl. intros Hid.
      rewrite (isTerminal_ext (store s)).
      * apply Hflight. by eapply pendingIds_settle_back.
      * apply processJob_resume_other. by intros <-.
  - split; simpl; [|done|].
    + apply (sublist_NoDup _ _ Hnd).
      apply sublist_app; [|done]. apply fmap_sublist, sublist_delete.
    + intros id. unfold inFlight; simpl.
      rewrite (pendingIds_delete _ _ _ Hi Hu). apply Hflight.
Qed.

Lemma Fresh_init jobIds m :
  NoDup jobIds → (∀ id, id ∈ jobIds → isTerminal m id = false) →
  Fresh (processJobs_init jobIds m).
Proof.
  intros Hnd Hm. split; simpl; [done|done|].
  by intros id ?%elem_of_nil.
Qed.

(** A transition writes to no job that is terminal. *)
Lemma Fresh_step_final conc s e s' id :
  Fresh s → Step conc s e s' → isTerminal (store s) id = true →
  getJob id (store s') = getJob id (store s).
Proof.
  intros [Hnd Hqueue Hflight] Hstep Hterm.
  destruct Hstep as [| |c jobId rest m returned Hpc Hadm Hq Hstart| | |
                    |woken i o u Hpc Hi Hu|woken i u Hpc Hi Hu];
    try done; simpl.
  - name_start Hstart. apply processJob_start_other. intros ->.
    rewrite Hqueue in Hterm; [done|]. rewrite Hq. by left.
  - apply processJob_resume_other. intros <-.
    rewrite Hflight in Hterm; [done|]. by apply (pendingIds_lookup _ i).
Qed.

Lemma Fresh_run_final conc es s s' id :
  Fresh s → run conc es s = Some s' → isTerminal (store s) id = true →
  getJob id (store s') = getJob id (store s).
Proof.
  revert s. induction es as [|e es IH]; intros s HF; simpl.
  - by intros [= <-].
  - destruct (step conc s e) as [s1|] eqn:He; [|done].
    apply step_Step in He. intros Hrun Hterm.
    pose proof (Fresh_step_final _ _ _ _ id HF He Hterm) as H1.
    rewrite <- H1. apply IH; [by eapply Fresh_step|done|].
    by rewrite (isTerminal_ext (store s)).
Qed.

(** ** The dispatcher: progress and termination *)

Lemma weight_step (k : Z) s e s' :
  (1 ≤ k)%Z → Step (Some k) s e s' → weight s' < weight s.
Proof.
  intros Hk Hstep. unfold weight, inFlight.
  destruct Hstep as [c Hpc Hne|c Hpc Hq Ha|c jobId rest m returned Hpc Hadm Hq Hstart
                    |c Hpc Hadm Ha|c Hpc Hadm Ha|c Hpc
                    |woken i o u Hpc Hi Hu|woken i u Hpc Hi Hu];
    simpl; rewrite Hpc.
  - destruct Hne.
    + rewrite (bool_decide_eq_true_2 (queue s ≠ [])) by done. simpl. lia.
    + rewrite (bool_decide_eq_true_2 (active s ≠ [])) by done.
      rewrite orb_true_r. lia.
  - rewrite Hq, Ha. simpl. lia.
  - rewrite Hq, length_app, pendingIds_snoc, length_app. simpl.
    destruct returned; simpl; lia.
  - lia.
  - unfold mayAdmit in Hadm. rewrite Ha in Hadm |- *. simpl in Hadm.
    rewrite (bool_decide_eq_true_2 (0 < k)%Z) in Hadm by lia. simpl in Hadm.
    rewrite Hadm. simpl. lia.
  - case_match; lia.
  - rewrite length_insert.
    pose proof (Permutation_length (pendingIds_settle _ _ _ Hi Hu)) as Hlen.
    simpl in Hlen. rewrite Hlen. lia.
  - rewrite (pendingIds_delete _ _ _ Hi Hu).
    pose proof (length_delete (active s) i (mk_is_Some _ _ Hi)) as Hlen.
    apply lookup_lt_Some in Hi. destruct woken; lia.
Qed.

Lemma run_weight (k : Z) es s s' :
  (1 ≤ k)%Z → run (Some k) es s = Some s' →
  length es + weight s' ≤ weight s.
Proof.
  intros Hk. revert s. induction es as [|e es IH]; intros s; simpl.
  - intros [= <-]. lia.
  - destruct (step (Some k) s e) as [s1|] eqn:He; [|done].
    intros Hrun%IH. apply step_Step, (weight_step k) in He; [lia|done].
Qed.

Lemma weight_init jobIds m :
  weight (processJobs_init jobIds m) ≤ 9 * length jobIds + 5.
Proof. unfold weight; simpl. case_match; lia. Qed.

(** The scheduler [nextEvent] only proposes events that can happen, and
    it proposes one as long as [processJobs] has not returned. *)
Lemma nextEvent_enabled conc jobIds o s e :
  Inv conc jobIds s → nextEvent o s = Some e →
  ∃ s', step conc s e = Some s'.
Proof.
  intros HI. unfold nextEvent, step.
  destruct (pc s) as [| |[|]|] eqn:Hpc.
  - intros [= <-]. case_match; by eexists.
  - intros [= <-]. repeat case_match; by eexists.
  - intros [= <-]. by eexists.
  - destruct (active s) as [|u l] eqn:Ha; [done|].
    destruct (unit_returned u) eqn:Hu; intros [= <-]; simpl; rewrite Hu;
      by eexists.
  - done.
Qed.

Lemma nextEvent_None conc jobIds o s :
  Inv conc jobIds s → nextEvent o s = None → pc s = Finished.
Proof.
  intros HI. unfold nextEvent.
  destruct (pc s) as [| |[|]|] eqn:Hpc; try done.
  destruct (active s) as [|u l] eqn:Ha.
  - by destruct (inv_await _ _ _ HI Hpc).
  - by destruct (unit_returned u).
Qed.

Lemma progress conc jobIds s :
  Inv conc jobIds s → pc s ≠ Finished → ∃ e s', step conc s e = Some s'.
Proof.
  intros HI Hpc.
  destruct (nextEvent (Fulfilled "") s) as [e|] eqn:He.
  - exists e. by eapply nextEvent_enabled.
  - by apply (nextEvent_None conc jobIds) in He.
Qed.

Lemma drive_finishes (k : Z) jobIds o fuel s :
  (1 ≤ k)%Z → Inv (Some k) jobIds s → weight s ≤ fuel →
  ∃ es s', drive (Some k) o fuel s = Some s' ∧ run (Some k) es s = Some s'
           ∧ pc s' = Finished.
Proof.
  intros Hk. revert s. induction fuel as [|fuel IH]; intros s HI Hw.
  - destruct (nextEvent o s) as [e|] eqn:He.
    + destruct (nextEvent_enabled _ _ _ _ _ HI He) as [s1 Hs1].
      apply step_Step, (weight_step k) in Hs1; [lia|done].
    + exists [], s. simpl. rewrite He.
      split_and!; [done..|]. by eapply nextEvent_None.
  - simpl. destruct (nextEvent o s) as [e|] eqn:He.
    + destruct (nextEvent_enabled _ _ _ _ _ HI He) as [s1 Hs1].
      rewrite Hs1. pose proof Hs1 as HS%step_Step.
      destruct (IH s1) as (es & s' & Hd & Hr & Hfin).
      * by eapply Inv_step.
      * apply (weight_step k) in HS; [lia|done].
      * exists (e :: es), s'. simpl. by rewrite Hs1.
    + exists [], s. split_and!; [done..|]. by eapply nextEvent_None.
Qed.

(** When [processJobs] has returned, every job of the list that the
    store holds is terminal. *)
Lemma Inv_finished_terminal conc jobIds s id :
  Inv conc jobIds s → pc s = Finished → id ∈ jobIds →
  is_Some (getJob id (store s)) → isTerminal (store s) id = true.
Proof.
  intros [_ (pre & Hpre & Hserved & _) _ Hfin] Hpc Hid Hsome.
  destruct (Hfin Hpc) as [Hq Ha].
  rewrite Hq, app_nil_r in Hpre. subst pre.
  destruct (Hserved id Hid) as [Hin|[?|Hnone]]; [|done|].
  - unfold inFlight in Hin. rewrite Ha in Hin. by apply elem_of_nil in Hin.
  - rewrite Hnone in Hsome. by destruct Hsome.
Qed.

(** ** The dispatcher: the properties of the specification *)

Lemma check_ids (P : string → Prop) `{∀ id, Decision (P id)} (l : list string) :
  bool_decide (Forall P l) = true → ∀ id, id ∈ l → P id.
Proof. intros HP%bool_decide_eq_true_1. by apply Forall_forall. Qed.

Lemma generatingJobs_length jobIds s :
  GenInv jobIds s →
  length (generatingJobs jobIds (store s)) ≤ length (inFlight s).
Proof.
  intros HG. apply submseteq_length, NoDup_submseteq.
  - apply NoDup_filter, NoDup_remove_dups.
  - intros id [Hgen Hid]%list_elem_of_filter.
    apply HG; [by apply elem_of_remove_dups|exact Hgen].
Qed.

(** C1. Let [processJobs] be started with limit [k] on a list of jobs
    none of which is 'generating'.  In every state that it reaches, the
    set [active] has at most [k] members, and the jobs of the list that
    are 'generating' are no more than the provider calls in flight,
    hence at most [k] as well (none at all when [k] is not positive),
    whatever the order and the results of the provider calls. *)
Theorem processJobs_concurrency_cap (k : Z) (jobIds : list string)
    (m : JobManager) (es : list Event) (s : Dispatcher) :
  (∀ id, id ∈ jobIds → isGenerating m id = false) →
  run (Some k) es (processJobs_init jobIds m) = Some s →
  (Z.of_nat (length (active s)) ≤ Z.max 0 k)%Z ∧
  length (generatingJobs jobIds (store s)) ≤ length (inFlight s) ∧
  length (inFlight s) ≤ length (active s) ∧
  (Z.of_nat (length (generatingJobs jobIds (store s))) ≤ Z.max 0 k)%Z.
Proof.
  intros Hm Hrun.
  pose proof (inv_cap _ _ _ (Inv_run _ _ _ _ _ Hrun)) as Hcap. simpl in Hcap.
  assert (GenInv jobIds s) as HG.
  { revert Hrun. apply (run_preserves (Some k) (GenInv jobIds)).
    - intros ???. apply GenInv_step.
    - intros id Hid. simpl. by rewrite Hm. }
  apply generatingJobs_length in HG.
  pose proof (pendingIds_length (active s)) as Hfl. fold (inFlight s) in Hfl.
  split_and!; [lia|done|done|lia].
Qed.

Lemma processJobs_concurrency_cap_witness :
  let s := default (processJobs_init [] emptyManager)
             (run (Some 2%Z) sampleRun
                (processJobs_init (sampleBatch 3).1 (sampleBatch 3).2)) in
  length (generatingJobs (sampleBatch 3).1 (store s)) = 2 ∧
  (Z.of_nat (length (generatingJobs (sampleBatch 3).1 (store s))) ≤ Z.max 0 2)%Z.
Proof.
  split; [by vm_compute|].
  refine (proj2 (proj2 (proj2
    (processJobs_concurrency_cap 2 (sampleBatch 3).1 (sampleBatch 3).2
       sampleRun _ _ _)))).
  - apply (check_ids (λ id, isGenerating _ id = false)). by vm_compute.
  - by vm_compute.
Defined.

(** C2, amended. [updateJob] writes the fields it is given whatever the
    status of the job.  The dispatcher, however, started on distinct
    jobs none of which is terminal, never writes to a job after the
    write that made it 'complete' or 'error': from the state in which a
    job is terminal on, the store holds the same record for it. *)
Theorem dispatcher_keeps_terminal_jobs (conc : number) (jobIds : list string)
    (m : JobManager) (es es' : list Event) (s s' : Dispatcher) (id : string) :
  NoDup jobIds →
  (∀ j, j ∈ jobIds → isTerminal m j = false) →
  run conc es (processJobs_init jobIds m) = Some s →
  run conc es' s = Some s' →
  isTerminal (store s) id = true →
  getJob id (store s') = getJob id (store s).
Proof.
  intros Hnd Hm Hrun Hrun' Hterm.
  apply (Fresh_run_final conc es'); [|done..].
  revert Hrun. apply (run_preserves conc Fresh).
  - intros ???. apply Fresh_step.
  - by apply Fresh_init.
Qed.

Lemma dispatcher_keeps_terminal_jobs_witness :
  let init := processJobs_init (sampleBatch 3).1 (sampleBatch 3).2 in
  let s := default init (run (Some 2%Z) sampleRunLaterFirst init) in
  let s' := default init
              (run (Some 2%Z) [EvSettle 0 (Rejected (ThrownError "quota exceeded"))] s) in
  statusOf "1" (store s) = Some Complete ∧
  statusOf "0" (store s') = Some Error ∧
  getJob "1" (store s') = getJob "1" (store s).
Proof.
  split_and!; [by vm_compute..|].
  apply (dispatcher_keeps_terminal_jobs (Some 2%Z) (sampleBatch 3).1
           (sampleBatch 3).2 sampleRunLaterFirst
           [EvSettle 0 (Rejected (ThrownError "quota exceeded"))]).
  - apply (bool_decide_unpack _). by vm_compute.
  - apply (check_ids (λ id, isTerminal _ id = false)). by vm_compute.
  - by vm_compute.
  - by vm_compute.
  - by vm_compute.
Defined.

(** C3. Let [processJobs] be started with a limit of at least 1 on
    jobs that the store holds.  Every run is shorter than a bound fixed
    by the number of jobs; in every state reached before the return of
    [processJobs] some event can happen (the run goes on as long as the
    provider calls settle); and when [processJobs] has returned the
    queue and [active] are empty and every job of the list is
    'complete' or 'error'.  In particular the run in which the calls
    settle one after the other, each with the same outcome, ends within
    the bound. *)
Theorem processJobs_completes (k : Z) (jobIds : list string) (m : JobManager) :
  (1 ≤ k)%Z →
  (∀ id, id ∈ jobIds → is_Some (getJob id m)) →
  let init := processJobs_init jobIds m in
  let bound := 9 * length jobIds + 5 in
  (∀ es s, run (Some k) es init = Some s →
     length es ≤ bound ∧
     (pc s ≠ Finished → ∃ e s', step (Some k) s e = Some s') ∧
     (pc s = Finished →
        queue s = [] ∧ active s = [] ∧
        ∀ id, id ∈ jobIds → isTerminal (store s) id = true)) ∧
  (∀ o, ∃ es s, drive (Some k) o bound init = Some s ∧
                run (Some k) es init = Some s ∧ pc s = Finished).
Proof.
  intros Hk Hm init bound. split.
  - intros es s Hrun.
    pose proof (Inv_run _ _ _ _ _ Hrun) as HI.
    split_and!.
    + pose proof (run_weight _ _ _ _ Hk Hrun).
      pose proof (weight_init jobIds m). unfold bound, init in *. lia.
    + by apply (progress _ jobIds).
    + intros Hpc. destruct (inv_finished _ _ _ HI Hpc) as [Hq Ha].
      split_and!; [done..|]. intros id Hid.
      apply (Inv_finished_terminal (Some k) jobIds); [done..|].
      by apply (run_keeps_jobs (Some k) jobIds es init).
  - intros o. apply (drive_finishes k jobIds); [done|apply Inv_init|].
    apply weight_init.
Qed.

Lemma processJobs_completes_witness :
  ∃ s, drive (Some 2%Z) (Fulfilled "data:image/png;base64,AA") 32
         (processJobs_init (sampleBatch 3).1 (sampleBatch 3).2) = Some s ∧
       pc s = Finished ∧
       isTerminal (store s) "2" = true.
Proof.
  destruct (processJobs_completes 2 (sampleBatch 3).1 (sampleBatch 3).2)
    as [Hall Hdrive].
  - lia.
  - apply (check_ids (λ id, is_Some (getJob id _))). by vm_compute.
  - destruct (Hdrive (Fulfilled "data:image/png;base64,AA"))
      as (es & s & Hd & Hr & Hfin).
    exists s. split_and!; [exact Hd|exact Hfin|].
    apply (Hall es s Hr); [exact Hfin|].
    apply (bool_decide_unpack _). by vm_compute.
Defined.

(** ** The dispatcher: the record of a run *)

Lemma getJob_processJob_start jobId client m :
  getJob jobId (processJob_start jobId client m).1 =
  (λ job, match client with
          | Some t => mergeJob (mergeJob job markGenerating) (markError t)
          | None => mergeJob job markGenerating
          end) <$> getJob jobId m.
Proof.
  unfold processJob_start. destruct client as [t|]; cbn [fst].
  - rewrite !updateJob_same. by destruct (getJob jobId m).
  - by rewrite updateJob_same.
Qed.

Lemma getJob_processJob_resume jobId o m :
  getJob jobId (processJob_resume jobId o m) =
  (λ job, mergeJob job match o with
                       | Fulfilled url => markComplete url
                       | Rejected t => markError t
                       end) <$> getJob jobId m.
Proof. unfold processJob_resume. destruct o; by rewrite updateJob_same. Qed.

(** The three kinds of transition: one that only moves [processJobs]
    along or removes a returned member from [active]; an admission; the
    settlement of a provider call. *)
Lemma Step_cases conc s e s' :
  Step conc s e s' →
  (store s' = store s ∧ queue s' = queue s ∧ inFlight s' = inFlight s ∧
   (∀ u, u ∈ active s' → u ∈ active s) ∧
   admits conc s e = None ∧ settles conc s e = None) ∨
  (∃ client jobId rest,
     e = EvRun client ∧ queue s = jobId :: rest ∧ queue s' = rest ∧
     store s' = (processJob_start jobId client (store s)).1 ∧
     active s' = active s ++ [admittedUnit client jobId] ∧
     admits conc s e = Some jobId ∧
     settles conc s e = match client with
                        | Some t => Some (jobId, Rejected t)
                        | None => None
                        end) ∨
  (∃ i o u,
     e = EvSettle i o ∧ active s !! i = Some u ∧ unit_returned u = false ∧
     store s' = processJob_resume (unit_jobId u) o (store s) ∧
     queue s' = queue s ∧ active s' = <[i := returnedUnit u]> (active s) ∧
     admits conc s e = None ∧ settles conc s e = Some (unit_jobId u, o)).
Proof.
  intros Hstep. unfold settles, admits.
  destruct Hstep as [c Hpc Hne|c Hpc Hq Ha|c jobId rest m returned Hpc Hadm Hq Hstart
                    |c Hpc Hadm Ha|c Hpc Hadm Ha|c Hpc
                    |woken i o u Hpc Hi Hu|woken i u Hpc Hi Hu];
    rewrite Hpc.
  - left. by destruct c.
  - left. by destruct c.
  - right; left. exists c, jobId, rest. name_start Hstart. rewrite Hadm, Hq.
    split_and!; try done; by destruct c.
  - left. rewrite Hadm. by destruct c.
  - left. rewrite Hadm. by destruct c.
  - left. by destruct c.
  - right; right. exists i, o, u. rewrite Hi. by destruct woken.
  - left. split_and!;
      [done|done
      |unfold inFlight; simpl; by apply (pendingIds_delete _ i u)
      |simpl; intros v Hv; eapply elem_of_sublist; [done|apply sublist_delete]
      |by destruct woken|by destruct woken].
Qed.

Lemma run_snoc conc es e s0 s' :
  run conc (es ++ [e]) s0 = Some s' ↔
  ∃ s, run conc es s0 = Some s ∧ step conc s e = Some s'.
Proof.
  rewrite run_app. split.
  - destruct (run conc es s0) as [s|]; simpl; [|done].
    destruct (step conc s e) as [s1|] eqn:He; [|done].
    intros [= <-]. by exists s.
  - intros (s & -> & He). simpl. by rewrite He.
Qed.

Lemma admitted_snoc conc es e s0 s s' :
  run conc es s0 = Some s → step conc s e = Some s' →
  admitted conc (es ++ [e]) s0
  = admitted conc es s0 ++ option_list (admits conc s e).
Proof.
  revert s0. induction es as [|e0 es IH]; intros s0; simpl.
  - intros [= <-] ->. by destruct (admits conc s0 e).
  - destruct (step conc s0 e0) as [s1|]; [|done]. intros Hrun He.
    rewrite (IH s1 Hrun He). by destruct (admits conc s0 e0).
Qed.

Lemma verdicts_snoc conc es e s0 s s' :
  run conc es s0 = Some s → step conc s e = Some s' →
  verdicts conc (es ++ [e]) s0
  = verdicts conc es s0 ++ option_list (settles conc s e).
Proof.
  revert s0. induction es as [|e0 es IH]; intros s0; simpl.
  - intros [= <-] ->. by destruct (settles conc s0 e).
  - destruct (step conc s0 e0) as [s1|]; [|done]. intros Hrun He.
    rewrite (IH s1 Hrun He). by destruct (settles conc s0 e0).
Qed.

(** Induction over a run, one event at its end at a time. *)
Lemma run_log_ind conc (P : list Event → Dispatcher → Prop) s0 :
  P [] s0 →
  (∀ es s e s', run conc es s0 = Some s → P es s → step conc s e = Some s' →
                P (es ++ [e]) s') →
  ∀ es s, run conc es s0 = Some s → P es s.
Proof.
  intros H0 Hstep es. induction es as [|e es IH] using rev_ind; intros s.
  - by intros [= <-].
  - intros (s1 & Hrun & He)%run_snoc.
    apply (Hstep es s1 e s); [done|by apply IH|done].
Qed.

Lemma shows_started t job :
  shows (Rejected t) (mergeJob (mergeJob job markGenerating) (markError t)).
Proof. done. Qed.

Lemma shows_settled o job :
  shows o (mergeJob job match o with
                        | Fulfilled url => markComplete url
                        | Rejected t => markError t
                        end).
Proof. by destruct o. Qed.

(** Every record of a job of the list is accounted for. *)
Lemma accounted_run conc jobIds m es s :
  run conc es (processJobs_init jobIds m) = Some s →
  ∀ id job, id ∈ jobIds → getJob id (store s) = Some job →
    accounted m (verdicts conc es (processJobs_init jobIds m)) s id job.
Proof.
  revert es s.
  apply (run_log_ind conc (λ es s,
    ∀ id job, id ∈ jobIds → getJob id (store s) = Some job →
      accounted m (verdicts conc es (processJobs_init jobIds m)) s id job)).
  - intros id job Hid Hjob. left. by split.
  - intros es s e s' Hrun IH He id job Hid.
    rewrite (verdicts_snoc _ _ _ _ _ _ Hrun He).
    assert (∀ job0, accounted m (verdicts conc es (processJobs_init jobIds m))
                      s id job0 →
              queue s' = queue s → (∀ x, x ∈ inFlight s → x ∈ inFlight s') →
              accounted m (verdicts conc es (processJobs_init jobIds m)
                           ++ option_list (settles conc s e)) s' id job0)
      as Hkeep.
    { intros job0 [[Hq Hm]|[[Hfl Hst]|(o & Ho & Hshow)]] Hqueue Hflight.
      - left. by rewrite Hqueue.
      - right; left. split; [by apply Hflight|done].
      - right; right. exists o. split; [|done]. apply elem_of_app. by left. }
    destruct (Step_cases _ _ _ _ (step_Step _ _ _ _ He))
      as [(Hst & Hq & Hfl & _ & _ & Hset)
         |[(client & jobId & rest & -> & Hq & Hq' & Hst & Ha & _ & Hset)
          |(i & o & u & -> & Hi & Hu & Hst & Hq & Ha & _ & Hset)]].
    + rewrite Hst. intros Hjob. apply Hkeep; [by apply IH|done|].
      intros x. by rewrite Hfl.
    + rewrite Hst, Hset. destruct (decide (jobId = id)) as [->|Hne].
      * rewrite getJob_processJob_start.
        destruct (getJob id (store s)) as [job0|]; [|done]. intros [= <-].
        destruct client as [t|].
        -- right; right. exists (Rejected t). split; [|apply shows_started].
           apply elem_of_app. right. by left.
        -- right; left. split; [|done]. unfold inFlight. rewrite Ha.
           rewrite pendingIds_snoc. apply elem_of_app. right. by left.
      * rewrite processJob_start_other by done. intros Hjob.
        destruct (IH id job Hid Hjob) as [[Hin Hm]|[[Hfl Hs]|(o & Ho & Hshow)]].
        -- left. split; [|done]. rewrite Hq'. rewrite Hq in Hin.
           apply elem_of_cons in Hin as [?|?]; done.
        -- right; left. split; [|done]. unfold inFlight in *. rewrite Ha.
           rewrite pendingIds_snoc. apply elem_of_app. by left.
        -- right; right. exists o. split; [|done]. apply elem_of_app. by left.
    + rewrite Hst, Hset. destruct (decide (unit_jobId u = id)) as [<-|Hne].
      * rewrite getJob_processJob_resume.
        destruct (getJob (unit_jobId u) (store s)) as [job0|]; [|done].
        intros [= <-]. right; right. exists o. split; [|apply shows_settled].
        apply elem_of_app. right. by left.
      * rewrite processJob_resume_other by done. intros Hjob.
        destruct (IH id job Hid Hjob) as [[Hin Hm]|[[Hfl Hs]|(o' & Ho & Hshow)]].
        -- left. by rewrite Hq.
        -- right; left. split; [|done]. unfold inFlight in *. rewrite Ha.
           by apply pendingIds_settle_other.
        -- right; right. exists o'. split; [|done]. apply elem_of_app. by left.
Qed.

(** Each admission ends in one outcome: the jobs whose call has ended,
    with those whose call is in flight, are the jobs admitted. *)
Lemma verdicts_perm conc jobIds m es s :
  run conc es (processJobs_init jobIds m) = Some s →
  (verdicts conc es (processJobs_init jobIds m)).*1 ++ inFlight s
  ≡ₚ admitted conc es (processJobs_init jobIds m).
Proof.
  revert es s.
  apply (run_log_ind conc (λ es s,
    (verdicts conc es (processJobs_init jobIds m)).*1 ++ inFlight s
    ≡ₚ admitted conc es (processJobs_init jobIds m))); [done|].
  intros es s e s' Hrun IH He.
  rewrite (verdicts_snoc _ _ _ _ _ _ Hrun He), (admitted_snoc _ _ _ _ _ _ Hrun He).
  destruct (Step_cases _ _ _ _ (step_Step _ _ _ _ He))
    as [(_ & _ & Hfl & _ & Hadm & Hset)
       |[(client & jobId & rest & -> & _ & _ & _ & Ha & Hadm & Hset)
        |(i & o & u & -> & Hi & Hu & _ & _ & Ha & Hadm & Hset)]];
    rewrite Hadm, Hset; simpl.
  - by rewrite Hfl, !app_nil_r.
  - unfold inFlight in *. rewrite Ha, pendingIds_snoc. rewrite <- IH.
    destruct client; simpl.
    + rewrite fmap_app, app_nil_r. simpl.
      rewrite <- !app_assoc. f_equiv. apply Permutation_app_comm.
    + by rewrite app_nil_r, app_assoc.
  - unfold inFlight in *. rewrite Ha, app_nil_r, fmap_app. simpl.
    rewrite <- IH, <- app_assoc. f_equiv. simpl.
    by rewrite (pendingIds_settle _ _ _ Hi Hu).
Qed.

(** With distinct jobs that are not terminal at the start, the record
    of a job shows the outcome of its own provider call for good. *)
Lemma verdicts_shown conc jobIds m es s :
  NoDup jobIds → (∀ j, j ∈ jobIds → isTerminal m j = false) →
  run conc es (processJobs_init jobIds m) = Some s →
  ∀ id o job, (id, o) ∈ verdicts conc es (processJobs_init jobIds m) →
    getJob id (store s) = Some job → shows o job.
Proof.
  intros Hnd Hm Hrun.
  assert (Fresh s ∧
          ∀ id o job, (id, o) ∈ verdicts conc es (processJobs_init jobIds m) →
            getJob id (store s) = Some job → shows o job) as [_ H]; [|done].
  revert es s Hrun.
  apply (run_log_ind conc (λ es s,
    Fresh s ∧
    ∀ id o job, (id, o) ∈ verdicts conc es (processJobs_init jobIds m) →
      getJob id (store s) = Some job → shows o job)).
  - split; [by apply Fresh_init|]. by intros ??? ?%elem_of_nil.
  - intros es s e s' Hrun [HF IH] He.
    pose proof (step_Step _ _ _ _ He) as HS.
    split; [by eapply Fresh_step|].
    rewrite (verdicts_snoc _ _ _ _ _ _ Hrun He).
    assert (∀ id o job, (id, o) ∈ verdicts conc es (processJobs_init jobIds m) →
              getJob id (store s') = Some job → shows o job) as Hold.
    { intros id o job Hin Hjob.
      destruct (getJob id (store s)) as [job0|] eqn:Hjob0.
      - pose proof (IH id o job0 Hin Hjob0) as Hshow.
        assert (isTerminal (store s) id = true) as Hterm.
        { unfold isTerminal, statusOf. rewrite Hjob0. simpl.
          destruct o; destruct Hshow as [-> _]; done. }
        rewrite (Fresh_step_final _ _ _ _ id HF HS Hterm), Hjob0 in Hjob.
        by injection Hjob as <-.
      - apply (Step_keeps_jobs _ _ _ _ id HS) in Hjob0. congruence. }
    intros id o job [Hin|Hin]%elem_of_app; [by apply Hold|].
    destruct (Step_cases _ _ _ _ HS)
      as [(_ & _ & _ & _ & _ & Hset)
         |[(client & jobId & rest & -> & _ & _ & Hst & _ & _ & Hset)
          |(i & o' & u & -> & Hi & Hu & Hst & _ & _ & _ & Hset)]];
      rewrite Hset in Hin; simpl in Hin.
    + by apply elem_of_nil in Hin.
    + destruct client as [t|]; simpl in Hin; [|by apply elem_of_nil in Hin].
      apply list_elem_of_singleton in Hin. injection Hin as -> ->.
      rewrite Hst, getJob_processJob_start.
      destruct (getJob jobId (store s)); [|done]. intros [= <-].
      apply shows_started.
    + apply list_elem_of_singleton in Hin. injection Hin as -> ->.
      rewrite Hst, getJob_processJob_resume.
      destruct (getJob (unit_jobId u) (store s)); [|done]. intros [= <-].
      apply shows_settled.
Qed.

Lemma Marked_step conc m jobIds s e s' :
  Marked m jobIds s → Step conc s e s' → Marked m jobIds s'.
Proof.
  intros [(pre & Hpre & Hact & Hout & Hin)] HS. split.
  destruct (Step_cases _ _ _ _ HS)
    as [(Hst & Hq & _ & Ha & _ & _)
       |[(client & jobId & rest & -> & Hq & Hq' & Hst & Ha & _ & _)
        |(i & o & u & -> & Hi & Hu & Hst & Hq & Ha & _ & _)]].
  - exists pre. rewrite Hst, Hq. split_and!; [done| |done|done].
    intros u Hu. by apply Hact, Ha.
  - exists (pre ++ [jobId]). rewrite Hst, Hq', Ha. split_and!.
    + by rewrite Hpre, Hq, <- app_assoc.
    + intros u [Hu|Hu%list_elem_of_singleton]%elem_of_app; apply elem_of_app.
      * left. by apply Hact.
      * right. subst u. by left.
    + intros id Hid. rewrite processJob_start_other.
      * apply Hout. intros ?. apply Hid, elem_of_app. by left.
      * intros ->. apply Hid, elem_of_app. right. by left.
    + intros id job Hid. destruct (decide (jobId = id)) as [->|Hne].
      * rewrite getJob_processJob_start.
        destruct (getJob id (store s)); [|done]. intros [= <-]. by destruct client.
      * rewrite processJob_start_other by done. apply Hin.
        apply elem_of_app in Hid as [?|?%list_elem_of_singleton]; done.
  - exists pre. rewrite Hst, Hq, Ha.
    assert (unit_jobId u ∈ pre) as Hu_pre.
    { apply Hact. by eapply list_elem_of_lookup_2. }
    split_and!; [done| | |].
    + intros v Hv. apply list_elem_of_lookup in Hv as [j Hj].
      destruct (decide (j = i)) as [->|Hji].
      * rewrite list_lookup_insert_eq in Hj by by eapply lookup_lt_Some.
        by injection Hj as <-.
      * rewrite list_lookup_insert_ne in Hj by done.
        apply Hact. by eapply list_elem_of_lookup_2.
    + intros id Hid. rewrite processJob_resume_other; [by apply Hout|].
      by intros <-.
    + intros id job Hid. destruct (decide (unit_jobId u = id)) as [<-|Hne].
      * rewrite getJob_processJob_resume.
        destruct (getJob (unit_jobId u) (store s)); [|done].
        intros [= <-]. by destruct o.
      * rewrite processJob_resume_other by done. by apply Hin.
Qed.

Lemma Marked_run conc m jobIds es s :
  run conc es (processJobs_init jobIds m) = Some s → Marked m jobIds s.
Proof.
  apply (run_preserves conc (Marked m jobIds)).
  - intros ???. apply Marked_step.
  - split. exists []. split_and!; [done|by intros ? ?%elem_of_nil|done|].
    by intros ?? ?%elem_of_nil.
Qed.

(** An admission writes to the job at the head of the queue and to no
    other: that job becomes 'generating', or 'error' if no client can
    be had. *)
Lemma admission_marks conc s e s' jobId :
  step conc s e = Some s' → admits conc s e = Some jobId →
  head (queue s) = Some jobId ∧
  (∀ id, id ≠ jobId → getJob id (store s') = getJob id (store s)) ∧
  statusOf jobId (store s')
  = (λ _, match e with EvRun (Some _) => Error | _ => Generating end)
      <$> getJob jobId (store s).
Proof.
  intros He Hadm.
  destruct (Step_cases _ _ _ _ (step_Step _ _ _ _ He))
    as [(_ & _ & _ & _ & Hno & _)
       |[(client & j & rest & -> & Hq & _ & Hst & _ & Hyes & _)
        |(i & o & u & -> & _ & _ & _ & _ & _ & Hno & _)]]; try congruence.
  rewrite Hyes in Hadm. injection Hadm as ->. rewrite Hq, Hst.
  split_and!; [done| |].
  - intros id Hne. by apply processJob_start_other.
  - rewrite processJob_start_status. by destruct client.
Qed.

(** No other transition makes a job 'generating'. *)
Lemma only_admission_marks conc s e s' id :
  step conc s e = Some s' → admits conc s e = None →
  isGenerating (store s') id = true → isGenerating (store s) id = true.
Proof.
  intros He Hadm.
  destruct (Step_cases _ _ _ _ (step_Step _ _ _ _ He))
    as [(Hst & _)
       |[(client & j & rest & -> & _ & _ & _ & _ & Hyes & _)
        |(i & o & u & -> & _ & _ & Hst & _)]]; try congruence.
  rewrite Hst. unfold isGenerating.
  destruct (decide (unit_jobId u = id)) as [<-|Hne].
  - rewrite processJob_resume_status.
    intros H%bool_decide_eq_true_1.
    by destruct (getJob (unit_jobId u) (store s)), o.
  - unfold statusOf. by rewrite processJob_resume_other.
Qed.

Lemma updateJob_markError id t m job :
  getJob id m = Some job →
  ∃ job', getJob id (updateJob id (markError t) m) = Some job' ∧
          job_status job' = Error ∧ job_error job' = Some (caughtMessage t).
Proof.
  intros Hjob. exists (mergeJob job (markError t)).
  by rewrite updateJob_same, Hjob.
Qed.

Lemma processJob_start_failed jobId t m :
  is_Some (getJob jobId m) →
  ∃ job', getJob jobId (processJob_start jobId (Some t) m).1 = Some job' ∧
          job_status job' = Error ∧ job_error job' = Some (caughtMessage t).
Proof.
  intros [job Hjob]. unfold processJob_start; simpl.
  apply (updateJob_markError _ _ _ (mergeJob job markGenerating)).
  by rewrite updateJob_same, Hjob.
Qed.

Lemma processJob_resume_failed jobId t m :
  is_Some (getJob jobId m) →
  ∃ job', getJob jobId (processJob_resume jobId (Rejected t) m) = Some job' ∧
          job_status job' = Error ∧ job_error job' = Some (caughtMessage t).
Proof. intros [job Hjob]. by apply (updateJob_markError _ _ _ job). Qed.

(** The job of a failure is a job of the list. *)
Lemma failureOf_in_list conc jobIds s e jobId t :
  Inv conc jobIds s → failureOf conc s e = Some (jobId, t) → jobId ∈ jobIds.
Proof.
  intros [_ (pre & -> & _ & Hact) _ _]. unfold failureOf, admits.
  destruct e as [[t'|]|i [url|t']|i]; try done.
  - destruct (pc s); try done. destruct (mayAdmit conc s); [|done].
    destruct (queue s) as [|j rest]; [done|]. simpl. intros [= <- <-].
    apply elem_of_app. right. by left.
  - destruct (active s !! i) as [u|] eqn:Hi; [|done]. simpl. intros [= <- <-].
    apply elem_of_app. left. apply Hact. by eapply list_elem_of_lookup_2.
Qed.

(** What a failure writes. *)
Lemma step_failure conc s e s' jobId t :
  step conc s e = Some s' → failureOf conc s e = Some (jobId, t) →
  is_Some (getJob jobId (store s)) →
  (∃ job, getJob jobId (store s') = Some job ∧ job_status job = Error ∧
          job_error job = Some (caughtMessage t)) ∧
  (∀ id, id ≠ jobId → getJob id (store s') = getJob id (store s)) ∧
  pc s' = pc s.
Proof.
  unfold failureOf, admits, step.
  destruct e as [[t'|]|i [url|t']|i]; try done.
  - destruct (pc s); try done. destruct (mayAdmit conc s); [|done].
    destruct (queue s) as [|j rest]; [done|].
    destruct (processJob_start j (Some t') (store s)) as [m returned] eqn:Hstart.
    intros [= <-] [= <- <-] Hsome. name_start Hstart. cbn [store pc].
    split_and!; [by apply processJob_start_failed| |done].
    intros id Hne. by apply processJob_start_other.
  - destruct (pc s) as [| |[|]|]; try done.
    all: destruct (active s !! i) as [u|] eqn:Hi; [|done].
    all: destruct (unit_returned u); [done|].
    all: intros [= <-] [= <- <-] Hsome; cbn [store pc].
    all: split_and!; [by apply processJob_resume_failed| |done].
    all: intros id Hne; by apply processJob_resume_other.
Qed.

Lemma verdicts_app conc es1 es2 s0 s :
  run conc es1 s0 = Some s →
  verdicts conc (es1 ++ es2) s0 = verdicts conc es1 s0 ++ verdicts conc es2 s.
Proof.
  revert s0. induction es1 as [|e es1 IH]; intros s0; simpl.
  - by intros [= <-].
  - destruct (step conc s0 e) as [s1|]; [|done]. intros Hrun.
    rewrite (IH s1 Hrun). by destruct (settles conc s0 e).
Qed.

(** A failure is the outcome of the provider call of its job. *)
Lemma failureOf_settles conc s e jobId t :
  failureOf conc s e = Some (jobId, t) →
  settles conc s e = Some (jobId, Rejected t).
Proof.
  unfold failureOf, settles. destruct e as [[t'|]|i [url|t']|i]; try done.
  - destruct (admits conc s _); [|done]. by intros [= <- <-].
  - destruct (active s !! i); [|done]. by intros [= <- <-].
Qed.

(** Each transition leaves the queue as it is or admits its head. *)
Lemma Step_admits conc s e s' :
  Step conc s e s' →
  match admits conc s e with
  | Some jobId => queue s = jobId :: queue s'
  | None => queue s' = queue s
  end.
Proof.
  unfold admits.
  destruct 1 as [c Hpc Hne|c Hpc Hq Ha|c jobId rest m returned Hpc Hadm Hq Hstart
                |c Hpc Hadm Ha|c Hpc Hadm Ha|c Hpc
                |woken i o u Hpc Hi Hu|woken i u Hpc Hi Hu];
    rewrite Hpc; try done; simpl.
  - by rewrite Hadm, Hq.
  - by rewrite Hadm.
  - by rewrite Hadm.
Qed.

Lemma admitted_queue conc es s s' :
  run conc es s = Some s' → admitted conc es s ++ queue s' = queue s.
Proof.
  revert s. induction es as [|e es IH]; intros s; simpl.
  - by intros [= <-].
  - destruct (step conc s e) as [s1|] eqn:He; [|done].
    intros Hrun. apply step_Step, Step_admits in He.
    destruct (admits conc s e) as [jobId|]; simpl.
    + rewrite (IH _ Hrun). by rewrite He.
    + rewrite (IH _ Hrun). by rewrite He.
Qed.

(** C4. Let [processJobs] run with a limit of at least 1 on jobs that
    the store holds, and let the provider call of one job fail:
    [getGeminiClient()] throws as the job is admitted, or the promise
    of [generateImage] is rejected.  The failure is an ordinary
    transition of the dispatcher, which stays where it was in its loop.
    The job gets status 'error' and the message of what was thrown; no
    other job and no batch is touched.  After the failure the run still
    cannot stop before [processJobs] returns, stays within the bound on
    its length, and ends with every job of the list 'complete' or
    'error'.  The siblings are dispatched as if nothing had failed: at
    every later moment the jobs admitted so far, followed by the queue,
    are the list; each admitted job has its provider call in flight or
    has received exactly one outcome, the failing job the failure; and
    the record of every job of the list is accounted for, as the record
    of the start for a job still queued, as 'generating' for a job in
    flight, as the record showing an outcome of the job's own provider
    call otherwise.  With distinct jobs that are not terminal at the
    start, every outcome is shown by the record of its job for good:
    the image of a sibling whose call is fulfilled, the message of one
    whose call is rejected. *)
Theorem failure_stays_with_its_job (k : Z) (jobIds : list string)
    (m : JobManager) (es : list Event) (s s' : Dispatcher) (e : Event)
    (jobId : string) (t : Thrown) :
  (1 ≤ k)%Z →
  (∀ id, id ∈ jobIds → is_Some (getJob id m)) →
  run (Some k) es (processJobs_init jobIds m) = Some s →
  step (Some k) s e = Some s' →
  failureOf (Some k) s e = Some (jobId, t) →
  (∃ job, getJob jobId (store s') = Some job ∧ job_status job = Error ∧
          job_error job = Some (caughtMessage t)) ∧
  (∀ id, id ≠ jobId → getJob id (store s') = getJob id (store s)) ∧
  batches (store s') = batches (store s) ∧
  pc s' = pc s ∧
  (∀ es' s'', run (Some k) es' s' = Some s'' →
     let whole := es ++ e :: es' in
     let log := verdicts (Some k) whole (processJobs_init jobIds m) in
     let done := admitted (Some k) whole (processJobs_init jobIds m) in
     length es + 1 + length es' ≤ 9 * length jobIds + 5 ∧
     (pc s'' ≠ Finished → ∃ e' s3, step (Some k) s'' e' = Some s3) ∧
     (pc s'' = Finished → ∀ id, id ∈ jobIds → isTerminal (store s'') id = true) ∧
     (jobId, Rejected t) ∈ log ∧
     done ++ queue s'' = jobIds ∧
     log.*1 ++ inFlight s'' ≡ₚ done ∧
     (pc s'' = Finished → log.*1 ≡ₚ jobIds) ∧
     (∀ id job, id ∈ jobIds → getJob id (store s'') = Some job →
        accounted m log s'' id job) ∧
     (NoDup jobIds → (∀ j, j ∈ jobIds → isTerminal m j = false) →
      ∀ id o job, (id, o) ∈ log → getJob id (store s'') = Some job →
        shows o job)).
Proof.
  intros Hk Hm Hrun Hstep Hfail.
  pose proof (Inv_run _ _ _ _ _ Hrun) as HI.
  pose proof (run_keeps_jobs _ jobIds _ (processJobs_init jobIds m) _ Hm Hrun)
    as Hheld.
  pose proof (failureOf_in_list _ _ _ _ _ _ HI Hfail) as Hin.
  destruct (step_failure _ _ _ _ _ _ Hstep Hfail (Hheld _ Hin))
    as (Hjob & Hothers & Hpc).
  split_and!; [done|done| |done|].
  - by apply (Step_keeps_batches (Some k) _ e), step_Step.
  - intros es' s'' Hrun' whole log done.
    assert (run (Some k) whole (processJobs_init jobIds m) = Some s'') as Hall.
    { unfold whole. rewrite run_app, Hrun. simpl. by rewrite Hstep. }
    pose proof (Inv_run _ _ _ _ _ Hall) as HI''.
    pose proof (admitted_queue _ _ _ _ Hall) as Hdone. simpl in Hdone.
    pose proof (verdicts_perm _ _ _ _ _ Hall) as Hperm.
    split_and!.
    + pose proof (run_weight _ _ _ _ Hk Hall) as Hw.
      pose proof (weight_init jobIds m).
      unfold whole in Hw. rewrite length_app in Hw. simpl in Hw. lia.
    + by apply (progress _ jobIds).
    + intros Hfin id Hid.
      apply (Inv_finished_terminal (Some k) jobIds); [done..|].
      by apply (run_keeps_jobs (Some k) jobIds _ (processJobs_init jobIds m)
                  _ Hm Hall).
    + unfold log, whole.
      replace (es ++ e :: es') with ((es ++ [e]) ++ es')
        by by rewrite <- app_assoc.
      rewrite (verdicts_app _ _ _ _ s');
        [|apply run_snoc; by exists s].
      rewrite (verdicts_snoc _ _ _ _ _ _ Hrun Hstep).
      rewrite (failureOf_settles _ _ _ _ _ Hfail). simpl.
      apply elem_of_app. left. apply elem_of_app. right. by left.
    + done.
    + done.
    + intros Hfin. destruct (inv_finished _ _ _ HI'' Hfin) as [Hq Ha].
      assert (inFlight s'' = []) as Hfl by (unfold inFlight; by rewrite Ha).
      rewrite Hfl, app_nil_r in Hperm. rewrite Hq, app_nil_r in Hdone.
      rewrite Hdone in Hperm. exact Hperm.
    + by apply accounted_run.
    + intros Hnd Hnt. by apply (verdicts_shown (Some k) jobIds m whole s'').
Qed.

Lemma failure_stays_with_its_job_witness :
  let init := processJobs_init (sampleBatch 3).1 (sampleBatch 3).2 in
  let s := default init (run (Some 2%Z) sampleRun init) in
  let e := EvSettle 0 (Rejected (ThrownError "quota exceeded")) in
  let s' := default init (step (Some 2%Z) s e) in
  (job_error <$> getJob "0" (store s')) = Some (Some "quota exceeded") ∧
  getJob "1" (store s') = getJob "1" (store s).
Proof.
  intros init s e s'.
  destruct (failure_stays_with_its_job 2 (sampleBatch 3).1 (sampleBatch 3).2
              sampleRun s s' e "0" (ThrownError "quota exceeded"))
    as ((job & Hjob & _ & Herr) & Hothers & _).
  - lia.
  - apply (check_ids (λ id, is_Some (getJob id _))). by vm_compute.
  - by vm_compute.
  - by vm_compute.
  - by vm_compute.
  - split.
    + rewrite Hjob. simpl. by rewrite Herr.
    + by apply Hothers.
Defined.

(** C9. The jobs admitted along a run, in the order of their
    admission, followed by the queue, are the list [jobIds]: the jobs
    are admitted in the order of the list.  Admission is what marks a
    job: a job not admitted so far has the record of the start, an
    admitted one is no longer 'pending'; each admission writes to the
    job at the head of the queue and to no other, making it
    'generating' (or 'error' if no client can be had), and no other
    transition makes a job 'generating'.  With limit 1, whenever a
    job is admitted [active] is empty and every job admitted before it
    is 'complete' or 'error'.  The order of completion is free: with
    limit 2 and jobs "0" and "1" in flight, either one can be complete
    while the other is still 'generating'. *)
Theorem admission_in_list_order (conc : number) (jobIds : list string)
    (m : JobManager) (es : list Event) (s : Dispatcher) :
  run conc es (processJobs_init jobIds m) = Some s →
  admitted conc es (processJobs_init jobIds m) ++ queue s = jobIds ∧
  (∀ id, id ∉ admitted conc es (processJobs_init jobIds m) →
         getJob id (store s) = getJob id m) ∧
  (∀ id job, id ∈ admitted conc es (processJobs_init jobIds m) →
             getJob id (store s) = Some job → job_status job ≠ Pending) ∧
  (∀ e s' jobId, step conc s e = Some s' → admits conc s e = Some jobId →
     head (queue s) = Some jobId ∧
     (∀ id, id ≠ jobId → getJob id (store s') = getJob id (store s)) ∧
     statusOf jobId (store s')
     = (λ _, match e with EvRun (Some _) => Error | _ => Generating end)
         <$> getJob jobId (store s)) ∧
  (∀ e s' id, step conc s e = Some s' → admits conc s e = None →
     isGenerating (store s') id = true → isGenerating (store s) id = true) ∧
  (conc = Some 1%Z →
   ∀ e jobId, admits conc s e = Some jobId →
     active s = [] ∧
     ∀ id, id ∈ admitted conc es (processJobs_init jobIds m) →
           is_Some (getJob id m) → isTerminal (store s) id = true) ∧
  (let init := processJobs_init (sampleBatch 3).1 (sampleBatch 3).2 in
   (∃ s1, run (Some 2%Z) sampleRunLaterFirst init = Some s1 ∧
          statusOf "0" (store s1) = Some Generating ∧
          statusOf "1" (store s1) = Some Complete) ∧
   (∃ s2, run (Some 2%Z) sampleRunEarlierFirst init = Some s2 ∧
          statusOf "0" (store s2) = Some Complete ∧
          statusOf "1" (store s2) = Some Generating)).
Proof.
  intros Hrun.
  pose proof (admitted_queue _ _ _ _ Hrun) as Hadm. simpl in Hadm.
  destruct (Marked_run _ _ _ _ _ Hrun) as [(pre0 & Hpre0 & _ & Hout & Hin)].
  assert (pre0 = admitted conc es (processJobs_init jobIds m)) as ->.
  { apply (app_inv_tail (queue s)). by rewrite <- Hpre0, Hadm. }
  split_and!; [done|done|done| | | |].
  - intros e s' jobId. apply admission_marks.
  - intros e s' id. apply only_admission_marks.
  - intros -> e jobId He.
    assert (active s = []) as Ha.
    { unfold admits in He. destruct (pc s), e; try done.
      destruct (mayAdmit (Some 1%Z) s) eqn:Hmay; [|done].
      apply mayAdmit_limit in Hmay. simpl in Hmay.
      destruct (active s); [done|simpl in Hmay; lia]. }
    split; [done|]. intros id Hid Hheld.
    destruct (Inv_run _ _ _ _ _ Hrun) as [_ (pre & Hpre & Hserved & _) _ _].
    assert (pre = admitted (Some 1%Z) es (processJobs_init jobIds m)) as ->.
    { apply (app_inv_tail (queue s)). by rewrite <- Hpre, Hadm. }
    destruct (Hserved id Hid) as [Hfl|[?|Hnone]]; [|done|].
    + unfold inFlight in Hfl. rewrite Ha in Hfl. by apply elem_of_nil in Hfl.
    + assert (is_Some (getJob id (store s))) as [job Hjob].
      { apply (run_keeps_jobs (Some 1%Z) [id] es (processJobs_init jobIds m));
          [|done|by left].
        by intros ? ->%list_elem_of_singleton. }
      congruence.
  - split; eexists; (split_and!; [by vm_compute|by vm_compute..]).
Qed.

Lemma admission_in_list_order_witness :
  let init := processJobs_init (sampleBatch 3).1 (sampleBatch 3).2 in
  admitted (Some 2%Z) sampleRun init = ["0"; "1"] ∧
  admitted (Some 2%Z) sampleRun init
    ++ queue (default init (run (Some 2%Z) sampleRun init)) = (sampleBatch 3).1.
Proof.
  split; [by vm_compute|].
  apply (admission_in_list_order (Some 2%Z) (sampleBatch 3).1 (sampleBatch 3).2
           sampleRun).
  by vm_compute.
Defined.

(** * Further properties of the code *)

(** ** The job store: how [cleanup] composes *)

Lemma JobManager_eq (m1 m2 : JobManager) :
  (∀ id, getJob id m1 = getJob id m2) →
  (∀ id, getBatch id m1 = getBatch id m2) →
  m1 = m2.
Proof.
  destruct m1 as [j1 b1], m2 as [j2 b2]. unfold getJob, getBatch; simpl.
  intros Hj Hb. f_equal; by apply map_eq.
Qed.

Lemma getJob_cleanup now age m id :
  getJob id (cleanup now age m) =
  match getJob id m with
  | Some job => if bool_decide (job_createdAt job < now - age)%Z
                then None else Some job
  | None => None
  end.
Proof. unfold getJob, cleanup; simpl. apply sweep_lookup. Qed.

Lemma getBatch_cleanup now age m id :
  getBatch id (cleanup now age m) =
  match getBatch id m with
  | Some batch => if bool_decide (batch_createdAt batch < now - age)%Z
                  then None else Some batch
  | None => None
  end.
Proof. unfold getBatch, cleanup; simpl. apply sweep_lookup. Qed.

(** X1. Two sweeps in a row are one sweep with the later of the two
    cutoffs; in particular a sweep repeated with the same arguments
    changes nothing more. *)
Theorem cleanup_twice (now1 age1 now2 age2 : Z) (m : JobManager) :
  cleanup now2 age2 (cleanup now1 age1 m)
  = cleanup (Z.max (now1 - age1) (now2 - age2)) 0 m ∧
  cleanup now1 age1 (cleanup now1 age1 m) = cleanup now1 age1 m.
Proof.
  split; apply JobManager_eq; intros id.
  - rewrite !getJob_cleanup. destruct (getJob id m) as [job|]; [|done].
    case_bool_decide as H1; simpl.
    + rewrite bool_decide_eq_true_2; [done|lia].
    + case_bool_decide as H2; case_bool_decide as H3; try done; lia.
  - rewrite !getBatch_cleanup. destruct (getBatch id m) as [batch|]; [|done].
    case_bool_decide as H1; simpl.
    + rewrite bool_decide_eq_true_2; [done|lia].
    + case_bool_decide as H2; case_bool_decide as H3; try done; lia.
  - rewrite !getJob_cleanup. destruct (getJob id m) as [job|]; [|done].
    case_bool_decide as H; simpl; [done|]. by rewrite bool_decide_eq_false_2.
  - rewrite !getBatch_cleanup. destruct (getBatch id m) as [batch|]; [|done].
    case_bool_decide as H; simpl; [done|]. by rewrite bool_decide_eq_false_2.
Qed.

(** X2. An update that does not carry [createdAt] and a sweep can run
    in either order: the store is the same.  So the race between the
    last write of a job and its reclamation has one outcome. *)
Theorem cleanup_updateJob_commute (now age : Z) (id : string)
    (updates : JobUpdates) (m : JobManager) :
  upd_createdAt updates = None →
  cleanup now age (updateJob id updates m)
  = updateJob id updates (cleanup now age m).
Proof.
  intros Hc. apply JobManager_eq; intros k.
  - rewrite getJob_cleanup.
    destruct (decide (id = k)) as [<-|Hne].
    + rewrite !updateJob_same, getJob_cleanup.
      destruct (getJob id m) as [job|]; simpl; [|done].
      unfold spread. rewrite Hc.
      by case_bool_decide.
    + by rewrite !updateJob_other, getJob_cleanup.
  - unfold getBatch. rewrite updateJob_batches. simpl. by rewrite updateJob_batches.
Qed.

Lemma cleanup_updateJob_commute_witness :
  cleanup 4000 1000 (updateJob "j1" markGenerating sampleStore)
  = updateJob "j1" markGenerating (cleanup 4000 1000 sampleStore).
Proof. by apply cleanup_updateJob_commute. Defined.

(** ** The timer of [startCleanupTask] *)

Lemma getJob_cleanupTicks nows m id :
  getJob id (cleanupTicks nows m) =
  match getJob id m with
  | Some job =>
      if bool_decide (Exists (λ now, job_createdAt job < now - JOB_LIFETIME)%Z nows)
      then None else Some job
  | None => None
  end.
Proof.
  unfold cleanupTicks. revert m.
  induction nows as [|now nows IH]; intros m; cbn [foldl].
  - destruct (getJob id m); [|done].
    rewrite bool_decide_eq_false_2; [done|]. by intros ?%Exists_nil.
  - rewrite IH. unfold cleanupTick. rewrite getJob_cleanup.
    destruct (getJob id m) as [job|]; [|done].
    case_bool_decide as Hnow.
    + rewrite bool_decide_eq_true_2; [done|]. by left.
    + case_bool_decide as Hlater.
      * rewrite bool_decide_eq_true_2; [done|]. by right.
      * rewrite bool_decide_eq_false_2; [done|].
        by intros [?|?]%Exists_cons.
Qed.

Lemma tickTime_mono t0 i n : i ≤ n → (tickTime t0 i ≤ tickTime t0 n)%Z.
Proof. unfold tickTime, CLEANUP_INTERVAL. intros. nia. Qed.

(** X3. Let the timer be set at time [t0] and fire every 15 minutes,
    and let nothing else delete jobs.  A job is still in the store
    after the [n]-th firing when that firing is not later than one hour
    after the creation of the job, and gone when it is.  A job created
    after the timer was set is gone an hour and a quarter after its
    creation at the latest. *)
Theorem timer_retention (t0 : Z) (n : nat) (m : JobManager) (id : string)
    (job : Job) :
  getJob id m = Some job →
  let after k := cleanupTicks (tickTime t0 <$> seq 1 k) m in
  ((tickTime t0 n ≤ job_createdAt job + JOB_LIFETIME)%Z →
     getJob id (after n) = Some job) ∧
  (1 ≤ n → (job_createdAt job + JOB_LIFETIME < tickTime t0 n)%Z →
     getJob id (after n) = None) ∧
  ((t0 ≤ job_createdAt job)%Z →
     ∃ k, (tickTime t0 k
           ≤ job_createdAt job + JOB_LIFETIME + CLEANUP_INTERVAL)%Z ∧
          getJob id (after k) = None).
Proof.
  intros Hjob after.
  assert (∀ k, 1 ≤ k → (job_createdAt job + JOB_LIFETIME < tickTime t0 k)%Z →
               getJob id (after k) = None) as Hgone.
  { intros k Hk Hlate. unfold after. rewrite getJob_cleanupTicks, Hjob.
    rewrite bool_decide_eq_true_2; [done|].
    apply Exists_exists. exists (tickTime t0 k). split; [|lia].
    apply list_elem_of_fmap_2, elem_of_seq. lia. }
  split_and!.
  - intros Hearly. unfold after. rewrite getJob_cleanupTicks, Hjob.
    rewrite bool_decide_eq_false_2; [done|].
    intros (now & Hin & Hold)%Exists_exists.
    apply list_elem_of_fmap in Hin as (i & -> & Hi%elem_of_seq).
    pose proof (tickTime_mono t0 i n ltac:(lia)). lia.
  - apply Hgone.
  - intros Hset.
    pose (q := ((job_createdAt job + JOB_LIFETIME - t0) / CLEANUP_INTERVAL)%Z).
    assert (0 ≤ q)%Z as Hq.
    { apply Z.div_pos; unfold JOB_LIFETIME, CLEANUP_INTERVAL; lia. }
    pose proof (Z.mul_div_le (job_createdAt job + JOB_LIFETIME - t0)
                  CLEANUP_INTERVAL ltac:(unfold CLEANUP_INTERVAL; lia)) as Hlo.
    pose proof (Z.mul_succ_div_gt (job_createdAt job + JOB_LIFETIME - t0)
                  CLEANUP_INTERVAL ltac:(unfold CLEANUP_INTERVAL; lia)) as Hhi.
    fold q in Hlo, Hhi.
    exists (Z.to_nat (q + 1)).
    assert (tickTime t0 (Z.to_nat (q + 1)) = t0 + (q + 1) * CLEANUP_INTERVAL)%Z
      as Htick.
    { unfold tickTime. rewrite Z2Nat.id by lia. done. }
    split; [rewrite Htick; lia|].
    apply Hgone; [lia|]. rewrite Htick. lia.
Qed.

Lemma timer_retention_witness :
  getJob "j1" (cleanupTicks (tickTime 0 <$> seq 1 4) sampleStore)
    = getJob "j1" sampleStore ∧
  getJob "j1" (cleanupTicks (tickTime 0 <$> seq 1 5) sampleStore) = None.
Proof.
  destruct (getJob "j1" sampleStore) as [job|] eqn:Hjob; [|by vm_compute in Hjob].
  assert (job_createdAt job = 100%Z) as Hc.
  { vm_compute in Hjob. by injection Hjob as <-. }
  destruct (timer_retention 0 4 sampleStore "j1" job Hjob) as (Hkeep & _).
  destruct (timer_retention 0 5 sampleStore "j1" job Hjob) as (_ & Hgone & _).
  split.
  - apply Hkeep. rewrite Hc. by vm_compute.
  - apply Hgone; [lia|]. rewrite Hc. by vm_compute.
Defined.

(** ** The submit handler and the status endpoint *)

Lemma createJobs_spec (randomUUID : nat → string) (dateNow : nat → Z)
    (n k : nat) (m : JobManager) :
  let r := createJobs randomUUID dateNow n k m in
  r.1 = randomUUID <$> seq k n ∧
  (∀ id, id ∉ r.1 → getJob id r.2 = getJob id m) ∧
  (∀ id, id ∈ r.1 → ∃ job, getJob id r.2 = Some job ∧ pendingJob id job) ∧
  batches r.2 = batches m.
Proof.
  revert k m. induction n as [|n IH]; intros k m; simpl.
  - split_and!; try done. by intros id ?%elem_of_nil.
  - specialize (IH (S k)
      {| jobs := <[randomUUID k :=
                     {| job_id := randomUUID k; job_status := Pending;
                        job_imageUrl := None; job_error := None;
                        job_createdAt := dateNow k |}]> (jobs m);
         batches := batches m |}).
    destruct (createJobs randomUUID dateNow n (S k) _) as [rest m2].
    simpl in *. destruct IH as (-> & Hout & Hin & Hb).
    split_and!; [done| | |done].
    + intros id Hid. rewrite Hout.
      * unfold getJob; simpl. apply lookup_insert_ne. intros <-. apply Hid. by left.
      * intros ?. apply Hid. by right.
    + intros id Hid.
      destruct (decide (id ∈ randomUUID <$> seq (S k) n)) as [Hlater|Hnot].
      * by apply Hin.
      * apply elem_of_cons in Hid as [->|?]; [|done].
        rewrite Hout by done. unfold getJob; simpl.
        rewrite lookup_insert_eq. by eexists.
Qed.


(** ** The dispatcher: what it leaves alone *)

Lemma Step_frame conc jobIds s e s' id :
  Inv conc jobIds s → Step conc s e s' → id ∉ jobIds →
  getJob id (store s') = getJob id (store s).
Proof.
  intros [_ (pre & -> & _ & Hact) _ _] Hstep Hid.
  destruct Hstep as [| |c jobId rest m returned Hpc Hadm Hq Hstart| | |
                    |woken i o u Hpc Hi Hu|];
    try done; simpl.
  - name_start Hstart. apply processJob_start_other. intros ->.
    apply Hid, elem_of_app. right. rewrite Hq. by left.
  - apply processJob_resume_other. intros <-.
    apply Hid, elem_of_app. left. apply Hact. by eapply list_elem_of_lookup_2.
Qed.

Lemma Step_identity conc s e s' id :
  Step conc s e s' →
  identity <$> getJob id (store s') = identity <$> getJob id (store s).
Proof.
  destruct 1 as [| |c jobId rest m returned Hpc Hadm Hq Hstart| | |
                |woken i o u Hpc Hi Hu|];
    try done; simpl.
  - name_start Hstart. destruct (decide (jobId = id)) as [->|Hne].
    + rewrite getJob_processJob_start.
      destruct (getJob id (store s)); [|done]. by destruct c.
    + by rewrite processJob_start_other.
  - destruct (decide (unit_jobId u = id)) as [<-|Hne].
    + rewrite getJob_processJob_resume.
      destruct (getJob (unit_jobId u) (store s)); [|done]. by destruct o.
    + by rewrite processJob_resume_other.
Qed.

(** X7. Whatever happens during a run of [processJobs], the batches of
    the store and the jobs that are not in its list are as they were at
    the start; and of every job, in the list or not, the identifier and
    the creation time are as they were.  The dispatcher creates no job
    and deletes none. *)
Theorem processJobs_frame (conc : number) (jobIds : list string)
    (m : JobManager) (es : list Event) (s : Dispatcher) :
  run conc es (processJobs_init jobIds m) = Some s →
  batches (store s) = batches m ∧
  (∀ id, id ∉ jobIds → getJob id (store s) = getJob id m) ∧
  (∀ id, identity <$> getJob id (store s) = identity <$> getJob id m) ∧
  (∀ id, is_Some (getJob id (store s)) ↔ is_Some (getJob id m)).
Proof.
  intros Hrun.
  assert (Inv conc jobIds s ∧
          batches (store s) = batches m ∧
          (∀ id, id ∉ jobIds → getJob id (store s) = getJob id m) ∧
          (∀ id, identity <$> getJob id (store s) = identity <$> getJob id m))
    as (_ & Hb & Hout & Hident).
  { revert Hrun.
    apply (run_preserves conc (λ s,
      Inv conc jobIds s ∧
      batches (store s) = batches m ∧
      (∀ id, id ∉ jobIds → getJob id (store s) = getJob id m) ∧
      (∀ id, identity <$> getJob id (store s) = identity <$> getJob id m))).
    - intros s1 e s2 (HI & Hb & Hout & Hident) Hstep. split_and!.
      + by eapply Inv_step.
      + by rewrite (Step_keeps_batches _ _ _ _ Hstep).
      + intros id Hid. rewrite <- Hout by done. by eapply Step_frame.
      + intros id. rewrite <- Hident. by eapply Step_identity.
    - split_and!; [apply Inv_init|done..]. }
  split_and!; [done..|].
  intros id. rewrite <- !fmap_is_Some with (f := identity). by rewrite Hident.
Qed.

Lemma processJobs_frame_witness :
  let init := processJobs_init (sampleBatch 3).1 (sampleBatch 3).2 in
  let s := default init (run (Some 2%Z) sampleRunLaterFirst init) in
  batches (store s) = batches (sampleBatch 3).2 ∧
  identity <$> getJob "1" (store s) = Some ("1", 1001%Z).
Proof.
  destruct (processJobs_frame (Some 2%Z) (sampleBatch 3).1 (sampleBatch 3).2
              sampleRunLaterFirst
              (default (processJobs_init (sampleBatch 3).1 (sampleBatch 3).2)
                 (run (Some 2%Z) sampleRunLaterFirst
                    (processJobs_init (sampleBatch 3).1 (sampleBatch 3).2))))
    as (Hb & _ & Hident & _); [by vm_compute|].
  split; [exact Hb|]. rewrite Hident. by vm_compute.
Defined.

(** ** The dispatcher: the data model of a job *)

Lemma nonterminal_blank m id job :
  getJob id m = Some job → isTerminal m id = false → wellFormed job →
  job_imageUrl job = None ∧ job_error job = None.
Proof.
  unfold isTerminal, statusOf, wellFormed. intros -> Hnt. simpl in Hnt.
  by destruct (job_status job).
Qed.

Lemma wellFormed_started job client :
  job_imageUrl job = None → job_error job = None →
  wellFormed match client with
             | Some t => mergeJob (mergeJob job markGenerating) (markError t)
             | None => mergeJob job markGenerating
             end.
Proof.
  intros Hu He. destruct client; unfold wellFormed; simpl; rewrite ?Hu, ?He; eauto.
Qed.

Lemma wellFormed_settled job o :
  job_imageUrl job = None → job_error job = None →
  wellFormed (mergeJob job match o with
                           | Fulfilled url => markComplete url
                           | Rejected t => markError t
                           end).
Proof.
  intros Hu He. destruct o; unfold wellFormed; simpl; rewrite ?Hu, ?He; eauto.
Qed.

Lemma wellFormed_step conc (jobIds : list string) s e s' :
  Fresh s →
  (∀ id job, id ∈ jobIds → getJob id (store s) = Some job → wellFormed job) →
  Step conc s e s' →
  ∀ id job, id ∈ jobIds → getJob id (store s') = Some job → wellFormed job.
Proof.
  intros [_ Hqueue Hflight] HW Hstep.
  destruct Hstep as [| |c jobId rest m returned Hpc Hadm Hq Hstart| | |
                    |woken i o u Hpc Hi Hu|];
    try done; simpl; intros id job Hid.
  - name_start Hstart. destruct (decide (jobId = id)) as [->|Hne].
    + rewrite getJob_processJob_start.
      destruct (getJob id (store s)) as [job0|] eqn:Hjob0; [|done].
      intros [= <-].
      destruct (nonterminal_blank _ _ _ Hjob0) as [Hurl Herr].
      * apply Hqueue. rewrite Hq. by left.
      * by apply (HW id).
      * by apply wellFormed_started.
    + rewrite processJob_start_other by done. by apply HW.
  - destruct (decide (unit_jobId u = id)) as [<-|Hne].
    + rewrite getJob_processJob_resume.
      destruct (getJob (unit_jobId u) (store s)) as [job0|] eqn:Hjob0; [|done].
      intros [= <-].
      destruct (nonterminal_blank _ _ _ Hjob0) as [Hurl Herr].
      * apply Hflight. by apply (pendingIds_lookup _ i).
      * by apply (HW (unit_jobId u)).
      * by apply wellFormed_settled.
    + rewrite processJob_resume_other by done. by apply HW.
Qed.

(** X8. Let [processJobs] be started on distinct jobs none of which is
    terminal and each of which has neither image nor error.  Then in
    every state of the run every job of the list has an image exactly
    when it is 'complete' and an error message exactly when it is
    'error'. *)
Theorem jobs_stay_wellFormed (conc : number) (jobIds : list string)
    (m : JobManager) (es : list Event) (s : Dispatcher) :
  NoDup jobIds →
  (∀ id job, id ∈ jobIds → getJob id m = Some job →
     terminal (job_status job) = false ∧
     job_imageUrl job = None ∧ job_error job = None) →
  run conc es (processJobs_init jobIds m) = Some s →
  ∀ id job, id ∈ jobIds → getJob id (store s) = Some job →
    (is_Some (job_imageUrl job) ↔ job_status job = Complete) ∧
    (is_Some (job_error job) ↔ job_status job = Error).
Proof.
  intros Hnd Hm Hrun.
  assert (Fresh s ∧
          ∀ id job, id ∈ jobIds → getJob id (store s) = Some job → wellFormed job)
    as [_ HW].
  { revert Hrun.
    apply (run_preserves conc (λ s,
      Fresh s ∧
      ∀ id job, id ∈ jobIds → getJob id (store s) = Some job → wellFormed job)).
    - intros s1 e s2 [HF HW] Hstep. split; [by eapply Fresh_step|].
      by eapply wellFormed_step.
    - split.
      + apply Fresh_init; [done|]. intros id Hid. unfold isTerminal, statusOf.
        destruct (getJob id m) as [job|] eqn:Hjob; [|done]. simpl.
        by destruct (Hm id job Hid Hjob).
      + simpl. intros id job Hid Hjob.
        destruct (Hm id job Hid Hjob) as (Hnt & Hu & He).
        unfold wellFormed. rewrite Hu, He. by destruct (job_status job). }
  intros id job Hid Hjob. specialize (HW id job Hid Hjob).
  unfold wellFormed in HW.
  destruct (job_status job); destruct HW as [Hu He]; rewrite ?Hu, ?He;
    split; split; try done; intros H; try (by destruct H); by eexists.
Qed.

Lemma jobs_stay_wellFormed_witness :
  let init := processJobs_init (sampleBatch 3).1 (sampleBatch 3).2 in
  let s := default init (run (Some 2%Z) sampleRunLaterFirst init) in
  match getJob "1" (store s) with
  | Some job => is_Some (job_imageUrl job) ↔ job_status job = Complete
  | None => False
  end.
Proof.
  intros init s.
  destruct (getJob "1" (store s)) as [job|] eqn:Hjob; [|by vm_compute in Hjob].
  refine (proj1 (jobs_stay_wellFormed (Some 2%Z) (sampleBatch 3).1
                   (sampleBatch 3).2 sampleRunLaterFirst s _ _ _ "1" job _ Hjob)).
  - apply (bool_decide_unpack _). by vm_compute.
  - intros id job0 Hid%list_elem_of_In Hj. vm_compute in Hid.
    destruct Hid as [<-|[<-|[<-|[]]]]; vm_compute in Hj; by injection Hj as <-.
  - by vm_compute.
  - apply (bool_decide_unpack _). by vm_compute.
Defined.

(** ** The dispatcher: how a run starts and how it ends *)

Lemma startAll_snoc ids id m :
  startAll (ids ++ [id]) m = (processJob_start id None (startAll ids m)).1.
Proof. unfold startAll. by rewrite foldl_app. Qed.

Lemma startAll_other ids m id :
  id ∉ ids → getJob id (startAll ids m) = getJob id m.
Proof.
  induction ids as [|j ids IH] using rev_ind; [done|].
  intros Hid. rewrite startAll_snoc, processJob_start_other.
  - apply IH. intros ?. apply Hid, elem_of_app. by left.
  - intros ->. apply Hid, elem_of_app. right. by left.
Qed.

Lemma startAll_status ids m id :
  id ∈ ids → statusOf id (startAll ids m) = (λ _, Generating) <$> getJob id m.
Proof.
  induction ids as [|j ids IH] using rev_ind; [by intros ?%elem_of_nil|].
  intros Hid. rewrite startAll_snoc.
  destruct (decide (j = id)) as [->|Hne].
  - rewrite processJob_start_status.
    destruct (decide (id ∈ ids)) as [Hin|Hnot].
    + specialize (IH Hin). unfold statusOf in IH.
      destruct (getJob id (startAll ids m)), (getJob id m); done.
    + by rewrite startAll_other.
  - unfold statusOf. rewrite processJob_start_other by done.
    apply IH. apply elem_of_app in Hid as [?|?%list_elem_of_singleton]; done.
Qed.

Lemma pendingIds_flightUnits ids : pendingIds (flightUnit <$> ids) = ids.
Proof.
  unfold pendingIds. induction ids as [|id ids IH]; [done|].
  rewrite fmap_cons, filter_cons_True by done. by rewrite fmap_cons, IH.
Qed.

(** The inner loop admits [j] jobs in a row while there is room. *)
Lemma admit_many (k : Z) (j : nat) (s : Dispatcher) :
  pc s = AtInner → j ≤ length (queue s) →
  length (active s) + j ≤ Z.to_nat k →
  run (Some k) (replicate j (EvRun None)) s =
  Some {| store := startAll (take j (queue s)) (store s);
          queue := drop j (queue s);
          active := active s ++ (flightUnit <$> take j (queue s));
          pc := AtInner |}.
Proof.
  revert s. induction j as [|j IH]; intros s Hpc Hq Hroom.
  - destruct s as [m q a p]. simpl in *. subst p.
    by rewrite ?take_0, ?drop_0, app_nil_r.
  - destruct s as [m q a p]. simpl in *. subst p.
    destruct q as [|jobId rest]; simpl in Hq; [lia|].
    unfold step, mayAdmit; simpl.
    rewrite (bool_decide_eq_true_2 (Z.of_nat (length a) < k)%Z) by lia.
    simpl. rewrite IH; simpl; [|done|lia|rewrite length_app; simpl; lia].
    by rewrite <- app_assoc.
Qed.

(** X9. Started with limit [k ≥ 1] on a list that is not empty, and
    with a client at hand, [processJobs] admits the first [min k n]
    jobs of the list before it suspends for the first time, and no
    more: these jobs are in flight (and 'generating', if the store
    holds them), the others are queued and untouched.  A limit above
    the number of jobs admits them all at once. *)
Theorem initial_saturation (k : Z) (jobIds : list string) (m : JobManager) :
  (1 ≤ k)%Z → jobIds ≠ [] →
  let c := Z.to_nat k `min` length jobIds in
  let s := {| store := startAll (take c jobIds) m;
              queue := drop c jobIds;
              active := flightUnit <$> take c jobIds;
              pc := AtAwait false |} in
  run (Some k) (replicate (c + 2) (EvRun None)) (processJobs_init jobIds m)
    = Some s ∧
  length (inFlight s) = c ∧
  (∀ id, id ∈ take c jobIds → is_Some (getJob id m) →
         statusOf id (store s) = Some Generating) ∧
  (∀ id, id ∉ take c jobIds → getJob id (store s) = getJob id m).
Proof.
  intros Hk Hne c s.
  assert (1 ≤ c) as Hc.
  { unfold c. destruct jobIds; [done|]. simpl. lia. }
  split_and!.
  - replace (c + 2) with (S (c + 1)) by lia.
    rewrite replicate_S, replicate_add. cbn [run replicate].
    unfold step at 1. cbn [pc processJobs_init queue active].
    rewrite (bool_decide_eq_true_2 (jobIds ≠ [])) by done. cbn [orb].
    rewrite run_app.
    rewrite (admit_many k c); cbn [pc with_pc queue active processJobs_init length];
      [|done|unfold c; lia|unfold c; lia].
    cbn [mbind option_bind run app].
    unfold step, mayAdmit. cbn [pc queue active store lt_num].
    assert (bool_decide (Z.of_nat (length (flightUnit <$> take c jobIds)) < k)%Z
            && bool_decide (drop c jobIds ≠ []) = false) as ->.
    { rewrite length_fmap, length_take.
      destruct (decide (Z.to_nat k ≤ length jobIds)).
      - rewrite bool_decide_eq_false_2; [done|]. unfold c. lia.
      - rewrite (bool_decide_eq_false_2 (drop c jobIds ≠ [])).
        + apply andb_false_r.
        + intros Hd. apply Hd, drop_ge. unfold c. lia. }
    rewrite (bool_decide_eq_true_2 (flightUnit <$> take c jobIds ≠ [])).
    + by destruct (drop c jobIds).
    + intros Hnil%(f_equal length).
      rewrite length_fmap, length_take in Hnil. simpl in Hnil. unfold c in *. lia.
  - unfold inFlight, s; simpl.
    rewrite pendingIds_flightUnits, length_take. unfold c. lia.
  - intros id Hid [job Hjob]. simpl.
    by rewrite startAll_status, Hjob.
  - intros id Hid. simpl. by apply startAll_other.
Qed.

Lemma initial_saturation_witness :
  run (Some 2%Z) (replicate 4 (EvRun None))
      (processJobs_init (sampleBatch 3).1 (sampleBatch 3).2)
  = Some {| store := startAll ["0"; "1"] (sampleBatch 3).2;
            queue := ["2"];
            active := [flightUnit "0"; flightUnit "1"];
            pc := AtAwait false |}.
Proof.
  refine (proj1 (initial_saturation 2 (sampleBatch 3).1 (sampleBatch 3).2 _ _)).
  - lia.
  - by vm_compute.
Defined.

(** X10. Started without a limit (the field is missing or not a
    number) or with a limit below 1 on a list that is not empty,
    [processJobs] goes round its outer loop for ever: it admits
    nothing, never suspends, never returns, and since it never suspends
    nothing else gets to run.  The validation of the handler lets a
    missing concurrency through. *)
Theorem processJobs_spins_without_limit (conc : number) (jobIds : list string)
    (m : JobManager) (es : list Event) (s : Dispatcher) :
  jobIds ≠ [] →
  conc = None ∨ (∃ k, conc = Some k ∧ (k < 1)%Z) →
  run conc es (processJobs_init jobIds m) = Some s →
  (s = processJobs_init jobIds m ∨ s = with_pc (processJobs_init jobIds m) AtInner) ∧
  Forall (λ e, ∃ client, e = EvRun client) es ∧
  (∀ client, is_Some (step conc s (EvRun client))) ∧
  outOfRange None 1 5 = false.
Proof.
  intros Hne Hconc Hrun.
  assert (lt_num (Some 0%Z) conc = false) as Hlt.
  { destruct Hconc as [->|(k & -> & Hk)]; [done|].
    simpl. apply bool_decide_eq_false_2. lia. }
  set (init := processJobs_init jobIds m) in *.
  assert (∀ s0, s0 = init ∨ s0 = with_pc init AtInner →
            ∀ e s1, step conc s0 e = Some s1 →
              (s1 = init ∨ s1 = with_pc init AtInner) ∧ ∃ client, e = EvRun client)
    as Hstep.
  { intros s0 [->| ->] e s1; unfold step, mayAdmit, init;
      cbn [pc with_pc processJobs_init queue active store length Z.of_nat].
    - destruct e; [|done..].
      rewrite (bool_decide_eq_true_2 (jobIds ≠ [])) by done. cbn [orb].
      intros [= <-]. split; [by right|by eexists].
    - destruct e; [|done..]. change (Z.of_nat 0) with 0%Z.
      rewrite Hlt. cbn [andb].
      rewrite (bool_decide_eq_false_2 ([] ≠ [])) by (intros H; by apply H).
      intros [= <-]. split; [by left|by eexists]. }
  assert (∀ s0, s0 = init ∨ s0 = with_pc init AtInner →
            run conc es s0 = Some s →
            (s = init ∨ s = with_pc init AtInner) ∧
            Forall (λ e, ∃ client, e = EvRun client) es) as Hall.
  { clear Hrun. induction es as [|e es IH]; intros s0 Hs0; simpl.
    - intros [= <-]. by split.
    - destruct (step conc s0 e) as [s1|] eqn:He; [|done].
      destruct (Hstep s0 Hs0 e s1 He) as [Hs1 Hev]. intros Hrun.
      destruct (IH s1 Hs1 Hrun) as [Hs Hes]. split; [done|by constructor]. }
  destruct (Hall init (or_introl eq_refl) Hrun) as [Hs Hes].
  split_and!; [done|done| |done].
  intros client. destruct Hs as [->| ->]; unfold step, mayAdmit, init;
    cbn [pc with_pc processJobs_init queue active store length Z.of_nat].
  - by rewrite (bool_decide_eq_true_2 (jobIds ≠ [])).
  - change (Z.of_nat 0) with 0%Z. rewrite Hlt. cbn [andb]. by case_bool_decide.
Qed.

Lemma processJobs_spins_without_limit_witness :
  pc <$> run None (replicate 6 (EvRun None))
           (processJobs_init (sampleBatch 3).1 (sampleBatch 3).2) = Some AtOuter ∧
  Forall (λ e, ∃ client, e = EvRun client) [EvRun None; EvRun None; EvRun None].
Proof.
  split; [by vm_compute|].
  refine (proj1 (proj2
    (processJobs_spins_without_limit None (sampleBatch 3).1 (sampleBatch 3).2
       [EvRun None; EvRun None; EvRun None] _ _ _ _))).
  - by vm_compute.
  - by left.
  - by vm_compute.
Defined.

(** A property kept by every transition whose event satisfies [E]
    holds after every run of such events. *)
Lemma run_preserves_when conc (E : Event → Prop) (P : Dispatcher → Prop) :
  (∀ s e s', P s → E e → Step conc s e s' → P s') →
  ∀ es s s', Forall E es → P s → run conc es s = Some s' → P s'.
Proof.
  intros Hstep es. induction es as [|e es IH]; intros s s' HE Hs; simpl.
  - by intros [= <-].
  - destruct (step conc s e) as [s1|] eqn:He; [|done].
    apply Forall_cons in HE as [He1 HE].
    apply IH; [done|]. eapply Hstep; [done..|]. by apply step_Step.
Qed.

(** X11. Let [processJobs] run on distinct jobs none of which is
    terminal.  When the provider call of a job that the store holds is
    fulfilled with an image, the job is 'complete' with that image in
    the store from then on, to the end of the run; when it is rejected,
    the job is 'error' with the caught message from then on. *)
Theorem outcome_is_kept (conc : number) (jobIds : list string)
    (m : JobManager) (es es' : list Event) (s s' s'' : Dispatcher)
    (i : nat) (u : Unit) (o : Outcome) :
  NoDup jobIds →
  (∀ j, j ∈ jobIds → isTerminal m j = false) →
  is_Some (getJob (unit_jobId u) m) →
  run conc es (processJobs_init jobIds m) = Some s →
  active s !! i = Some u →
  step conc s (EvSettle i o) = Some s' →
  run conc es' s' = Some s'' →
  ∃ job, getJob (unit_jobId u) (store s'') = Some job ∧
         match o with
         | Fulfilled url =>
             job_status job = Complete ∧ job_imageUrl job = Some url
         | Rejected t =>
             job_status job = Error ∧ job_error job = Some (caughtMessage t)
         end.
Proof.
  intros Hnd Hm Hheld Hrun Hi Hstep Hrun'.
  assert (Fresh s') as HF'.
  { apply (run_preserves conc Fresh) with (es := es ++ [EvSettle i o])
                                          (s := processJobs_init jobIds m).
    - intros ???. apply Fresh_step.
    - by apply Fresh_init.
    - rewrite run_app, Hrun. simpl. by rewrite Hstep. }
  assert (is_Some (getJob (unit_jobId u) (store s))) as [job0 Hjob0].
  { apply (run_keeps_jobs conc [unit_jobId u] es (processJobs_init jobIds m));
      [|done|by left].
    by intros ? ->%list_elem_of_singleton. }
  assert (store s' = processJob_resume (unit_jobId u) o (store s)) as Hs'.
  { revert Hstep. unfold step. rewrite Hi.
    destruct (pc s) as [| |[|]|]; try done;
      destruct (unit_returned u); try done; by intros [= <-]. }
  assert (getJob (unit_jobId u) (store s')
          = Some (mergeJob job0 match o with
                                | Fulfilled url => markComplete url
                                | Rejected t => markError t
                                end)) as Hjob'.
  { by rewrite Hs', getJob_processJob_resume, Hjob0. }
  eexists. split.
  - rewrite (Fresh_run_final conc es' s' s''); [exact Hjob'|done..|].
    unfold isTerminal, statusOf. rewrite Hjob'. by destruct o.
  - by destruct o.
Qed.

Lemma outcome_is_kept_witness :
  let init := processJobs_init (sampleBatch 3).1 (sampleBatch 3).2 in
  let s := default init (run (Some 2%Z) sampleRun init) in
  let s' := default init
              (step (Some 2%Z) s (EvSettle 1 (Fulfilled "data:image/png;base64,AA"))) in
  let s'' := default init
               (run (Some 2%Z) [EvFinally 1; EvRun None; EvRun None; EvRun None] s') in
  job_imageUrl <$> getJob "1" (store s'') = Some (Some "data:image/png;base64,AA").
Proof.
  intros init s s' s''.
  destruct (outcome_is_kept (Some 2%Z) (sampleBatch 3).1 (sampleBatch 3).2
              sampleRun [EvFinally 1; EvRun None; EvRun None; EvRun None]
              s s' s'' 1 (flightUnit "1") (Fulfilled "data:image/png;base64,AA"))
    as (job & Hjob & _ & Hurl).
  - apply (bool_decide_unpack _). by vm_compute.
  - apply (check_ids (λ id, isTerminal _ id = false)). by vm_compute.
  - vm_compute. by eexists.
  - by vm_compute.
  - by vm_compute.
  - by vm_compute.
  - by vm_compute.
  - cbn [unit_jobId flightUnit] in Hjob. rewrite Hjob. simpl. by rewrite Hurl.
Defined.

(** X12. If [getGeminiClient()] throws [t] each time a job is
    admitted (the API key is missing), no provider call is ever in
    flight, and every job that has left the queue and that the store
    holds is 'error' with the message of [t]; when [processJobs] has
    returned these are all the jobs of the list. *)
Theorem missing_client_fails_every_job (conc : number) (jobIds : list string)
    (m : JobManager) (t : Thrown) (es : list Event) (s : Dispatcher) :
  Forall (clientThrows t) es →
  run conc es (processJobs_init jobIds m) = Some s →
  inFlight s = [] ∧
  (∀ id job, id ∈ jobIds → id ∉ queue s → getJob id (store s) = Some job →
     job_status job = Error ∧ job_error job = Some (caughtMessage t)) ∧
  (pc s = Finished → queue s = []) ∧
  (getGeminiClient None None).1
    = inl (ThrownError "GEMINI_API_KEY environment variable is required").
Proof.
  intros HE Hrun.
  pose (P := λ s : Dispatcher,
    inFlight s = [] ∧
    ∃ pre, jobIds = pre ++ queue s ∧
      ∀ id job, id ∈ pre → getJob id (store s) = Some job →
        job_status job = Error ∧ job_error job = Some (caughtMessage t)).
  assert (P s) as (Hfl & pre & Hpre & Herr).
  { eapply (run_preserves_when conc (clientThrows t) P);
      [|exact HE| |exact Hrun];
      [|split; [done|exists []; split; [done|by intros ?? ?%elem_of_nil]]].
    clear. intros s e s' (Hfl & pre & Hpre & Herr) He Hstep.
    destruct Hstep as [| |c jobId rest m returned Hpc Hadm Hq Hstart| | |
                      |woken i o u Hpc Hi Hu|woken i u Hpc Hi Hu];
      try (by split; [|exists pre]).
    - simpl in He. subst c. name_start Hstart. split.
      + unfold inFlight in *; simpl. rewrite pendingIds_snoc, Hfl. done.
      + exists (pre ++ [jobId]). split; [by rewrite Hpre, Hq, <- app_assoc|].
        cbn [store]. intros id job Hid.
        destruct (decide (jobId = id)) as [->|Hne].
        * rewrite getJob_processJob_start.
          destruct (getJob id (store s)); [|done]. by intros [= <-].
        * rewrite processJob_start_other by done.
          apply Herr. apply elem_of_app in Hid as [?|?%list_elem_of_singleton]; done.
    - exfalso. pose proof (pendingIds_lookup _ _ _ Hi Hu) as Hin.
      unfold inFlight in Hfl. rewrite Hfl in Hin. by apply elem_of_nil in Hin.
    - split.
      + unfold inFlight in *; simpl. by rewrite (pendingIds_delete _ _ _ Hi Hu).
      + by exists pre. }
  split_and!; [done| | |done].
  - intros id job Hid Hq. apply Herr.
    rewrite Hpre in Hid. apply elem_of_app in Hid as [?|?]; done.
  - intros Hpc. by destruct (inv_finished _ _ _ (Inv_run _ _ _ _ _ Hrun) Hpc).
Qed.

Lemma missing_client_fails_every_job_witness :
  let t := ThrownError "GEMINI_API_KEY environment variable is required" in
  let es := [EvRun (Some t); EvRun (Some t); EvRun (Some t); EvRun (Some t)] in
  let init := processJobs_init (sampleBatch 3).1 (sampleBatch 3).2 in
  inFlight (default init (run (Some 2%Z) es init)) = [] ∧
  statusOf "1" (store (default init (run (Some 2%Z) es init))) = Some Error.
Proof.
  intros t es init. split; [|by vm_compute].
  refine (proj1 (missing_client_fails_every_job (Some 2%Z) (sampleBatch 3).1
                   (sampleBatch 3).2 t es _ _ _)).
  - by repeat constructor.
  - by vm_compute.
Defined.
(** ** The submit handler: [processJobs] up to its first suspension *)

Lemma run_identity conc es s s' id :
  run conc es s = Some s' →
  identity <$> getJob id (store s') = identity <$> getJob id (store s).
Proof.
  revert s. induction es as [|e es IH]; intros s; simpl.
  - by intros [= <-].
  - destruct (step conc s e) as [s1|] eqn:He; [|done].
    intros Hrun. rewrite (IH _ Hrun). by eapply Step_identity, step_Step.
Qed.

Lemma run_batches conc es s s' :
  run conc es s = Some s' → batches (store s') = batches (store s).
Proof.
  revert s. induction es as [|e es IH]; intros s; simpl.
  - by intros [= <-].
  - destruct (step conc s e) as [s1|] eqn:He; [|done].
    intros Hrun. rewrite (IH _ Hrun). by eapply Step_keeps_batches, step_Step.
Qed.

Lemma startEach_snoc client ids id m :
  startEach client (ids ++ [id]) m
  = (processJob_start id client (startEach client ids m)).1.
Proof. unfold startEach. by rewrite foldl_app. Qed.

Lemma startEach_other client ids m id :
  id ∉ ids → getJob id (startEach client ids m) = getJob id m.
Proof.
  induction ids as [|j ids IH] using rev_ind; [done|].
  intros Hid. rewrite startEach_snoc, processJob_start_other.
  - apply IH. intros ?. apply Hid, elem_of_app. by left.
  - intros ->. apply Hid, elem_of_app. right. by left.
Qed.

Lemma startEach_batches client ids m :
  batches (startEach client ids m) = batches m.
Proof.
  induction ids as [|j ids IH] using rev_ind; [done|].
  by rewrite startEach_snoc, processJob_start_batches.
Qed.

(** Starting a job that is pending, or was started before under the
    same conditions, leaves it started. *)
Lemma startedJob_start client id job :
  pendingJob id job ∨ startedJob client id job →
  startedJob client id
    match client with
    | Some t => mergeJob (mergeJob job markGenerating) (markError t)
    | None => mergeJob job markGenerating
    end.
Proof.
  intros [(Hid & Hst & Hu & He)|(Hid & Hst & Hu & He)];
    destruct client as [t|]; unfold startedJob; simpl; by rewrite ?Hid, ?Hu, ?He.
Qed.

Lemma startEach_started client ids m id job :
  id ∈ ids → getJob id m = Some job → pendingJob id job →
  ∃ job', getJob id (startEach client ids m) = Some job' ∧
          startedJob client id job'.
Proof.
  intros Hid Hjob Hpending. revert Hid.
  induction ids as [|j ids IH] using rev_ind; [by intros ?%elem_of_nil|].
  intros Hid. rewrite startEach_snoc.
  destruct (decide (j = id)) as [->|Hne].
  - rewrite getJob_processJob_start.
    destruct (decide (id ∈ ids)) as [Hin|Hnot].
    + destruct (IH Hin) as (job' & -> & Hstarted). eexists. split; [done|].
      apply startedJob_start. by right.
    + rewrite startEach_other, Hjob by done. eexists. split; [done|].
      apply startedJob_start. by left.
  - rewrite processJob_start_other by done. apply IH.
    apply elem_of_app in Hid as [?|?%list_elem_of_singleton]; done.
Qed.

(** More fuel does not change a result. *)
Lemma processJobs_sync_more conc client fuel fuel' s s' :
  processJobs_sync conc client fuel s = Some s' → fuel ≤ fuel' →
  processJobs_sync conc client fuel' s = Some s'.
Proof.
  revert fuel' s. induction fuel as [|fuel IH]; intros fuel' s; simpl.
  - destruct fuel'; simpl; by destruct (pc s) as [| |[|]|].
  - destruct fuel' as [|fuel']; [lia|]. simpl. intros Hs Hle.
    destruct (pc s) as [| |[|]|]; try done;
      (destruct (step conc s (EvRun client)) as [s1|]; [|done];
       apply IH; [done|lia]).
Qed.

(** The stretch is a run of the dispatcher in which only [processJobs]
    itself moves. *)
Lemma processJobs_sync_run conc client fuel s s' :
  processJobs_sync conc client fuel s = Some s' →
  ∃ j, run conc (replicate j (EvRun client)) s = Some s'.
Proof.
  revert s. induction fuel as [|fuel IH]; intros s; simpl.
  - destruct (pc s) as [| |[|]|]; try done; intros [= <-]; by exists 0.
  - destruct (pc s) as [| |[|]|] eqn:Hpc;
      try (intros [= <-]; by exists 0);
      (destruct (step conc s (EvRun client)) as [s1|] eqn:Hstep; [|done];
       intros (j & Hrun)%IH; exists (S j); simpl; by rewrite Hstep).
Qed.

(** The inner loop admits [j] jobs in a row while there is room. *)
Lemma processJobs_sync_admits (k : Z) client (j fuel : nat) (s : Dispatcher) :
  pc s = AtInner → j ≤ length (queue s) →
  length (active s) + j ≤ Z.to_nat k →
  processJobs_sync (Some k) client (j + fuel) s =
  processJobs_sync (Some k) client fuel
    {| store := startEach client (take j (queue s)) (store s);
       queue := drop j (queue s);
       active := active s ++ (admittedUnit client <$> take j (queue s));
       pc := AtInner |}.
Proof.
  revert s. induction j as [|j IH]; intros s Hpc Hq Hroom.
  - destruct s as [m q a p]. simpl in *. subst p.
    by rewrite ?take_0, ?drop_0, app_nil_r.
  - destruct s as [m q a p]. simpl in *. subst p.
    destruct q as [|jobId rest]; simpl in Hq; [lia|].
    unfold step, mayAdmit; cbn [pc queue active store lt_num].
    rewrite (bool_decide_eq_true_2 (Z.of_nat (length a) < k)%Z) by lia.
    rewrite (bool_decide_eq_true_2 (jobId :: rest ≠ [])) by done.
    cbn [andb].
    destruct (processJob_start jobId client m) as [m1 returned] eqn:Hstart.
    rewrite IH; cbn [pc queue active store];
      [|done|lia|rewrite length_app; simpl; lia].
    assert (m1 = (processJob_start jobId client m).1) as -> by by rewrite Hstart.
    assert (returned = unit_returned (admittedUnit client jobId)) as ->.
    { pose proof (processJob_start_returned jobId client m) as Hr.
      rewrite Hstart in Hr. simpl in Hr. rewrite Hr. by destruct client. }
    by rewrite <- app_assoc.
Qed.

(** With a limit of at least 1 and a list that is not empty,
    [processJobs] admits the first [min k n] jobs and suspends. *)
Lemma processJobs_sync_saturates (k : Z) client (jobIds : list string)
    (m : JobManager) (fuel : nat) :
  (1 ≤ k)%Z → jobIds ≠ [] →
  Z.to_nat k `min` length jobIds + 2 ≤ fuel →
  processJobs_sync (Some k) client fuel (processJobs_init jobIds m) =
  Some {| store := startEach client (take (Z.to_nat k `min` length jobIds) jobIds) m;
          queue := drop (Z.to_nat k `min` length jobIds) jobIds;
          active := admittedUnit client
                      <$> take (Z.to_nat k `min` length jobIds) jobIds;
          pc := AtAwait false |}.
Proof.
  intros Hk Hne Hfuel. set (c := Z.to_nat k `min` length jobIds) in *.
  assert (1 ≤ c) as Hc.
  { unfold c. destruct jobIds; [done|]. simpl. lia. }
  replace fuel with (S (c + S (fuel - c - 2))) by lia.
  cbn [processJobs_sync processJobs_init pc].
  unfold step at 1. cbn [pc queue active processJobs_init].
  rewrite (bool_decide_eq_true_2 (jobIds ≠ [])) by done. cbn [orb].
  rewrite (processJobs_sync_admits k client c);
    cbn [pc with_pc queue active store length processJobs_init];
    [|done|unfold c; lia|unfold c; lia].
  cbn [processJobs_sync pc app].
  unfold step, mayAdmit. cbn [pc queue active store lt_num].
  assert (bool_decide (Z.of_nat (length (admittedUnit client <$> take c jobIds)) < k)%Z
          && bool_decide (drop c jobIds ≠ []) = false) as ->.
  { rewrite length_fmap, length_take.
    destruct (decide (Z.to_nat k ≤ length jobIds)).
    - rewrite bool_decide_eq_false_2; [done|]. unfold c. lia.
    - rewrite (bool_decide_eq_false_2 (drop c jobIds ≠ [])).
      + apply andb_false_r.
      + intros Hd. apply Hd, drop_ge. unfold c. lia. }
  rewrite (bool_decide_eq_true_2 (admittedUnit client <$> take c jobIds ≠ [])).
  - destruct (drop c jobIds); by destruct (fuel - c - 2).
  - intros Hnil%(f_equal length).
    rewrite length_fmap, length_take in Hnil. simpl in Hnil. unfold c in *. lia.
Qed.

(** On an empty list [processJobs] returns at its first loop test. *)
Lemma processJobs_sync_empty conc client (m : JobManager) (fuel : nat) :
  1 ≤ fuel →
  processJobs_sync conc client fuel (processJobs_init [] m)
  = Some (with_pc (processJobs_init [] m) Finished).
Proof. destruct fuel as [|[|fuel]]; [lia|done..]. Qed.

(** Without a limit, or with a limit below 1, and with a list that is
    not empty, [processJobs] reaches neither a suspension nor its
    return. *)
Lemma processJobs_sync_spins conc client (jobIds : list string)
    (m : JobManager) (fuel : nat) :
  lt_num (Some 0%Z) conc = false → jobIds ≠ [] →
  processJobs_sync conc client fuel (processJobs_init jobIds m) = None.
Proof.
  intros Hlt Hne.
  assert (processJobs_sync conc client fuel (processJobs_init jobIds m) = None ∧
          processJobs_sync conc client fuel
            (with_pc (processJobs_init jobIds m) AtInner) = None) as [H _]; [|done].
  induction fuel as [|fuel [IH1 IH2]]; [done|].
  split; cbn [processJobs_sync processJobs_init with_pc pc];
    unfold step, mayAdmit;
    cbn [pc queue active store length Z.of_nat processJobs_init with_pc].
  - rewrite (bool_decide_eq_true_2 (jobIds ≠ [])) by done. exact IH2.
  - change (Z.of_nat 0) with 0%Z. rewrite Hlt. cbn [andb].
    rewrite (bool_decide_eq_false_2 (@nil Unit ≠ [])) by (by intros ?).
    exact IH1.
Qed.

(** The fuel that the handler gives is enough whenever any is. *)
Lemma processJobs_sync_fuel conc client (jobIds : list string)
    (m : JobManager) (fuel : nat) (s : Dispatcher) :
  processJobs_sync conc client fuel (processJobs_init jobIds m) = Some s →
  processJobs_sync conc client (length jobIds + 2) (processJobs_init jobIds m)
  = Some s.
Proof.
  intros Hs.
  assert (∃ s', processJobs_sync conc client (length jobIds + 2)
                  (processJobs_init jobIds m) = Some s') as [s' Hs'].
  { destruct jobIds as [|jobId rest].
    - eexists. apply processJobs_sync_empty. simpl. lia.
    - destruct (lt_num (Some 0%Z) conc) eqn:Hlt.
      + destruct conc as [k|]; [|done]. simpl in Hlt.
        apply bool_decide_eq_true_1 in Hlt. eexists.
        apply processJobs_sync_saturates; [lia|done|lia].
      + by rewrite processJobs_sync_spins in Hs. }
  pose proof (processJobs_sync_more _ _ _ (fuel `max` (length jobIds + 2)) _ _ Hs)
    as H1.
  pose proof (processJobs_sync_more _ _ _ (fuel `max` (length jobIds + 2)) _ _ Hs')
    as H2.
  rewrite H1 in H2 by lia. rewrite Hs'. symmetry. apply H2. lia.
Qed.

(** ** The submit handler and the status endpoint *)

Lemma elem_of_take_in {A} (x : A) (k : nat) (l : list A) :
  x ∈ take k l → x ∈ l.
Proof. intros H. rewrite <- (take_drop k l). apply elem_of_app. by left. Qed.

(** The handler on a request that passes its checks: the jobs and the
    batch are created, [processJobs] runs to its first suspension or
    its return, and the answer names the jobs. *)
Lemma POST_passes (randomUUID : nat → string) (dateNow : nat → Z)
    (client : option Thrown) (body : GenerateRequest) (m : JobManager) :
  promptRejected (prompt body) = false →
  outOfRange (imageCount body) 1 10 = false →
  outOfRange (concurrency body) 1 5 = false →
  POST randomUUID dateNow client (Some body) m =
  (λ s, {| response :=
             {| resp_status := 200;
                resp_body := GenerateBody (randomUUID (rounds (imageCount body)))
                               (randomUUID <$> seq 0 (rounds (imageCount body)))
                               Pending |};
           manager := store s;
           dispatched := Some (randomUUID <$> seq 0 (rounds (imageCount body)),
                               concurrency body);
           dispatcher := Some s |})
  <$> processJobs_sync (concurrency body) client
        (length (randomUUID <$> seq 0 (rounds (imageCount body))) + 2)
        (processJobs_init (randomUUID <$> seq 0 (rounds (imageCount body)))
           (createBatch (randomUUID (rounds (imageCount body)))
              (dateNow (rounds (imageCount body)))
              (randomUUID <$> seq 0 (rounds (imageCount body)))
              (concurrency body)
              (createJobs randomUUID dateNow (rounds (imageCount body)) 0 m).2).2).
Proof.
  intros Hp Hn Hc. unfold POST. rewrite Hp, Hn, Hc.
  pose proof (createJobs_spec randomUUID dateNow (rounds (imageCount body)) 0 m)
    as Hspec.
  destruct (createJobs randomUUID dateNow (rounds (imageCount body)) 0 m)
    as [ids m1].
  cbn [fst snd] in *. destruct Hspec as (-> & _). unfold createBatch.
  cbn [fst snd].
  by destruct (processJobs_sync _ _ _ _).
Qed.

Lemma valid_passes (body : GenerateRequest) (p : string) (n c : Z) :
  prompt body = Some p → 3 ≤ String.length p →
  imageCount body = Some n → (1 ≤ n ≤ 10)%Z →
  concurrency body = Some c → (1 ≤ c ≤ 5)%Z →
  promptRejected (prompt body) = false ∧
  outOfRange (imageCount body) 1 10 = false ∧
  outOfRange (concurrency body) 1 5 = false.
Proof.
  intros Hp Hlen Hn Hnr Hc Hcr. rewrite Hp, Hn, Hc. simpl.
  rewrite (bool_decide_eq_false_2 (p = "")) by (intros ->; simpl in Hlen; lia).
  rewrite (bool_decide_eq_false_2 (String.length p < 3)) by lia.
  unfold outOfRange, lt_num. by rewrite !bool_decide_eq_false_2 by lia.
Qed.

(** The handler on a request with a prompt of at least 3 characters, an
    image count in [1,10] and a concurrency in [1,5]. *)
Lemma POST_valid (randomUUID : nat → string) (dateNow : nat → Z)
    (client : option Thrown) (body : GenerateRequest) (m : JobManager)
    (p : string) (n c : Z) :
  prompt body = Some p → 3 ≤ String.length p →
  imageCount body = Some n → (1 ≤ n ≤ 10)%Z →
  concurrency body = Some c → (1 ≤ c ≤ 5)%Z →
  let jobIds := randomUUID <$> seq 0 (Z.to_nat n) in
  let created :=
    (createBatch (randomUUID (Z.to_nat n)) (dateNow (Z.to_nat n)) jobIds (Some c)
       (createJobs randomUUID dateNow (Z.to_nat n) 0 m).2).2 in
  let k := Z.to_nat c `min` Z.to_nat n in
  let s0 := {| store := startEach client (take k jobIds) created;
               queue := drop k jobIds;
               active := admittedUnit client <$> take k jobIds;
               pc := AtAwait false |} in
  processJobs_sync (Some c) client (length jobIds + 2)
    (processJobs_init jobIds created) = Some s0 ∧
  POST randomUUID dateNow client (Some body) m =
  Some {| response := {| resp_status := 200;
                         resp_body := GenerateBody (randomUUID (Z.to_nat n))
                                        jobIds Pending |};
          manager := store s0;
          dispatched := Some (jobIds, Some c);
          dispatcher := Some s0 |}.
Proof.
  intros Hp Hlen Hn Hnr Hc Hcr jobIds created k s0.
  destruct (valid_passes body p n c) as (Hp' & Hn' & Hc'); [done..|].
  assert (processJobs_sync (Some c) client (length jobIds + 2)
            (processJobs_init jobIds created) = Some s0) as Hsync.
  { assert (length jobIds = Z.to_nat n) as Hl
      by (unfold jobIds; by rewrite length_fmap, length_seq).
    unfold s0, k. rewrite <- Hl.
    apply processJobs_sync_saturates; [lia| |lia].
    intros Hnil. rewrite Hnil in Hl. simpl in Hl. lia. }
  split; [done|].
  rewrite POST_passes by done. rewrite Hn, Hc. cbn [rounds].
  fold jobIds. fold created. by rewrite Hsync.
Qed.

(** X4. A request with a prompt of at least 3 characters, an image
    count [n] in [1,10] and a concurrency [c] in [1,5] is answered, and
    the answer is 200 with the [n] job identifiers drawn from
    [randomUUID], in the order of drawing, and status 'pending'.  When
    the handler answers, [processJobs] has already run to its first
    suspension: the first [min c n] jobs have been started, so they are
    'generating' (or 'error' with the message of what
    [getGeminiClient()] threw), and their provider calls are the
    members of [active]; the other jobs of the request are pending
    without image or error and make up the queue.  The store holds the
    batch with these identifiers and this concurrency; jobs and batches
    stored under other identifiers are as before. *)
Theorem POST_accepts (randomUUID : nat → string) (dateNow : nat → Z)
    (client : option Thrown) (body : GenerateRequest) (m : JobManager)
    (p : string) (n c : Z) :
  prompt body = Some p → 3 ≤ String.length p →
  imageCount body = Some n → (1 ≤ n ≤ 10)%Z →
  concurrency body = Some c → (1 ≤ c ≤ 5)%Z →
  let jobIds := randomUUID <$> seq 0 (Z.to_nat n) in
  let batchId := randomUUID (Z.to_nat n) in
  let k := Z.to_nat c `min` Z.to_nat n in
  ∃ r, POST randomUUID dateNow client (Some body) m = Some r ∧
  response r = {| resp_status := 200;
                  resp_body := GenerateBody batchId jobIds Pending |} ∧
  Z.of_nat (length jobIds) = n ∧
  (∀ id, id ∈ take k jobIds →
     ∃ job, getJob id (manager r) = Some job ∧ startedJob client id job) ∧
  (∀ id, id ∈ jobIds → id ∉ take k jobIds →
     ∃ job, getJob id (manager r) = Some job ∧ pendingJob id job) ∧
  (∀ id, id ∉ jobIds → getJob id (manager r) = getJob id m) ∧
  getBatch batchId (manager r)
    = Some {| batch_id := batchId; batch_jobIds := jobIds;
              batch_concurrency := Some c;
              batch_createdAt := dateNow (Z.to_nat n) |} ∧
  (∀ id, id ≠ batchId → getBatch id (manager r) = getBatch id m) ∧
  dispatched r = Some (jobIds, Some c) ∧
  dispatcher r = Some {| store := manager r;
                         queue := drop k jobIds;
                         active := admittedUnit client <$> take k jobIds;
                         pc := AtAwait false |}.
Proof.
  intros Hp Hlen Hn Hnr Hc Hcr jobIds batchId k.
  destruct (POST_valid randomUUID dateNow client body m p n c) as [_ HPOST];
    [done..|].
  eexists. split; [exact HPOST|]. cbn [response manager dispatched dispatcher store].
  pose proof (createJobs_spec randomUUID dateNow (Z.to_nat n) 0 m) as Hspec.
  destruct (createJobs randomUUID dateNow (Z.to_nat n) 0 m) as [ids m1].
  cbn [fst snd] in *. destruct Hspec as (-> & Hout & Hin & Hb).
  fold jobIds in Hout, Hin. fold jobIds. fold k. unfold createBatch. cbn [snd].
  split_and!; try done.
  - unfold jobIds. rewrite length_fmap, length_seq. lia.
  - intros id Hid.
    destruct (Hin id) as (job & Hjob & Hpending).
    { by eapply elem_of_take_in. }
    by apply (startEach_started _ _ _ _ job).
  - intros id Hid Hnot. rewrite startEach_other by done. by apply Hin.
  - intros id Hid. rewrite startEach_other.
    + by apply Hout.
    + intros Htake. apply Hid. by eapply elem_of_take_in.
  - unfold getBatch. rewrite startEach_batches. cbn [batches].
    by rewrite lookup_insert_eq.
  - intros id Hne. unfold getBatch. rewrite startEach_batches. cbn [batches].
    rewrite lookup_insert_ne by done. by rewrite Hb.
Qed.

Lemma POST_accepts_witness :
  let r := POST sampleUUID sampleClock None
             (Some (sampleRequest (Some 3%Z) (Some 2%Z) (Some "a red fox")))
             emptyManager in
  (response <$> r)
  = Some {| resp_status := 200;
            resp_body := GenerateBody "3" ["0"; "1"; "2"] Pending |} ∧
  (r ≫= λ r, statusOf "0" (manager r)) = Some Generating ∧
  (r ≫= λ r, statusOf "2" (manager r)) = Some Pending.
Proof.
  intros r.
  destruct (POST_accepts sampleUUID sampleClock None
              (sampleRequest (Some 3%Z) (Some 2%Z) (Some "a red fox"))
              emptyManager "a red fox" 3 2)
    as (r' & Hr & Hresp & _ & Hstarted & Hpending & _);
    [reflexivity|simpl; lia|reflexivity|lia|reflexivity|lia|].
  unfold r. rewrite Hr. cbn [fmap option_fmap option_map mbind option_bind].
  split_and!.
  - by rewrite Hresp.
  - destruct (Hstarted "0") as (job & Hjob & _ & Hst & _).
    { apply (bool_decide_unpack _). by vm_compute. }
    unfold statusOf. by rewrite Hjob, <- Hst.
  - destruct (Hpending "2") as (job & Hjob & _ & Hst & _).
    { apply (bool_decide_unpack _). by vm_compute. }
    { apply (bool_decide_unpack _). by vm_compute. }
    unfold statusOf. by rewrite Hjob, <- Hst.
Defined.

(** X5. The handler answers 200, 400 or 500, or does not answer at
    all.  It does not answer exactly when the body passes the three
    checks with a valid image count and without a concurrency: then
    [processJobs] goes round its outer loop for ever before the handler
    gets to build its answer.  When it answers, it answers 200 exactly
    when the body parses and passes the three checks, and [processJobs]
    is then suspended for the first time or has returned; with any
    other answer the store is the one it found and no dispatch was
    started. *)
Theorem POST_outcomes (randomUUID : nat → string) (dateNow : nat → Z)
    (client : option Thrown) (body : option GenerateRequest) (m : JobManager) :
  let accepted :=
    match body with
    | Some b => negb (promptRejected (prompt b))
                && negb (outOfRange (imageCount b) 1 10)
                && negb (outOfRange (concurrency b) 1 5)
    | None => false
    end in
  let spins :=
    match body with
    | Some b => accepted && bool_decide (rounds (imageCount b) ≠ 0)
                && bool_decide (concurrency b = None)
    | None => false
    end in
  (POST randomUUID dateNow client body m = None ↔ spins = true) ∧
  (∀ r, POST randomUUID dateNow client body m = Some r →
     (resp_status (response r) = if accepted then 200%Z
                                 else match body with
                                      | Some _ => 400%Z
                                      | None => 500%Z
                                      end) ∧
     (accepted = false →
        manager r = m ∧ dispatched r = None ∧ dispatcher r = None ∧
        ∃ msg, resp_body (response r) = ErrorBody msg) ∧
     (accepted = true →
        is_Some (dispatched r) ∧
        ∃ s, dispatcher r = Some s ∧ manager r = store s ∧
             (pc s = AtAwait false ∨ pc s = Finished))).
Proof.
  assert (∀ msg, badRequest msg m = badRequest msg m →
            (Some (badRequest msg m) = None ↔ false = true) ∧
            ∀ r, Some (badRequest msg m) = Some r →
              resp_status (response r) = 400%Z ∧
              (false = false →
                 manager r = m ∧ dispatched r = None ∧ dispatcher r = None ∧
                 ∃ msg, resp_body (response r) = ErrorBody msg) ∧
              (false = true →
                 is_Some (dispatched r) ∧
                 ∃ s, dispatcher r = Some s ∧ manager r = store s ∧
                      (pc s = AtAwait false ∨ pc s = Finished))) as Hbad.
  { intros msg _. split; [done|]. intros r [= <-].
    split_and!; [done| |done]. intros _. split_and!; [done..|by eexists]. }
  destruct body as [b|]; cbv zeta.
  - destruct (promptRejected (prompt b)) eqn:Hp.
    { unfold POST. rewrite Hp. by apply Hbad. }
    destruct (outOfRange (imageCount b) 1 10) eqn:Hn.
    { unfold POST. rewrite Hp, Hn. by apply Hbad. }
    destruct (outOfRange (concurrency b) 1 5) eqn:Hc.
    { unfold POST. rewrite Hp, Hn, Hc. by apply Hbad. }
    rewrite POST_passes by done. cbn [negb andb].
    set (jobIds := randomUUID <$> seq 0 (rounds (imageCount b))).
    assert (length jobIds = rounds (imageCount b)) as Hl
      by (unfold jobIds; by rewrite length_fmap, length_seq).
    destruct (decide (rounds (imageCount b) = 0)) as [Hz|Hnz].
    + rewrite (bool_decide_eq_false_2 (rounds (imageCount b) ≠ 0)) by tauto.
      cbn [andb].
      assert (jobIds = []) as -> by (apply nil_length_inv; congruence).
      rewrite processJobs_sync_empty by (simpl; lia).
      split; [done|]. intros r [= <-]. cbn [response manager dispatched dispatcher].
      split_and!; [done|done|]. intros _. split; [done|].
      eexists. split_and!; [done..|by right].
    + rewrite (bool_decide_eq_true_2 (rounds (imageCount b) ≠ 0)) by done.
      cbn [andb].
      assert (jobIds ≠ []) as Hne.
      { intros Hnil. rewrite Hnil in Hl. simpl in Hl. lia. }
      destruct (concurrency b) as [c|] eqn:Hconc.
      * rewrite (bool_decide_eq_false_2 (Some c = None)) by done.
        assert (1 ≤ c)%Z as Hc1.
        { unfold outOfRange, lt_num in Hc.
          apply orb_false_iff in Hc as [Hlo _].
          apply bool_decide_eq_false_1 in Hlo. lia. }
        rewrite processJobs_sync_saturates by (done || lia).
        split; [done|]. intros r [= <-].
        cbn [response manager dispatched dispatcher].
        split_and!; [done|done|]. intros _. split; [done|].
        eexists. split_and!; [done..|by left].
      * rewrite processJobs_sync_spins by done. by split.
  - split; [done|]. intros r [= <-].
    split_and!; [done| |done]. intros _. split_and!; [done..|by eexists].
Qed.

Lemma POST_outcomes_witness :
  POST sampleUUID sampleClock None
    (Some (sampleRequest (Some 3%Z) None (Some "a red fox"))) sampleStore = None ∧
  (resp_status ∘ response <$> POST sampleUUID sampleClock None None sampleStore)
  = Some 500%Z.
Proof.
  split.
  - by apply (POST_outcomes sampleUUID sampleClock None
                (Some (sampleRequest (Some 3%Z) None (Some "a red fox")))
                sampleStore).
  - destruct (POST sampleUUID sampleClock None None sampleStore) as [r|] eqn:Hr;
      [|by vm_compute in Hr].
    destruct (POST_outcomes sampleUUID sampleClock None None sampleStore)
      as [_ Hans].
    destruct (Hans r Hr) as (Hst & _). simpl. by rewrite Hst.
Defined.

(** X6. The status endpoint after an accepted submit request, at any
    moment from the handler's answer on, whatever has happened in the
    dispatcher since then.  It answers 404 with an error body for an
    identifier the store does not hold.  Asked about a job of the
    request, it answers 200 with that identifier; it reports the job
    'pending' only while the job is still queued, and then without
    image or error.  A job that had left the queue when the handler
    answered is never reported 'pending'. *)
Theorem GET_after_POST (randomUUID : nat → string) (dateNow : nat → Z)
    (client : option Thrown) (body : GenerateRequest) (m : JobManager)
    (r : Handled) (jobIds : list string) (conc : number)
    (s0 : Dispatcher) (es : list Event) (s : Dispatcher) (id : string) :
  POST randomUUID dateNow client (Some body) m = Some r →
  dispatched r = Some (jobIds, conc) →
  dispatcher r = Some s0 →
  run conc es s0 = Some s →
  manager r = store s0 ∧
  (getJob id (store s) = None →
     GET (Some id) (store s) =
     {| reply_status := 404; reply_body := StatusFailed "Job not found" |}) ∧
  (id ∈ jobIds →
     ∃ sr, GET (Some id) (store s) =
           {| reply_status := 200; reply_body := StatusFound sr |} ∧
           sr_jobId sr = id ∧
           (sr_status sr = Pending →
              id ∈ queue s ∧ id ∈ queue s0 ∧
              sr_imageUrl sr = None ∧ sr_error sr = None)).
Proof.
  intros HPOST Hd Hs0 Hrun.
  destruct (promptRejected (prompt body)) eqn:Hp.
  { unfold POST in HPOST. rewrite Hp in HPOST. by injection HPOST as <-. }
  destruct (outOfRange (imageCount body) 1 10) eqn:Hn.
  { unfold POST in HPOST. rewrite Hp, Hn in HPOST. by injection HPOST as <-. }
  destruct (outOfRange (concurrency body) 1 5) eqn:Hc.
  { unfold POST in HPOST. rewrite Hp, Hn, Hc in HPOST. by injection HPOST as <-. }
  rewrite POST_passes in HPOST by done.
  pose proof (createJobs_spec randomUUID dateNow (rounds (imageCount body)) 0 m)
    as Hspec.
  destruct (createJobs randomUUID dateNow (rounds (imageCount body)) 0 m)
    as [ids m1].
  cbn [fst snd] in *. destruct Hspec as (-> & _ & Hin & _).
  destruct (processJobs_sync _ _ _ _) as [s1|] eqn:Hsync; [|done].
  injection HPOST as <-. cbn [dispatched dispatcher manager] in *.
  injection Hd as <- <-. injection Hs0 as ->.
  split; [done|]. split.
  { unfold GET. by intros ->. }
  intros Hid.
  apply processJobs_sync_run in Hsync as (j & Hrun0).
  assert (run (concurrency body) (replicate j (EvRun client) ++ es)
            (processJobs_init (randomUUID <$> seq 0 (rounds (imageCount body)))
               (createBatch (randomUUID (rounds (imageCount body)))
                  (dateNow (rounds (imageCount body)))
                  (randomUUID <$> seq 0 (rounds (imageCount body)))
                  (concurrency body) m1).2) = Some s) as Hall.
  { rewrite run_app, Hrun0. done. }
  pose proof (admitted_queue _ _ _ _ Hrun) as Hq.
  destruct (Marked_run _ _ _ _ _ Hall) as [(pre & Hpre & _ & Hout & Hmarked)].
  destruct (Hin id Hid) as (job & Hjob & Hpending).
  pose proof (run_identity _ _ _ _ id Hall) as Hident.
  cbn [processJobs_init store] in Hident.
  assert (getJob id (createBatch (randomUUID (rounds (imageCount body)))
                       (dateNow (rounds (imageCount body)))
                       (randomUUID <$> seq 0 (rounds (imageCount body)))
                       (concurrency body) m1).2 = Some job) as Hjob2 by done.
  rewrite Hjob2 in Hident.
  destruct (getJob id (store s)) as [job'|] eqn:Hjob'; [|done].
  injection Hident as Hid' _.
  exists {| sr_jobId := job_id job'; sr_status := job_status job';
            sr_imageUrl := job_imageUrl job'; sr_error := job_error job' |}.
  unfold GET. rewrite Hjob'. cbn [sr_jobId sr_status sr_imageUrl sr_error].
  destruct Hpending as (Hjid & _ & Hu & He).
  split_and!; [done|congruence|]. intros Hst.
  destruct (decide (id ∈ pre)) as [Hadm|Hnot].
  - by destruct (Hmarked id job' Hadm Hjob').
  - assert (id ∈ queue s) as Hqueued.
    { rewrite Hpre in Hid. apply elem_of_app in Hid as [?|?]; done. }
    rewrite (Hout id Hnot), Hjob2 in Hjob'. injection Hjob' as <-.
    split_and!; [done| |done|done].
    rewrite <- Hq. apply elem_of_app. by right.
Qed.

Lemma GET_after_POST_witness :
  let r := POST sampleUUID sampleClock None
             (Some (sampleRequest (Some 3%Z) (Some 2%Z) (Some "a red fox")))
             emptyManager in
  (r ≫= λ r, (λ s0, reply_status (GET (Some "1") (store s0))) <$> dispatcher r)
  = Some 200%Z.
Proof.
  intros r.
  destruct r as [r'|] eqn:Hr; [|by vm_compute in Hr].
  destruct (dispatcher r') as [s0|] eqn:Hs0;
    [|apply (f_equal (λ r, r ≫= dispatcher)) in Hr; simpl in Hr;
      rewrite Hs0 in Hr; by vm_compute in Hr].
  destruct (GET_after_POST sampleUUID sampleClock None
              (sampleRequest (Some 3%Z) (Some 2%Z) (Some "a red fox"))
              emptyManager r' ["0"; "1"; "2"] (Some 2%Z) s0 [] s0 "1")
    as (_ & _ & Hfound); [exact Hr| |exact Hs0|reflexivity|].
  - apply (f_equal (λ r, r ≫= dispatched)) in Hr. simpl in Hr. rewrite <- Hr.
    by vm_compute.
  - destruct Hfound as (sr & Hget & _).
    { apply (bool_decide_unpack _). by vm_compute. }
    cbn [mbind option_bind]. rewrite Hs0.
    cbn [fmap option_fmap option_map]. by rewrite Hget.
Defined.

(** ** The provider client *)

Lemma includesComma_app a b :
  includesComma (a +:+ b) = includesComma a || includesComma b.
Proof.
  induction a as [|x a IH]; simpl; [done|]. by rewrite IH, orb_assoc.
Qed.

Lemma splitComma_no_comma s : includesComma s = false → splitComma s = [s].
Proof.
  induction s as [|x s IH]; simpl; [done|].
  intros [Hx Hs]%orb_false_iff. rewrite Hx. by rewrite IH.
Qed.

Lemma splitComma_first_comma a b :
  includesComma a = false →
  splitComma (a +:+ "," +:+ b) = a :: splitComma b.
Proof.
  induction a as [|x a IH]; simpl; [done|].
  intros [Hx Ha]%orb_false_iff. rewrite Hx. by rewrite IH.
Qed.

(** X13. What [generateImage] strips from an uploaded image: a string
    without a comma is passed on as it is; of a string with commas,
    what lies between the first comma and the second (or the end) is
    passed on.  So a data URL with a payload free of commas is reduced
    to its payload, and a payload with a comma is cut at that comma. *)
Theorem base64Data_strips_prefix (a b : string) :
  includesComma a = false →
  (base64Data a = a) ∧
  (includesComma b = false → base64Data (a +:+ "," +:+ b) = b) ∧
  (∀ c, includesComma b = false →
        base64Data (a +:+ "," +:+ b +:+ "," +:+ c) = b).
Proof.
  intros Ha. unfold base64Data. split_and!.
  - by rewrite Ha.
  - intros Hb. rewrite !includesComma_app, Ha, Hb. simpl.
    rewrite splitComma_first_comma by done. by rewrite splitComma_no_comma.
  - intros c Hb. rewrite !includesComma_app, Ha, Hb. simpl.
    rewrite splitComma_first_comma by done.
    rewrite splitComma_first_comma by done. done.
Qed.

Lemma base64Data_strips_prefix_witness :
  base64Data "data:image/jpeg;base64,AAAA" = "AAAA".
Proof.
  refine (proj1 (proj2 (base64Data_strips_prefix "data:image/jpeg;base64" "AAAA" _)) _);
    reflexivity.
Defined.

Lemma find_first_image (parts : list ResponsePart) :
  match List.find (λ part, bool_decide (is_Some (inline_data part))) parts with
  | Some part =>
      ∃ before after d,
        parts = before ++ part :: after ∧
        Forall (λ p, inline_data p = None) before ∧ inline_data part = Some d
  | None => Forall (λ p, inline_data p = None) parts
  end.
Proof.
  induction parts as [|p parts IH]; simpl; [done|].
  case_bool_decide as Hp.
  - destruct Hp as [d Hd]. by exists [], parts, d.
  - assert (inline_data p = None) as Hnone.
    { destruct (inline_data p); [|done]. exfalso. by apply Hp. }
    destruct (List.find _ parts) as [part|].
    + destruct IH as (before & after & d & -> & Hbefore & Hd).
      exists (p :: before), after, d. split_and!; [done| |done]. by constructor.
    + by constructor.
Qed.

(** X14. [generateImage] is fulfilled exactly when the upstream call
    returns a response whose first candidate has a part with inline
    data; the result is then the data URL of the first such part of
    that candidate, with type 'image/png' when the part names none.
    Later candidates are not looked at.  In every other case it is
    rejected with an [Error] whose message begins with
    "Gemini API error: ". *)
Theorem generateImage_outcome (upstream : ContentRequest → Upstream)
    (prompt : string) (options : GenerateOptions) :
  let request :=
    {| req_model := "gemini-2.5-flash-image";
       req_parts := requestParts prompt (opt_image options);
       req_aspectRatio := default "1:1" (opt_aspectRatio options) |} in
  (∀ url, generateImage upstream prompt options = Fulfilled url ↔
     ∃ candidate others before part after d,
       upstream request
         = UpstreamReturns {| candidates := Some (candidate :: others) |} ∧
       content_parts candidate = Some (before ++ part :: after) ∧
       Forall (λ p, inline_data p = None) before ∧
       inline_data part = Some d ∧
       url = "data:"
             +:+ (match inline_mimeType d with
                  | Some t => if bool_decide (t = "") then "image/png" else t
                  | None => "image/png"
                  end)
             +:+ ";base64," +:+ inline_bytes d) ∧
  (∀ t, generateImage upstream prompt options = Rejected t →
     ∃ message, t = ThrownError ("Gemini API error: " +:+ message)).
Proof.
  intros request. unfold generateImage. fold request. split.
  - intros url. split.
    + destruct (upstream request) as [[cands]| |]; [|done..].
      unfold extractImage; simpl.
      destruct cands as [[|candidate others]|]; simpl; [done| |done].
      destruct (content_parts candidate) as [parts|] eqn:Hparts; simpl; [|done].
      pose proof (find_first_image parts) as Hfind.
      destruct (List.find _ parts) as [[[d|]]|]; [|done..].
      destruct Hfind as (before & after & d' & -> & Hbefore & Hd).
      simpl in Hd. injection Hd as <-. intros [= <-].
      by exists candidate, others, before, {| inline_data := Some d |}, after, d.
    + intros (candidate & others & before & part & after & d
              & -> & Hparts & Hbefore & Hd & ->).
      unfold extractImage; simpl. rewrite Hparts; simpl.
      pose proof (find_first_image (before ++ part :: after)) as Hfind.
      destruct (List.find _ (before ++ part :: after)) as [part'|].
      * destruct Hfind as (before' & after' & d' & Heq & Hbefore' & Hd').
        assert (part' = part) as ->.
        { clear -Heq Hbefore Hbefore' Hd Hd'.
          revert before' Heq Hbefore'.
          induction before as [|p before IH]; intros [|p' before'] Heq Hb'; simpl in *.
          - by injection Heq.
          - injection Heq as -> _. apply Forall_cons in Hb' as [Hp _]. congruence.
          - injection Heq as -> _. apply Forall_cons in Hbefore as [Hp _]. congruence.
          - injection Heq as -> Heq. apply Forall_cons in Hbefore as [_ Hbefore].
            apply Forall_cons in Hb' as [_ Hb']. by eapply IH. }
        destruct part as [data]. simpl in Hd. by subst data.
      * exfalso. apply Forall_app in Hfind as [_ [Hp _]%Forall_cons]. congruence.
  - intros t. destruct (upstream request) as [r| |].
    + destruct (extractImage r); [done|]. intros [= <-]. by eexists.
    + intros [= <-]. by eexists.
    + intros [= <-]. by eexists.
Qed.

Lemma generateImage_outcome_witness :
  generateImage sampleUpstream "a red fox" sampleOptions
  = Fulfilled "data:image/png;base64,AAAA".
Proof.
  apply (proj1 (generateImage_outcome sampleUpstream "a red fox" sampleOptions)).
  eexists _, _, [_], _, _, _. split_and!; [reflexivity..| |reflexivity|reflexivity].
  by repeat constructor.
Defined.

Lemma generateImage_shape upstream prompt options :
  (∃ rest, generateImage upstream prompt options = Fulfilled ("data:" +:+ rest)) ∨
  (∃ message, generateImage upstream prompt options
              = Rejected (ThrownError ("Gemini API error: " +:+ message))).
Proof.
  unfold generateImage. destruct (upstream _) as [r| |]; [|right; by eexists..].
  unfold extractImage.
  destruct (candidates r ≫= head) as [candidate|]; [|right; by eexists].
  destruct (content_parts candidate ≫= _) as [[[d|]]|]; [|right; by eexists..].
  left. by eexists.
Qed.

(** X15. What [processJob] writes for a job that the store holds,
    when a client is at hand: the job becomes 'complete' with a data
    URL, or 'error' with a message that begins with
    "Gemini API error: ".  The message 'Unknown error' is never written
    for a failure of the provider call. *)
Theorem processJob_records_provider_result (key : string)
    (cached : option GeminiClient) (upstream : ContentRequest → Upstream)
    (jobId : string) (request : GenerateRequest) (m : JobManager) :
  key ≠ "" → is_Some (getJob jobId m) →
  ∃ job, getJob jobId (processJob (Some key) cached upstream jobId request m)
           = Some job ∧
    ((∃ rest, job_status job = Complete ∧
              job_imageUrl job = Some ("data:" +:+ rest)) ∨
     (∃ message, job_status job = Error ∧
                 job_error job = Some ("Gemini API error: " +:+ message))).
Proof.
  intros Hkey [job0 Hjob0]. unfold processJob.
  assert (∃ c, (getGeminiClient (Some key) cached).1 = inr c) as [c ->].
  { unfold getGeminiClient, newGeminiClient. destruct cached; [by eexists|].
    rewrite bool_decide_eq_false_2 by done. by eexists. }
  rewrite getJob_processJob_resume, getJob_processJob_start, Hjob0.
  eexists. split; [done|].
  destruct (generateImage_shape upstream (default "" (prompt request))
              {| opt_temperature := temperature request;
                 opt_image := image request; opt_mode := mode request;
                 opt_aspectRatio := None |}) as [[rest ->]|[message ->]].
  - left. by eexists.
  - right. by eexists.
Qed.

Lemma processJob_records_provider_result_witness :
  job_error <$>
    getJob "j1" (processJob (Some "key") None
                   (λ _, UpstreamThrowsError "quota exceeded") "j1"
                   (sampleRequest (Some 1%Z) (Some 1%Z) (Some "a red fox"))
                   sampleStore)
  = Some (Some "Gemini API error: quota exceeded").
Proof.
  destruct (processJob_records_provider_result "key" None
              (λ _, UpstreamThrowsError "quota exceeded") "j1"
              (sampleRequest (Some 1%Z) (Some 1%Z) (Some "a red fox"))
              sampleStore) as (job & Hjob & _).
  - done.
  - by eexists.
  - by vm_compute.
Defined.

Lemma getGeminiClients_cached keys c j :
  j < length keys → getGeminiClients keys (Some c) !! j = Some (inr c).
Proof.
  revert j. induction keys as [|key keys IH]; intros j Hj; simpl in *; [lia|].
  destruct j as [|j]; [done|]. simpl. apply IH. lia.
Qed.

(** X16. Over any sequence of calls of [getGeminiClient()], with the
    key in the environment changing at will between the calls: once a
    call has returned a client, every later call returns that same
    client; and every call that throws does so with the message that
    the key is required. *)
Theorem getGeminiClient_caches (keys : list (option string))
    (cached : option GeminiClient) (i j : nat) (c : GeminiClient) :
  getGeminiClients keys cached !! i = Some (inr c) →
  i ≤ j → j < length keys →
  getGeminiClients keys cached !! j = Some (inr c) ∧
  Forall (λ r, ∀ e, r = inl e →
            e = ThrownError "GEMINI_API_KEY environment variable is required")
         (getGeminiClients keys cached).
Proof.
  intros Hi Hij Hj. split.
  - revert cached i j Hi Hij Hj.
    induction keys as [|key keys IH]; intros cached i j Hi Hij Hj; simpl in *; [lia|].
    destruct (getGeminiClient key cached) as [r cached1] eqn:Hget.
    destruct i as [|i]; simpl in Hi.
    + injection Hi as ->.
      assert (cached1 = Some c) as ->.
      { unfold getGeminiClient in Hget. destruct cached; [by simplify_eq|].
        destruct (newGeminiClient key); by simplify_eq. }
      destruct j as [|j]; [done|]. simpl. apply getGeminiClients_cached. lia.
    + destruct j as [|j]; [lia|]. simpl. apply (IH cached1 i); [done|lia|lia].
  - clear. revert cached. induction keys as [|key keys IH]; intros cached; simpl;
      [constructor|].
    destruct (getGeminiClient key cached) as [r cached1] eqn:Hget.
    constructor; [|apply IH].
    intros e ->. unfold getGeminiClient, newGeminiClient in Hget.
    destruct cached; [done|]. destruct key as [k|]; [|by simplify_eq].
    case_bool_decide; by simplify_eq.
Qed.

Lemma getGeminiClient_caches_witness :
  getGeminiClients [None; Some "k1"; None; Some "k2"] None !! 3
  = Some (inr {| client_apiKey := "k1" |}).
Proof.
  refine (proj1 (getGeminiClient_caches [None; Some "k1"; None; Some "k2"] None
                   1 3 {| client_apiKey := "k1" |} _ _ _));
    first [reflexivity | simpl; lia].
Defined.

(** ** The client: polling and the gallery *)

Lemma bodyDone_GET id m :
  bodyDone (reply_body (GET (Some id) m)) = isTerminal m id.
Proof.
  unfold GET, isTerminal, statusOf.
  destruct (getJob id m) as [job|]; simpl; [|done].
  by destruct (job_status job).
Qed.

Lemma pollRound_done (jobIds : list string) (m : JobManager) :
  (pollRound jobIds m).2 = true ↔ ∀ id, id ∈ jobIds → isTerminal m id = true.
Proof.
  unfold pollRound; cbn [snd]. rewrite forallb_forall. split.
  - intros Hall id Hid. rewrite <- bodyDone_GET. apply Hall.
    apply list_elem_of_In.
    by apply (list_elem_of_fmap_2 (λ jobId, reply_body (GET (Some jobId) m))).
  - intros Hall b Hb%list_elem_of_In.
    apply list_elem_of_fmap in Hb as (id & -> & Hid).
    cbv beta. rewrite bodyDone_GET. by apply Hall.
Qed.

(** X17. A round of polling ends the polling exactly when the store
    holds every job of the list and each is 'complete' or 'error'.  A
    job that the store does not hold (never created, or reclaimed)
    keeps the client polling. *)
Theorem pollRound_verdict (jobIds : list string) (m : JobManager) :
  ((pollRound jobIds m).2 = true ↔ ∀ id, id ∈ jobIds → isTerminal m id = true) ∧
  (∀ id, id ∈ jobIds → getJob id m = None → (pollRound jobIds m).2 = false) ∧
  length (pollRound jobIds m).1 = length jobIds.
Proof.
  pose proof (pollRound_done jobIds m) as Hiff.
  split_and!; [done| |].
  - intros id Hid Hnone. apply not_true_is_false. intros Htrue.
    pose proof (proj1 Hiff Htrue id Hid) as Hterm.
    unfold isTerminal, statusOf in Hterm. by rewrite Hnone in Hterm.
  - unfold pollRound; simpl. by rewrite length_fmap.
Qed.

Lemma pollRound_verdict_witness :
  (pollRound ["j1"; "ghost"] sampleStore).2 = false.
Proof.
  apply (proj1 (proj2 (pollRound_verdict ["j1"; "ghost"] sampleStore)) "ghost").
  - apply (bool_decide_unpack _). by vm_compute.
  - by vm_compute.
Defined.

Lemma filter_all_length {A} (P : A → Prop) `{∀ x, Decision (P x)} (l : list A) :
  length (filter P l) = length l ↔ Forall P l.
Proof.
  induction l as [|x l IH]; [by split|].
  rewrite filter_cons. case_decide as HP; simpl.
  - rewrite Forall_cons. split.
    + intros [= Hl]. split; [done|]. by apply IH.
    + intros [_ Hl]. f_equal. by apply IH.
  - split.
    + intros Hlen. pose proof (length_filter P l). lia.
    + by intros [? _]%Forall_cons.
Qed.

(** X18. The gallery shows "Download All" exactly when it has at
    least one job and every job is 'complete'.  A single job that
    ended in 'error', or whose status could not be fetched, hides the
    button for the whole batch. *)
Theorem downloadAll_shown_iff (jobs : list StatusBody) :
  showsDownloadAll jobs = true ↔
  jobs ≠ [] ∧ Forall (λ b, bodyComplete b = true) jobs.
Proof.
  unfold showsDownloadAll, completedCount.
  rewrite !andb_true_iff, negb_true_iff, !bool_decide_eq_true, bool_decide_eq_false.
  rewrite filter_all_length. split.
  - intros (Hne & Hall & _). split; [|done]. by destruct jobs.
  - intros [Hne Hall]. split_and!; [by destruct jobs|done|].
    rewrite (proj2 (filter_all_length (λ b, bodyComplete b = true) jobs) Hall).
    destruct jobs; [done|simpl; lia].
Qed.

Lemma downloadAll_shown_iff_witness :
  showsDownloadAll
    [StatusFound {| sr_jobId := "0"; sr_status := Complete;
                    sr_imageUrl := Some "data:image/png;base64,AA";
                    sr_error := None |};
     StatusFound {| sr_jobId := "1"; sr_status := Error;
                    sr_imageUrl := None; sr_error := Some "quota exceeded" |}]
  = false.
Proof.
  apply not_true_is_false. intros [_ Hall]%downloadAll_shown_iff.
  apply Forall_cons in Hall as [_ [Hbad _]%Forall_cons]. by vm_compute in Hbad.
Defined.

(** ** Across the components *)

Lemma keyed_createJobs randomUUID dateNow n k m :
  keyed m → keyed (createJobs randomUUID dateNow n k m).2.
Proof.
  revert k m. induction n as [|n IH]; intros k m Hm; simpl; [done|].
  specialize (IH (S k)
    {| jobs := <[randomUUID k :=
                   {| job_id := randomUUID k; job_status := Pending;
                      job_imageUrl := None; job_error := None;
                      job_createdAt := dateNow k |}]> (jobs m);
       batches := batches m |}).
  destruct (createJobs randomUUID dateNow n (S k) _) as [rest m2]. simpl in *.
  apply IH. intros id job. unfold getJob; simpl.
  destruct (decide (randomUUID k = id)) as [<-|Hne].
  - rewrite lookup_insert_eq. by intros [= <-].
  - rewrite lookup_insert_ne by done. apply Hm.
Qed.

Lemma keyed_run conc es s s' :
  keyed (store s) → run conc es s = Some s' → keyed (store s').
Proof.
  intros Hm Hrun id job Hjob.
  pose proof (run_identity _ _ _ _ id Hrun) as Hident.
  rewrite Hjob in Hident.
  destruct (getJob id (store s)) as [job0|] eqn:Hjob0; [|done].
  simpl in Hident. injection Hident as Hid _. rewrite Hid. by apply Hm.
Qed.

(** X19. If every job of the store is stored under its own
    identifier, this is still so when the submit handler answers, after
    a sweep and after any run of the dispatcher; and the status
    endpoint then answers a query for a job it holds with the
    identifier it was asked about. *)
Theorem jobs_stay_keyed (m : JobManager) :
  keyed m →
  (∀ randomUUID dateNow client body r,
     POST randomUUID dateNow client body m = Some r → keyed (manager r)) ∧
  (∀ now age, keyed (cleanup now age m)) ∧
  (∀ conc jobIds es s,
     run conc es (processJobs_init jobIds m) = Some s → keyed (store s)) ∧
  (∀ id job, getJob id m = Some job →
     GET (Some id) m =
     {| reply_status := 200;
        reply_body := StatusFound
          {| sr_jobId := id; sr_status := job_status job;
             sr_imageUrl := job_imageUrl job; sr_error := job_error job |} |}).
Proof.
  intros Hm. split_and!.
  - intros randomUUID dateNow client body r.
    destruct body as [body|]; [|by intros [= <-]].
    destruct (promptRejected (prompt body)) eqn:Hp.
    { unfold POST. rewrite Hp. by intros [= <-]. }
    destruct (outOfRange (imageCount body) 1 10) eqn:Hn.
    { unfold POST. rewrite Hp, Hn. by intros [= <-]. }
    destruct (outOfRange (concurrency body) 1 5) eqn:Hc.
    { unfold POST. rewrite Hp, Hn, Hc. by intros [= <-]. }
    rewrite POST_passes by done.
    destruct (processJobs_sync _ _ _ _) as [s1|] eqn:Hsync; [|done].
    intros [= <-]. cbn [manager].
    apply processJobs_sync_run in Hsync as (j & Hrun).
    refine (keyed_run _ _ _ _ _ Hrun). intros id job Hjob.
    by apply (keyed_createJobs randomUUID dateNow
                (rounds (imageCount body)) 0 m Hm id job).
  - intros now age id job. rewrite getJob_cleanup.
    destruct (getJob id m) as [job0|] eqn:Hjob0; [|done].
    case_bool_decide; [done|]. intros [= <-]. by apply Hm.
  - intros conc jobIds es s Hrun. by refine (keyed_run _ _ _ _ _ Hrun).
  - intros id job Hjob. unfold GET. rewrite Hjob. by rewrite (Hm id job Hjob).
Qed.

Lemma jobs_stay_keyed_witness :
  sr_jobId <$> match reply_body (GET (Some "1") (sampleBatch 3).2) with
               | StatusFound r => Some r
               | StatusFailed _ => None
               end = Some "1".
Proof.
  destruct (getJob "1" (sampleBatch 3).2) as [job|] eqn:Hjob;
    [|by vm_compute in Hjob].
  destruct (jobs_stay_keyed (sampleBatch 3).2) as (_ & _ & _ & Hget).
  - apply keyed_createJobs. by intros id job0 Hnone.
  - by rewrite (Hget "1" job Hjob).
Defined.

(** X20. From submission to the end of polling.  The handler accepts
    a valid request and answers with [processJobs] suspended for the
    first time.  After the dispatcher has then run to its return
    (followed from the handler's answer, or from the call of
    [processJobs]), each of the jobs named in the response is answered
    by the status endpoint with status 200 and a job that is 'complete'
    or 'error', the round of polling over these jobs ends the polling,
    and the batch is still stored as the handler stored it. *)
Theorem submit_then_poll (randomUUID : nat → string) (dateNow : nat → Z)
    (client : option Thrown) (body : GenerateRequest) (m : JobManager)
    (p : string) (n c : Z) :
  prompt body = Some p → 3 ≤ String.length p →
  imageCount body = Some n → (1 ≤ n ≤ 10)%Z →
  concurrency body = Some c → (1 ≤ c ≤ 5)%Z →
  let jobIds := randomUUID <$> seq 0 (Z.to_nat n) in
  let batchId := randomUUID (Z.to_nat n) in
  let created :=
    (createBatch batchId (dateNow (Z.to_nat n)) jobIds (Some c)
       (createJobs randomUUID dateNow (Z.to_nat n) 0 m).2).2 in
  ∃ r s0,
    POST randomUUID dateNow client (Some body) m = Some r ∧
    dispatched r = Some (jobIds, Some c) ∧
    dispatcher r = Some s0 ∧
    manager r = store s0 ∧
    (∃ es0, run (Some c) es0 (processJobs_init jobIds created) = Some s0) ∧
    ∀ es s,
      run (Some c) es s0 = Some s ∨
      run (Some c) es (processJobs_init jobIds created) = Some s →
      pc s = Finished →
      (∀ id, id ∈ jobIds →
         reply_status (GET (Some id) (store s)) = 200%Z ∧
         bodyDone (reply_body (GET (Some id) (store s))) = true) ∧
      (pollRound jobIds (store s)).2 = true ∧
      getBatch batchId (store s) = getBatch batchId (manager r) ∧
      getBatch batchId (store s)
        = Some {| batch_id := batchId; batch_jobIds := jobIds;
                  batch_concurrency := Some c;
                  batch_createdAt := dateNow (Z.to_nat n) |}.
Proof.
  intros Hp Hlen Hn Hnr Hc Hcr jobIds batchId created.
  destruct (POST_valid randomUUID dateNow client body m p n c)
    as [Hsync HPOST]; [done..|].
  fold jobIds in Hsync, HPOST. fold batchId in Hsync, HPOST.
  fold created in Hsync, HPOST.
  apply processJobs_sync_run in Hsync as (j & Hrun0).
  eexists _, _. split; [exact HPOST|].
  cbn [dispatched dispatcher manager store].
  split_and!; [done|done|done|by eexists|].
  assert (∀ id, id ∈ jobIds → is_Some (getJob id created)) as Hheld.
  { pose proof (createJobs_spec randomUUID dateNow (Z.to_nat n) 0 m) as Hspec.
    unfold created.
    destruct (createJobs randomUUID dateNow (Z.to_nat n) 0 m) as [ids m1].
    cbn [fst snd] in *. destruct Hspec as (-> & _ & Hin & _).
    intros id Hid. destruct (Hin id Hid) as (job & Hjob & _). by exists job. }
  assert (getBatch batchId created
          = Some {| batch_id := batchId; batch_jobIds := jobIds;
                    batch_concurrency := Some c;
                    batch_createdAt := dateNow (Z.to_nat n) |}) as Hbatch.
  { unfold created, getBatch, createBatch. cbn [snd batches].
    by rewrite lookup_insert_eq. }
  intros es s Hrun Hpc.
  assert (∃ es', run (Some c) es' (processJobs_init jobIds created) = Some s)
    as [es' Hall].
  { destruct Hrun as [Hrun|Hrun]; [|by eexists].
    exists (replicate j (EvRun client) ++ es). by rewrite run_app, Hrun0. }
  assert (∀ id, id ∈ jobIds → isTerminal (store s) id = true) as Hterm.
  { intros id Hid.
    apply (Inv_finished_terminal (Some c) jobIds); [by eapply Inv_run|done..|].
    by apply (run_keeps_jobs (Some c) jobIds es'
                (processJobs_init jobIds created)). }
  assert (batches (store s) = batches created) as Hb
    by apply (run_batches _ _ _ _ Hall).
  assert (batches (startEach client
                     (take (Z.to_nat c `min` Z.to_nat n) jobIds) created)
          = batches created) as Hb0 by apply startEach_batches.
  split_and!.
  - intros id Hid. split; [|rewrite bodyDone_GET; by apply Hterm].
    specialize (Hterm id Hid). unfold isTerminal, statusOf, GET in *.
    by destruct (getJob id (store s)).
  - by apply pollRound_done.
  - unfold getBatch. by rewrite Hb, Hb0.
  - unfold getBatch. rewrite Hb. exact Hbatch.
Qed.

Lemma submit_then_poll_witness :
  let r := POST sampleUUID sampleClock None
             (Some (sampleRequest (Some 3%Z) (Some 2%Z) (Some "a red fox")))
             emptyManager in
  ∃ s, match r ≫= dispatcher with
       | Some s0 => drive (Some 2%Z) (Fulfilled "data:image/png;base64,AA") 32 s0
       | None => None
       end = Some s ∧
       (pollRound ["0"; "1"; "2"] (store s)).2 = true.
Proof.
  intros r.
  destruct (submit_then_poll sampleUUID sampleClock None
              (sampleRequest (Some 3%Z) (Some 2%Z) (Some "a red fox"))
              emptyManager "a red fox" 3 2)
    as (r' & s0 & Hr & _ & Hs0 & _ & (es0 & Hes0) & Hall);
    [reflexivity|simpl; lia|reflexivity|lia|reflexivity|lia|].
  destruct (drive_finishes 2 (sampleUUID <$> seq 0 (Z.to_nat 3))
              (Fulfilled "data:image/png;base64,AA") 32 s0)
    as (es & s & Hd & Hrun & Hpc); [lia|by eapply Inv_run| |].
  - pose proof (run_weight 2 _ _ _ ltac:(lia) Hes0) as Hw.
    pose proof (weight_init (sampleUUID <$> seq 0 (Z.to_nat 3))
                  (createBatch (sampleUUID (Z.to_nat 3)) (sampleClock (Z.to_nat 3))
                     (sampleUUID <$> seq 0 (Z.to_nat 3)) (Some 2%Z)
                     (createJobs sampleUUID sampleClock (Z.to_nat 3) 0
                        emptyManager).2).2) as Hi.
    rewrite length_fmap, length_seq in Hi.
    change (Z.to_nat 3) with 3 in *. lia.
  - exists s. unfold r. rewrite Hr. cbn [mbind option_bind]. rewrite Hs0.
    split; [exact Hd|].
    by destruct (Hall es s (or_introl Hrun) Hpc) as (_ & Hpoll & _).
Defined.

(** X21. On an empty list [processJobs] returns at its first loop
    test, whatever the limit (a missing one included), with the store
    as it was; nothing can happen after that. *)
Theorem processJobs_empty_list (conc : number) (m : JobManager)
    (es : list Event) (s : Dispatcher) :
  run conc es (processJobs_init [] m) = Some s →
  store s = m ∧ length es ≤ 1 ∧ (es ≠ [] → pc s = Finished) ∧
  (∀ client, step conc (processJobs_init [] m) (EvRun client)
             = Some (with_pc (processJobs_init [] m) Finished)).
Proof.
  intros Hrun. destruct es as [|e es]; simpl in Hrun.
  - injection Hrun as <-. split_and!; [done|simpl; lia|done|done].
  - destruct e as [client|i o|i]; [|done..].
    unfold step in Hrun. simpl in Hrun. destruct es as [|e es]; simpl in Hrun.
    + injection Hrun as <-. split_and!; [done|simpl; lia|done|done].
    + by destruct e.
Qed.

Lemma processJobs_empty_list_witness :
  pc <$> run None [EvRun None] (processJobs_init [] sampleStore) = Some Finished.
Proof.
  destruct (run None [EvRun None] (processJobs_init [] sampleStore)) as [s|] eqn:Hrun;
    [|by vm_compute in Hrun].
  destruct (processJobs_empty_list None sampleStore [EvRun None] s Hrun)
    as (_ & _ & Hfin & _).
  simpl. by rewrite Hfin.
Defined.
